(** * Coverage analyser backend (backend/server.js): a shallow embedding

    The development follows the source file top-down:

    - [JsString]: the String operations the server uses ([length],
      [substring], [trim], [join], template concatenation);
    - [JsNumber]: the Number values that can reach a report (integers,
      their quotients, NaN and the infinities), [parseInt], [Math.round];
    - [JsRegExp]: the RegExp builtin: pattern syntax, the backtracking
      matcher and [String.prototype.match];
    - [Server]: [extractVideoId], the upstream helpers, [analyzeCoverage],
      the two route handlers;
    - the theorems about them.

    Strings are sequences of code units; the embedding covers the code
    units 0..255, which is what [Stdlib.Strings.String] offers. *)

From Stdlib Require Import String Ascii List ZArith QArith Qround Lia Bool Arith.
From Stdlib Require Import DecimalString.
Import ListNotations.
Close Scope Q_scope.
Open Scope string_scope.
Open Scope nat_scope.

Set Implicit Arguments.

(* ================================================================== *)
(** * Strings *)
(* ================================================================== *)

Module JsString.

(** Code unit of a character. *)
Definition code (c : ascii) : N := N_of_ascii c.

Definition in_range (lo hi : N) (c : ascii) : bool :=
  (N.leb lo (code c) && N.leb (code c) hi)%bool.

(** [WhiteSpace] and [LineTerminator] of the language, restricted to the
    code units below 256: TAB, LF, VT, FF, CR, SP and NBSP.  This is the
    set used by [trim], by [parseInt] and by the [\s] class escape. *)
Definition isWhiteSpace (c : ascii) : bool :=
  (in_range 9 13 c || N.eqb (code c) 32 || N.eqb (code c) 160)%bool.

(** [LineTerminator] alone: LF and CR (the [.] atom excludes them). *)
Definition isLineTerminator (c : ascii) : bool :=
  (N.eqb (code c) 10 || N.eqb (code c) 13)%bool.

Definition isDigit (c : ascii) : bool := in_range 48 57 c.

(** The word characters of [\w] and [\b]: [A-Za-z0-9_]. *)
Definition isWordChar (c : ascii) : bool :=
  (in_range 97 122 c || in_range 65 90 c || isDigit c
   || N.eqb (code c) 95)%bool.

Fixpoint take (n : nat) (s : string) : string :=
  match n, s with
  | S n', String c s' => String c (take n' s')
  | _, _ => EmptyString
  end.

Fixpoint drop (n : nat) (s : string) : string :=
  match n, s with
  | S n', String _ s' => drop n' s'
  | _, _ => s
  end.

(** [s.substring(a, b)]: both indices are clamped to the length and
    swapped when out of order. *)
Definition substring (a b : nat) (s : string) : string :=
  drop (Nat.min a b) (take (Nat.max a b) s).

Fixpoint trimStart (s : string) : string :=
  match s with
  | String c s' => if isWhiteSpace c then trimStart s' else s
  | EmptyString => EmptyString
  end.

(** Removes trailing white space: a character is kept when it is not
    white space or when something is kept after it. *)
Fixpoint trimEnd (s : string) : string :=
  match s with
  | EmptyString => EmptyString
  | String c s' =>
      match trimEnd s' with
      | EmptyString => if isWhiteSpace c then EmptyString
                       else String c EmptyString
      | t => String c t
      end
  end.

Definition trim (s : string) : string := trimEnd (trimStart s).

(** [xs.join(sep)] on an array of strings. *)
Fixpoint join (sep : string) (xs : list string) : string :=
  match xs with
  | [] => ""
  | [x] => x
  | x :: rest => x ++ sep ++ join sep rest
  end.

(** Truthiness of a possibly absent string: [undefined] and the empty
    string are falsy. *)
Definition truthy (s : option string) : bool :=
  match s with
  | None | Some EmptyString => false
  | Some _ => true
  end.

(** A value interpolated in a template literal. *)
Definition interpolate (s : option string) : string :=
  match s with
  | Some v => v
  | None => "undefined"
  end.

End JsString.

(* ================================================================== *)
(** * Numbers *)
(* ================================================================== *)

Module JsNumber.
Import JsString.

(** The Number values: the finite values of the binary64 format, kept
    as rationals in lowest terms, the two infinities and NaN.  The sign
    of zero is not tracked: the server never divides by a zero that could
    be negative, and [res.json] writes both zeros as 0. *)
Inductive number : Type :=
| NaN
| PosInf
| NegInf
| Fin (q : Q).

(** The Number of an integer literal of the program, and of the length
    of an array (an array has fewer than 2^32 elements); both are
    integers that the format holds exactly. *)
Definition ofZ (z : Z) : number := Fin (inject_Z z).
Definition ofNat (n : nat) : number := ofZ (Z.of_nat n).

(** ** Rounding to binary64 *)

(** [a / b < 2 ^ e], for positive [a] and [b]. *)
Definition below (a b e : Z) : bool :=
  if (0 <=? e)%Z then (a <? b * 2 ^ e)%Z else (a * 2 ^ (- e) <? b)%Z.

(** The integer [e] with [2 ^ e <= a / b < 2 ^ (e + 1)], for positive [a]
    and [b] ([ilog2_lower] and [ilog2_upper] below). *)
Definition ilog2 (a b : Z) : Z :=
  let e := (Z.log2 a - Z.log2 b)%Z in
  if below a b e then (e - 1)%Z else e.

(** The integer nearest to [n / d], the even one of the two in a tie. *)
Definition roundHalfEven (n d : Z) : Z :=
  let k := (n / d)%Z in
  match (2 * (n mod d) ?= d)%Z with
  | Lt => k
  | Gt => (k + 1)%Z
  | Eq => if Z.even k then k else (k + 1)%Z
  end.

(** The Number that stands for the real number [q]: the nearest value
    of the format (53 binary digits, exponents from -1022 to 1023, so
    the unit of the last place is [2 ^ x] with [x] not below -1074), the
    one with an even last digit in a tie, and an infinity when that
    value would reach 2^1024.  This is how the engine rounds the exact
    result of every arithmetic operation. *)
Definition round64 (q : Q) : number :=
  let a := Z.abs (Qnum q) in
  let b := Z.pos (Qden q) in
  let neg := (Qnum q <? 0)%Z in
  if (a =? 0)%Z then Fin 0
  else
    let x := (Z.max (ilog2 a b) (-1022) - 52)%Z in
    if (0 <=? x)%Z then
      let v := (roundHalfEven a (b * 2 ^ x) * 2 ^ x)%Z in
      if (2 ^ 1024 <=? v)%Z then (if neg then NegInf else PosInf)
      else Fin (inject_Z (if neg then - v else v))
    else
      let r := roundHalfEven (a * 2 ^ (- x)) b in
      Fin (Qred ((if neg then (- r)%Z else r) # Z.to_pos (2 ^ (- x)))).

(** [x + y] *)
Definition add (x y : number) : number :=
  match x, y with
  | NaN, _ | _, NaN => NaN
  | PosInf, NegInf | NegInf, PosInf => NaN
  | PosInf, _ | _, PosInf => PosInf
  | NegInf, _ | _, NegInf => NegInf
  | Fin a, Fin b => round64 (a + b)
  end.

Definition Qsign (q : Q) : comparison := (Qnum q ?= 0)%Z.

(** [x / y] *)
Definition div (x y : number) : number :=
  match x, y with
  | NaN, _ | _, NaN => NaN
  | Fin a, Fin b =>
      match Qsign b with
      | Eq => match Qsign a with
              | Eq => NaN
              | Gt => PosInf
              | Lt => NegInf
              end
      | _ => round64 (a / b)
      end
  | Fin _, _ => Fin 0
  | PosInf, Fin b => match Qsign b with Lt => NegInf | _ => PosInf end
  | NegInf, Fin b => match Qsign b with Lt => PosInf | _ => NegInf end
  | _, _ => NaN
  end.

(** [Math.round(x)]: the integer closest to [x], the larger one in a
    tie.  No rounding is needed: a Number below 2^52 in size has its
    integers next to it in the format, and a larger one is an integer. *)
Definition Math_round (x : number) : number :=
  match x with
  | Fin q => ofZ (Qfloor (q + (1 # 2)))
  | other => other
  end.

(** [x >= y] *)
Definition ge (x y : number) : bool :=
  match x, y with
  | NaN, _ | _, NaN => false
  | PosInf, _ => true
  | _, NegInf => true
  | _, PosInf => false
  | NegInf, _ => false
  | Fin a, Fin b => Qle_bool b a
  end.

Definition isInteger (x : number) : Prop := exists z : Z, x = ofZ z.

(** Value of [c] as a digit in the given radix. *)
Definition digitOf (radix : Z) (c : ascii) : option Z :=
  let n := Z.of_N (code c) in
  let v := if isDigit c then Some (n - 48)%Z
           else if in_range 97 122 c then Some (n - 87)%Z
           else if in_range 65 90 c then Some (n - 55)%Z
           else None in
  match v with
  | Some d => if (d <? radix)%Z then Some d else None
  | None => None
  end.

(** Value of the longest prefix of [s] made of digits of the radix;
    [acc] is the value read so far, [None] before the first digit. *)
Fixpoint parseDigits (radix : Z) (acc : option Z) (s : string) : option Z :=
  match s with
  | String c s' =>
      match digitOf radix c with
      | Some d =>
          parseDigits radix
            (Some (radix * match acc with Some a => a | None => 0 end + d)%Z)
            s'
      | None => acc
      end
  | EmptyString => acc
  end.

Definition stripSign (s : string) : Z * string :=
  match s with
  | String "-" s' => ((-1)%Z, s')
  | String "+" s' => (1%Z, s')
  | _ => (1%Z, s)
  end.

Definition stripHexPrefix (s : string) : Z * string :=
  match s with
  | String "0" (String "x" s') => (16%Z, s')
  | String "0" (String "X" s') => (16%Z, s')
  | _ => (10%Z, s)
  end.

(** [parseInt(v)] with no radix argument.  An [undefined] argument is
    first converted to the string "undefined".  The result is the Number
    for the integer that the digits write: the nearest value of the
    format, [Infinity] from 2^1024 on.  (Past 20 digits the language lets
    an engine read the later digits as zeros; the engine that runs this
    server rounds the integer itself.) *)
Definition parseInt (v : option string) : number :=
  let '(sign, s1) := stripSign (trimStart (interpolate v)) in
  let '(radix, s2) := stripHexPrefix s1 in
  match parseDigits radix None s2 with
  | Some n => round64 (inject_Z (sign * n))
  | None => NaN
  end.

End JsNumber.

(* ================================================================== *)
(** * Regular expressions *)
(* ================================================================== *)

(** [new RegExp(pattern, flags)] and [text.match(re)] for a non-global
    regular expression, after the pattern grammar and the matcher
    semantics of the language specification (with its web-compatibility
    extensions, not in unicode mode).

    The pattern syntax covered is: pattern characters, [.], alternation,
    capturing and [(?:] groups, the quantifiers [*], [+], [?] and their
    lazy forms, the assertions [^], [$], [\b], [\B], character classes
    with ranges, the class escapes [\d \D \s \S \w \W], the control
    escapes [\f \n \r \t \v] and identity escapes.  A pattern that uses
    anything else (braces, look-around, back-references, named groups,
    numeric, hexadecimal, unicode or control-letter escapes) is reported
    as [Unmodelled] and never given a meaning here. *)
Module JsRegExp.
Import JsString.

(** ** Syntax *)

Inductive ClassEscape : Type :=
| Digit | NotDigit | Space | NotSpace | Word | NotWord.

Inductive ClassItem : Type :=
| CiChar (c : ascii)
| CiRange (lo hi : ascii)
| CiEscape (e : ClassEscape)
| CiDot.

Inductive Regex : Type :=
| REmpty
| RCharSet (invert : bool) (A : list ClassItem)
| RSeq (r1 r2 : Regex)
| RAlt (r1 r2 : Regex)
| RQuant (r : Regex) (min : nat) (max : option nat) (greedy : bool)
         (parenIndex parenCount : nat)
| RGroup (n : nat) (r : Regex)
| RAssertStart
| RAssertEnd
| RWordBoundary (negated : bool).

Definition RChar (c : ascii) : Regex := RCharSet false [CiChar c].

(** ** Parsing *)

Inductive Parse (A : Type) : Type :=
| Parsed (a : A)
| SyntaxError
| Unmodelled.
Arguments SyntaxError {A}.
Arguments Unmodelled {A}.

Definition pbind {A B} (p : Parse A) (k : A -> Parse B) : Parse B :=
  match p with
  | Parsed a => k a
  | SyntaxError => SyntaxError
  | Unmodelled => Unmodelled
  end.

Notation "'let*' x ':=' p 'in' k" := (pbind p (fun x => k))
  (at level 10, x pattern, p at level 100, k at level 200).

Definition classEscapeOf (c : ascii) : option ClassEscape :=
  match c with
  | "d" => Some Digit | "D" => Some NotDigit
  | "s" => Some Space | "S" => Some NotSpace
  | "w" => Some Word  | "W" => Some NotWord
  | _ => None
  end%char.

Definition controlEscapeOf (c : ascii) : option ascii :=
  match c with
  | "f" => Some (ascii_of_nat 12)
  | "n" => Some (ascii_of_nat 10)
  | "r" => Some (ascii_of_nat 13)
  | "t" => Some (ascii_of_nat 9)
  | "v" => Some (ascii_of_nat 11)
  | _ => None
  end%char.

(** The escapes that are left out: [\c], [\k], [\x], [\u], [\p], [\P]
    and the numeric ones. *)
Definition unmodelledEscape (c : ascii) : bool :=
  match c with
  | "c" | "k" | "x" | "u" | "p" | "P" => true
  | _ => isDigit c
  end%char.

(** The character after a backslash, outside a class ([\b] and [\B]
    are assertions and handled by [parseTerm]). *)
Definition atomEscape (c : ascii) : Parse Regex :=
  match classEscapeOf c with
  | Some e => Parsed (RCharSet false [CiEscape e])
  | None =>
      match controlEscapeOf c with
      | Some k => Parsed (RChar k)
      | None => if unmodelledEscape c then Unmodelled else Parsed (RChar c)
      end
  end.

(** The character after a backslash, inside a class: [\b] is the
    backspace there. *)
Definition classAtomEscape (c : ascii) : Parse ClassItem :=
  match classEscapeOf c with
  | Some e => Parsed (CiEscape e)
  | None =>
      match controlEscapeOf c with
      | Some k => Parsed (CiChar k)
      | None =>
          if Ascii.eqb c "b" then Parsed (CiChar (ascii_of_nat 8))
          else if unmodelledEscape c then Unmodelled
          else Parsed (CiChar c)
      end
  end.

Definition parseClassAtom (s : string) : Parse (ClassItem * string) :=
  match s with
  | EmptyString => SyntaxError
  | String "\" EmptyString => SyntaxError
  | String "\" (String c s') =>
      let* a := classAtomEscape c in Parsed (a, s')
  | String c s' => Parsed (CiChar c, s')
  end.

(** The contents of a class up to and including the closing bracket.
    [a-b] is a range when both ends are single characters; a dash that
    is first, last or follows a range stands for itself. *)
Fixpoint parseClassRanges (fuel : nat) (s : string) (acc : list ClassItem)
  : Parse (list ClassItem * string) :=
  match fuel with
  | 0 => Unmodelled
  | S fuel' =>
      match s with
      | EmptyString => SyntaxError
      | String "]" s' => Parsed (rev acc, s')
      | _ =>
          let* (a, s1) := parseClassAtom s in
          match s1 with
          | String "-" EmptyString => SyntaxError
          | String "-" (String "]" _) => parseClassRanges fuel' s1 (a :: acc)
          | String "-" s2 =>
              let* (b, s3) := parseClassAtom s2 in
              match a, b with
              | CiChar lo, CiChar hi =>
                  if N.ltb (code hi) (code lo) then SyntaxError
                  else parseClassRanges fuel' s3 (CiRange lo hi :: acc)
              | _, _ => Unmodelled
              end
          | _ => parseClassRanges fuel' s1 (a :: acc)
          end
      end
  end.

Definition parseClass (s : string) : Parse (Regex * string) :=
  match s with
  | String "^" s' =>
      let* (items, rest) := parseClassRanges (S (String.length s')) s' [] in
      Parsed (RCharSet true items, rest)
  | _ =>
      let* (items, rest) := parseClassRanges (S (String.length s)) s [] in
      Parsed (RCharSet false items, rest)
  end.

(** An optional quantifier after the atom [r], whose capture groups are
    [parenIndex+1 .. parenIndex+parenCount]. *)
Definition parseQuantifier (r : Regex) (parenIndex parenCount : nat)
           (s : string) : Parse (Regex * string) :=
  let lazy (min : nat) (max : option nat) (s1 : string) :=
    match s1 with
    | String "?" s2 =>
        Parsed (RQuant r min max false parenIndex parenCount, s2)
    | _ => Parsed (RQuant r min max true parenIndex parenCount, s1)
    end in
  match s with
  | String "*" s1 => lazy 0 None s1
  | String "+" s1 => lazy 1 None s1
  | String "?" s1 => lazy 0 (Some 1) s1
  | String "{" _ => Unmodelled
  | _ => Parsed (r, s)
  end.

(** Recursive descent; [g] is the number of capture groups opened so
    far.  Each function returns the expression read, the rest of the
    pattern and the new group count. *)
Fixpoint parseDisjunction (fuel : nat) (s : string) (g : nat)
  : Parse (Regex * string * nat) :=
  match fuel with
  | 0 => Unmodelled
  | S fuel' =>
      let* (r1, s1, g1) := parseAlternative fuel' s g in
      match s1 with
      | String "|" s2 =>
          let* (r2, s3, g2) := parseDisjunction fuel' s2 g1 in
          Parsed (RAlt r1 r2, s3, g2)
      | _ => Parsed (r1, s1, g1)
      end
  end

with parseAlternative (fuel : nat) (s : string) (g : nat)
  : Parse (Regex * string * nat) :=
  match fuel with
  | 0 => Unmodelled
  | S fuel' =>
      match s with
      | EmptyString | String "|" _ | String ")" _ => Parsed (REmpty, s, g)
      | _ =>
          let* (r1, s1, g1) := parseTerm fuel' s g in
          let* (r2, s2, g2) := parseAlternative fuel' s1 g1 in
          Parsed (RSeq r1 r2, s2, g2)
      end
  end

with parseTerm (fuel : nat) (s : string) (g : nat)
  : Parse (Regex * string * nat) :=
  match fuel with
  | 0 => Unmodelled
  | S fuel' =>
      match s with
      | String "^" s' => Parsed (RAssertStart, s', g)
      | String "$" s' => Parsed (RAssertEnd, s', g)
      | String "\" (String "b" s') => Parsed (RWordBoundary false, s', g)
      | String "\" (String "B" s') => Parsed (RWordBoundary true, s', g)
      | String "*" _ | String "+" _ | String "?" _ => SyntaxError
      | String "{" _ => Unmodelled
      | _ =>
          let* (r, s1, g1) := parseAtom fuel' s g in
          let* (q, s2) := parseQuantifier r g (g1 - g) s1 in
          Parsed (q, s2, g1)
      end
  end

with parseAtom (fuel : nat) (s : string) (g : nat)
  : Parse (Regex * string * nat) :=
  match fuel with
  | 0 => Unmodelled
  | S fuel' =>
      match s with
      | EmptyString => SyntaxError
      | String "." s' => Parsed (RCharSet false [CiDot], s', g)
      | String "\" EmptyString => SyntaxError
      | String "\" (String c s') =>
          let* r := atomEscape c in Parsed (r, s', g)
      | String "[" s' =>
          let* (r, s1) := parseClass s' in Parsed (r, s1, g)
      | String "(" (String "?" (String ":" s')) =>
          let* (r, s1, g1) := parseDisjunction fuel' s' g in
          match s1 with
          | String ")" s2 => Parsed (r, s2, g1)
          | _ => SyntaxError
          end
      | String "(" (String "?" _) => Unmodelled
      | String "(" s' =>
          let* (r, s1, g1) := parseDisjunction fuel' s' (S g) in
          match s1 with
          | String ")" s2 => Parsed (RGroup (S g) r, s2, g1)
          | _ => SyntaxError
          end
      | String c s' => Parsed (RChar c, s', g)
      end
  end.

(** A compiled pattern: the expression, its number of capture groups
    and the [i] flag. *)
Record RegExp : Type := mkRegExp {
  source : Regex;
  nCaptures : nat;
  ignoreCase : bool
}.

(** [new RegExp(pattern, flags)] for the flags [""] and ["i"]. *)
Definition RegExp_new (pattern : string) (i : bool) : Parse RegExp :=
  let* (r, rest, g) := parseDisjunction (4 * String.length pattern + 4) pattern 0 in
  match rest with
  | EmptyString => Parsed (mkRegExp r g i)
  | String _ _ => SyntaxError
  end.

(** ** Matching *)

(** [Canonicalize(ch)] under the [i] flag, not in unicode mode: the
    upper-case mapping of the code unit when it is a single code unit,
    except that a character of code 128 or more never folds to one below
    128.  Two characters leave the range 0..255: the micro sign folds
    to U+039C and y with diaeresis to U+0178; the sharp s upper-cases to
    two letters and stays as it is. *)
Definition Canonicalize (ignoreCase : bool) (c : ascii) : N :=
  let n := code c in
  if negb ignoreCase then n
  else if in_range 97 122 c then (n - 32)%N
  else if N.eqb n 181 then 924%N
  else if N.eqb n 255 then 376%N
  else if (in_range 224 254 c && negb (N.eqb n 247))%bool then (n - 32)%N
  else n.

Definition inClassEscape (e : ClassEscape) (c : ascii) : bool :=
  match e with
  | Digit => isDigit c
  | NotDigit => negb (isDigit c)
  | Space => isWhiteSpace c
  | NotSpace => negb (isWhiteSpace c)
  | Word => isWordChar c
  | NotWord => negb (isWordChar c)
  end.

(** The characters [lo .. lo + n]. *)
Fixpoint charsFrom (lo : nat) (n : nat) : list ascii :=
  match n with
  | 0 => [ascii_of_nat lo]
  | S n' => ascii_of_nat lo :: charsFrom (S lo) n'
  end.

(** Whether some member [a] of the item has the canonical form of [ch].
    The sets of the class escapes and of the dot are closed under
    canonicalisation in this mode, so membership decides them. *)
Definition itemMatches (ignoreCase : bool) (ch : ascii) (it : ClassItem)
  : bool :=
  match it with
  | CiChar a => N.eqb (Canonicalize ignoreCase a) (Canonicalize ignoreCase ch)
  | CiRange lo hi =>
      existsb
        (fun a => N.eqb (Canonicalize ignoreCase a)
                        (Canonicalize ignoreCase ch))
        (charsFrom (nat_of_ascii lo) (nat_of_ascii hi - nat_of_ascii lo))
  | CiEscape e => inClassEscape e ch
  | CiDot => negb (isLineTerminator ch)
  end.

(** A match state: the index reached in the input, and for each capture
    group the range of the input it last matched, if any. *)
Record MatchState : Type := mkState {
  endIndex : nat;
  captures : list (option (nat * nat))
}.

(** Result of running a matcher; [OutOfFuel] is not a result of the
    engine, see [searchFrom_fuel]. *)
Inductive MatchResult : Type :=
| OutOfFuel
| failure
| Matched (y : MatchState).

Definition Continuation : Type := MatchState -> MatchResult.
Definition Matcher : Type := MatchState -> Continuation -> MatchResult.

(** [m1] and, when it fails, [m2]. *)
Definition orElse (z : MatchResult) (alt : unit -> MatchResult)
  : MatchResult :=
  match z with
  | failure => alt tt
  | other => other
  end.

Fixpoint setNth {A} (k : nat) (v : A) (l : list A) : list A :=
  match k, l with
  | 0, _ :: l' => v :: l'
  | S k', x :: l' => x :: setNth k' v l'
  | _, [] => []
  end.

(** Group [n] (counted from 1) is stored at position [n - 1]. *)
Definition setCapture (n : nat) (r : option (nat * nat))
           (caps : list (option (nat * nat))) : list (option (nat * nat)) :=
  setNth (n - 1) r caps.

(** Forget the groups [parenIndex+1 .. parenIndex+parenCount]. *)
Fixpoint clearCaptures (parenIndex parenCount : nat)
         (caps : list (option (nat * nat))) : list (option (nat * nat)) :=
  match parenCount with
  | 0 => caps
  | S k => setCapture (parenIndex + parenCount) None
             (clearCaptures parenIndex k caps)
  end.

Section Matcher.
Variable Input : string.
Variable icase : bool.

Definition InputLength : nat := String.length Input.

(** [RepeatMatcher(m, min, max, greedy, x, c, parenIndex, parenCount)].
    Every round either lowers [min] or, by the empty check in [d],
    moves forward in the input, so [min] plus the number of characters
    left bounds the number of rounds; [fuel] counts them. *)
Fixpoint RepeatMatcher (fuel : nat) (m : Matcher) (min : nat)
         (max : option nat) (greedy : bool) (parenIndex parenCount : nat)
         (x : MatchState) (c : Continuation) : MatchResult :=
  match max with
  | Some 0 => c x
  | _ =>
      match fuel with
      | 0 => OutOfFuel
      | S fuel' =>
          let d : Continuation := fun y =>
            if ((min =? 0) && (endIndex y =? endIndex x))%bool
            then failure
            else RepeatMatcher fuel' m (pred min) (option_map pred max)
                   greedy parenIndex parenCount y c in
          let xr := mkState (endIndex x)
                      (clearCaptures parenIndex parenCount (captures x)) in
          if negb (min =? 0) then m xr d
          else if negb greedy then orElse (c x) (fun _ => m xr d)
          else orElse (m xr d) (fun _ => c x)
      end
  end.

Definition CharacterSetMatcher (invert : bool) (A : list ClassItem)
  : Matcher := fun x c =>
  match String.get (endIndex x) Input with
  | None => failure
  | Some ch =>
      let found := existsb (itemMatches icase ch) A in
      if Bool.eqb invert found then failure
      else c (mkState (S (endIndex x)) (captures x))
  end.

(** [IsWordChar(e)] for [e] one less than [k]; false before the first
    character and after the last. *)
Definition IsWordCharBefore (k : nat) : bool :=
  match k with
  | 0 => false
  | S e => match String.get e Input with
           | Some ch => isWordChar ch
           | None => false
           end
  end.

Fixpoint compile (r : Regex) : Matcher := fun x c =>
  match r with
  | REmpty => c x
  | RCharSet invert A => CharacterSetMatcher invert A x c
  | RSeq r1 r2 => compile r1 x (fun y => compile r2 y c)
  | RAlt r1 r2 => orElse (compile r1 x c) (fun _ => compile r2 x c)
  | RQuant r' min max greedy parenIndex parenCount =>
      RepeatMatcher (S (min + (InputLength - endIndex x)))
        (compile r') min max greedy parenIndex parenCount x c
  | RGroup n r' =>
      compile r' x (fun y =>
        c (mkState (endIndex y)
             (setCapture n (Some (endIndex x, endIndex y)) (captures y))))
  | RAssertStart => if endIndex x =? 0 then c x else failure
  | RAssertEnd => if endIndex x =? InputLength then c x else failure
  | RWordBoundary negated =>
      let a := IsWordCharBefore (endIndex x) in
      let b := IsWordCharBefore (S (endIndex x)) in
      if Bool.eqb negated (xorb a b) then failure else c x
  end.

(** The search loop of [RegExpBuiltinExec] for a regular expression
    that is neither global nor sticky: the first index, from
    [lastIndex] on, at which the pattern matches; [tries] is the number
    of indices left to try. *)
Fixpoint searchFrom (re : RegExp) (tries : nat) (lastIndex : nat)
  : MatchResult * nat :=
  match tries with
  | 0 => (failure, lastIndex)
  | S tries' =>
      match compile (source re)
              (mkState lastIndex (repeat None (nCaptures re)))
              Matched with
      | failure => searchFrom re tries' (S lastIndex)
      | other => (other, lastIndex)
      end
  end.
End Matcher.

(** The array returned by [match]: element 0 is the matched text, element
    [n] the text of group [n] or [undefined]. *)
Definition MatchArray : Type := list (option string).

Definition captureText (Input : string) (r : option (nat * nat))
  : option string :=
  match r with
  | Some (a, b) => Some (substring a b Input)
  | None => None
  end.

(** [Input.match(re)]: [null] or the match array.  The search never
    runs out of fuel ([searchFrom_fuel] below), so the first branch is
    never taken. *)
Definition String_match (re : RegExp) (Input : string) : option MatchArray :=
  match searchFrom Input (ignoreCase re) re (S (String.length Input)) 0 with
  | (OutOfFuel, _) => None
  | (failure, _) => None
  | (Matched y, lastIndex) =>
      Some (Some (substring lastIndex (endIndex y) Input)
            :: map (captureText Input) (captures y))
  end.

(** ** Two static analyses of an expression, used to reason about the
    capture groups of a match *)

(** No quantifier of [r] resets group [k]. *)
Fixpoint keeps (k : nat) (r : Regex) : bool :=
  match r with
  | RSeq r1 r2 | RAlt r1 r2 => keeps k r1 && keeps k r2
  | RQuant r' _ _ _ parenIndex parenCount =>
      negb ((parenIndex <? k) && (k <=? parenIndex + parenCount))
      && keeps k r'
  | RGroup _ r' => keeps k r'
  | _ => true
  end.

(** Group [k] lies on every path through [r], outside any quantifier, and
    nothing after it resets it. *)
Fixpoint defines (k : nat) (r : Regex) : bool :=
  match r with
  | RSeq r1 r2 => (defines k r1 && keeps k r2) || defines k r2
  | RAlt r1 r2 => defines k r1 && defines k r2
  | RGroup n r' => (n =? k) || defines k r'
  | _ => false
  end.

(** Group [k] has matched in state [x]. *)
Definition defined (k : nat) (x : MatchState) : Prop :=
  exists v, nth_error (captures x) (k - 1) = Some (Some v).

(** What a matcher guarantees about the state [y] it hands to its
    continuation when started in [x]: as many groups, and group [k] still
    defined when [P] holds. *)
Definition Post (k : nat) (P : Prop) (x y : MatchState) : Prop :=
  length (captures y) = length (captures x)
  /\ (P -> defined k x -> defined k y).

(** The states a matcher started in [x] can reach: it only moves forward
    and stays inside the input. *)
Definition within (Input : string) (x y : MatchState) : Prop :=
  endIndex x <= endIndex y <= Nat.max (InputLength Input) (endIndex x).

(** [c] has fuel enough on every state reachable from [x]. *)
Definition terminates (Input : string) (x : MatchState) (c : Continuation)
  : Prop :=
  forall y, within Input x y -> c y <> OutOfFuel.

(** ** What a pattern matches, without the order of the search

    [Matches r x y]: the expression [r] can take the state [x] to the
    state [y].  This is the matcher of [compile] with the choices left
    open: an alternation may take either side and a quantifier may stop or
    go round again wherever the matcher is allowed to. *)
Section Semantics.
Variable Input : string.
Variable icase : bool.

Inductive Matches : Regex -> MatchState -> MatchState -> Prop :=
| MatchesEmpty x : Matches REmpty x x
| MatchesCharSet invert A x ch :
    String.get (endIndex x) Input = Some ch ->
    Bool.eqb invert (existsb (itemMatches icase ch) A) = false ->
    Matches (RCharSet invert A) x (mkState (S (endIndex x)) (captures x))
| MatchesSeq r1 r2 x y z :
    Matches r1 x y -> Matches r2 y z -> Matches (RSeq r1 r2) x z
| MatchesAltL r1 r2 x y : Matches r1 x y -> Matches (RAlt r1 r2) x y
| MatchesAltR r1 r2 x y : Matches r2 x y -> Matches (RAlt r1 r2) x y
| MatchesQuantStop r min max greedy parenIndex parenCount x :
    min = 0 \/ max = Some 0 ->
    Matches (RQuant r min max greedy parenIndex parenCount) x x
| MatchesQuantStep r min max greedy parenIndex parenCount x y z :
    max <> Some 0 ->
    Matches r (mkState (endIndex x)
                 (clearCaptures parenIndex parenCount (captures x))) y ->
    (min = 0 -> endIndex y <> endIndex x) ->
    Matches (RQuant r (pred min) (option_map pred max) greedy
               parenIndex parenCount) y z ->
    Matches (RQuant r min max greedy parenIndex parenCount) x z
| MatchesGroup n r x y :
    Matches r x y ->
    Matches (RGroup n r) x
      (mkState (endIndex y)
         (setCapture n (Some (endIndex x, endIndex y)) (captures y)))
| MatchesAssertStart x : endIndex x = 0 -> Matches RAssertStart x x
| MatchesAssertEnd x :
    endIndex x = InputLength Input -> Matches RAssertEnd x x
| MatchesWordBoundary negated x :
    Bool.eqb negated
      (xorb (IsWordCharBefore Input (endIndex x))
            (IsWordCharBefore Input (S (endIndex x)))) = false ->
    Matches (RWordBoundary negated) x x.

End Semantics.

(** ** The search order of the simple forms

    Vocabulary for what the matcher does on a literal text and on a
    quantified character set. *)

(** The character set [(invert, A)] admits [ch]. *)
Definition admits (icase invert : bool) (A : list ClassItem) (ch : ascii)
  : bool :=
  negb (Bool.eqb invert (existsb (itemMatches icase ch) A)).

(** The expression for the characters of [s] one after the other, then
    [r]. *)
Fixpoint literal (s : string) (r : Regex) : Regex :=
  match s with
  | EmptyString => r
  | String c rest => RSeq (RChar c) (literal rest r)
  end.

(** [needle] is at index [i] of [text], up to the case when [icase]. *)
Fixpoint occursAt (icase : bool) (needle text : string) (i : nat) : bool :=
  match needle with
  | EmptyString => true
  | String c rest =>
      match String.get i text with
      | Some ch =>
          N.eqb (Canonicalize icase c) (Canonicalize icase ch)
          && occursAt icase rest text (S i)
      | None => false
      end
  end.

(** Length of the longest prefix of [s] whose characters satisfy [P], and
    the same from index [i] of [text]. *)
Fixpoint span (P : ascii -> bool) (s : string) : nat :=
  match s with
  | String c rest => if P c then S (span P rest) else 0
  | EmptyString => 0
  end.

Definition spanAt (P : ascii -> bool) (text : string) (i : nat) : nat :=
  span P (drop i text).

(** Try the continuation at the indices [i + n], ..., [i + 1], [i], in
    this order (a greedy quantifier), or at [i], [i + 1], ..., [i + n] (a
    lazy one), and keep the first result that is not a failure. *)
Fixpoint tryDown (c : Continuation) (caps : list (option (nat * nat)))
         (i n : nat) : MatchResult :=
  match n with
  | 0 => c (mkState i caps)
  | S n' => orElse (tryDown c caps (S i) n') (fun _ => c (mkState i caps))
  end.

Fixpoint tryUp (c : Continuation) (caps : list (option (nat * nat)))
         (i n : nat) : MatchResult :=
  match n with
  | 0 => c (mkState i caps)
  | S n' => orElse (c (mkState i caps)) (fun _ => tryUp c caps (S i) n')
  end.

(** The syntax characters of the pattern grammar. *)
Definition isSyntaxCharacter (c : ascii) : bool :=
  match c with
  | "^" | "$" | "\" | "." | "*" | "+" | "?" | "(" | ")" | "[" | "]"
  | "{" | "}" | "|" => true
  | _ => false
  end%char.

(** A text without syntax characters. *)
Fixpoint isPlain (s : string) : bool :=
  match s with
  | EmptyString => true
  | String c rest => negb (isSyntaxCharacter c) && isPlain rest
  end.

End JsRegExp.

(* ================================================================== *)
(** * The server *)
(* ================================================================== *)

Module Server.
Import JsString JsNumber JsRegExp.

(** ** Exceptions, events and the outside world *)

(** A thrown value; the server only ever reads its [message]. *)
Record exn : Type := Exn { message : string }.

Inductive Outcome (A : Type) : Type :=
| Ok (a : A)
| Throw (e : exn).
Arguments Throw {A}.

Record GroqMessage : Type := mkMessage { role : string; content : string }.

Record GroqRequest : Type := mkGroqRequest {
  model : string;
  messages : list GroqMessage;
  max_tokens : nat
}.

(** What the process does that can be observed from outside. *)
Inductive Event : Type :=
| HttpGet (url : string)
| HttpPost (url : string) (payload : GroqRequest)
           (headers : list (string * string))
| ConsoleError (label text : string).

Definition Trace : Type := list Event.

(** The [snippet] of an item of the video-platform reply, with the
    fields the server reads ([thumbnail] is [thumbnails.default.url]). *)
Record VideoData : Type := mkVideoData {
  title : string;
  description : string;
  channelTitle : string;
  publishedAt : string;
  thumbnail : string
}.

(** The environment and the remote services.  A service sees the events
    so far, so two calls with the same arguments may be answered
    differently.  Replies are given at the types the server uses them
    at: [items] of the video reply (absent or a list of snippets), the
    [transcript] field of the transcript reply (absent or a string), the
    [message.content] of each choice of the completion reply.
    [engineMatch] stands for [text.match(new RegExp(pattern, "i"))] on
    the patterns that [JsRegExp] leaves out, and the two messages are
    the texts of the engine's own errors. *)
Record World : Type := mkWorld {
  env : string -> option string;
  videosApi : Trace -> string -> Outcome (option (list VideoData));
  transcriptApi : Trace -> string -> Outcome (option string);
  completionApi : Trace -> string -> GroqRequest -> list (string * string)
                  -> Outcome (list string);
  engineMatch : string -> string -> Outcome (option MatchArray);
  syntaxErrorMessage : string -> string;
  typeErrorMessage : string
}.

(** Computations: they extend the trace and return or throw. *)
Definition M (A : Type) : Type := Trace -> Outcome A * Trace.

Definition ret {A} (a : A) : M A := fun tr => (Ok a, tr).
Definition throw {A} (e : exn) : M A := fun tr => (Throw e, tr).

Definition bind {A B} (m : M A) (k : A -> M B) : M B := fun tr =>
  match m tr with
  | (Ok a, tr1) => k a tr1
  | (Throw e, tr1) => (Throw e, tr1)
  end.

(** [try { m } catch (err) { handler err }] *)
Definition tryCatch {A} (m : M A) (handler : exn -> M A) : M A := fun tr =>
  match m tr with
  | (Ok a, tr1) => (Ok a, tr1)
  | (Throw e, tr1) => handler e tr1
  end.

Definition lift {A} (o : Outcome A) : M A := fun tr => (o, tr).

(** A call to a remote service: record the event, then take the reply
    the world gives after the events so far. *)
Definition perform {A} (ev : Event) (reply : Trace -> Outcome A) : M A :=
  fun tr => (reply tr, (tr ++ [ev])%list).

Definition console_error (label text : string) : M unit :=
  fun tr => (Ok tt, (tr ++ [ConsoleError label text])%list).

Notation "x <- m ;; k" := (bind m (fun x => k))
  (at level 61, m at next level, right associativity).
Notation "m ;;; k" := (bind m (fun _ => k))
  (at level 61, right associativity).

Definition obind {A B} (o : Outcome A) (k : A -> Outcome B) : Outcome B :=
  match o with
  | Ok a => k a
  | Throw e => Throw e
  end.

(** [xs.map(f)] for a callback that may throw: the first exception
    ends the loop. *)
Fixpoint mapOutcome {A B} (f : A -> Outcome B) (xs : list A)
  : Outcome (list B) :=
  match xs with
  | [] => Ok []
  | x :: rest =>
      obind (f x) (fun y =>
      obind (mapOutcome f rest) (fun ys => Ok (y :: ys)))
  end.

Definition nl : string := String (ascii_of_nat 10) EmptyString.
Definition dquote : string := String (ascii_of_nat 34) EmptyString.

(** Decimal text of a length, as a template literal prints it. *)
Definition showNat (n : nat) : string :=
  NilZero.string_of_uint (Nat.to_uint n).

(** ** Configuration (lines 14-20)

    The completion key is read from the variable [GORQ_API_KEY], as the
    source spells it. *)

Definition GROQ_API_KEY (w : World) : option string := env w "GORQ_API_KEY".
Definition GROQ_API_URL : string :=
  "https://api.groq.com/openai/v1/chat/completions".
Definition GROQ_MODEL : string := "meta-llama/llama-4-scout-17b-16e-instruct".
Definition YOUTUBE_API_KEY (w : World) : option string :=
  env w "YOUTUBE_API_KEY".

(** ** [extractVideoId] (lines 23-27) *)

(** The text of the regular expression literal. *)
Definition videoIdPattern : string :=
  "^.*((youtu.be\/)|(v\/)|(\/u\/\w\/)|(embed\/)|(watch\?))\??v?=?([^#&?]*).*".

(** The literal compiled ([regExp_literal] below relates the two). *)
Definition regExp : RegExp :=
  Eval vm_compute in
    match RegExp_new videoIdPattern false with
    | Parsed re => re
    | _ => mkRegExp REmpty 0 false
    end.

(** [match[7].length] throws a TypeError when group 7 is undefined. *)
Definition extractVideoId (w : World) (url : string)
  : Outcome (option string) :=
  match String_match regExp url with
  | None => Ok None
  | Some m =>
      match nth 7 m None with
      | Some token =>
          Ok (if String.length token =? 11 then Some token else None)
      | None => Throw (Exn (typeErrorMessage w))
      end
  end.

(** ** [getYouTubeVideoData] (lines 30-45) *)

Definition getYouTubeVideoData (w : World) (videoId : string) : M VideoData :=
  items <- perform
    (HttpGet ("https://www.googleapis.com/youtube/v3/videos?part=snippet&id="
              ++ videoId ++ "&key=" ++ interpolate (YOUTUBE_API_KEY w)))
    (fun tr => videosApi w tr
       ("https://www.googleapis.com/youtube/v3/videos?part=snippet&id="
        ++ videoId ++ "&key=" ++ interpolate (YOUTUBE_API_KEY w))) ;;
  match items with
  | None | Some [] => throw (Exn "Video not found")
  | Some (snippet :: _) => ret snippet
  end.

(** ** [getTranscript] (lines 48-57) *)

Definition getTranscript (w : World) (videoId : string) : M string :=
  tryCatch
    (transcript <- perform
       (HttpGet ("https://youtube-transcriptor.vercel.app/transcript?videoId="
                 ++ videoId))
       (fun tr => transcriptApi w tr
          ("https://youtube-transcriptor.vercel.app/transcript?videoId="
           ++ videoId)) ;;
     match transcript with
     | Some (String _ _ as text) => ret text
     | _ => throw (Exn "Transcript not available")
     end)
    (fun _ =>
       videoData <- getYouTubeVideoData w videoId ;;
       ret (match description videoData with
            | EmptyString => "No transcript available."
            | text => text
            end)).

(** ** [callGroq] (lines 60-67) *)

(** The headers of line 64. *)
Definition groqHeaders (w : World) : list (string * string) :=
  [("Authorization", "Bearer " ++ interpolate (GROQ_API_KEY w));
   ("Content-Type", "application/json")].

Definition callGroq (w : World) (messages : list GroqMessage)
           (max_tokens : nat) : M string :=
  choices <- perform
    (HttpPost GROQ_API_URL (mkGroqRequest GROQ_MODEL messages max_tokens)
       (groqHeaders w))
    (fun tr => completionApi w tr GROQ_API_URL
       (mkGroqRequest GROQ_MODEL messages max_tokens) (groqHeaders w)) ;;
  match choices with
  | [] => throw (Exn (typeErrorMessage w))
  | first :: _ => ret (trim first)
  end.

(** ** [analyzeCoverage] (lines 70-128) *)

Record SubtopicResult : Type := mkResult {
  subtopic : string;
  coverageScore : number;
  covered : bool;
  evidence : string
}.

Record CoverageReport : Type := mkReport {
  overallScore : number;
  subtopicAnalysis : list SubtopicResult;
  summary : string
}.

(** Lines 72-74. *)
Definition truncatedTranscript (transcript : string) : string :=
  if 4000 <? String.length transcript
  then substring 0 4000 transcript ++ "... [truncated]"
  else transcript.

(** Lines 76-85. *)
Definition prompt (transcript : string) (subtopics : list string) : string :=
  "You are an educational analyst. " ++ nl ++
  "For each subtopic listed below, provide a coverage percentage (0-100) and a short explanation based on the transcript. " ++ nl ++
  "Format each subtopic like this:" ++ nl ++
  "Subtopic: <name>" ++ nl ++
  "Score: <0-100>" ++ nl ++
  "Evidence: <brief explanation>" ++ nl ++
  nl ++
  "Transcript: " ++ dquote ++ truncatedTranscript transcript ++ dquote ++ nl ++
  nl ++
  "Subtopics: " ++ join ", " subtopics.

(** Lines 87-90. *)
Definition coverageMessages (transcript : string) (subtopics : list string)
  : list GroqMessage :=
  [mkMessage "system" "You are an educational content analyst.";
   mkMessage "user" (prompt transcript subtopics)].

(** [responseText.match(new RegExp(pattern, 'i'))] *)
Definition matchPattern (w : World) (pattern responseText : string)
  : Outcome (option MatchArray) :=
  match RegExp_new pattern true with
  | Parsed re => Ok (String_match re responseText)
  | SyntaxError => Throw (Exn (syntaxErrorMessage w pattern))
  | Unmodelled => engineMatch w pattern responseText
  end.

(** The callback of the [map] of lines 95-104. *)
Definition parseSubtopic (w : World) (responseText sub : string)
  : Outcome SubtopicResult :=
  obind (matchPattern w (sub ++ "[\s\S]*?Score:\s*(\d+)") responseText)
    (fun m =>
       Ok (mkResult sub
             (match m with
              | Some a => parseInt (nth 1 a None)
              | None => ofZ 0
              end)
             (match m with
              | Some a => ge (parseInt (nth 1 a None)) (ofZ 50)
              | None => false
              end)
             (match m with
              | Some _ => "Evidence found in transcript."
              | None => "No evidence found."
              end))).

(** Lines 106-108. *)
Definition computeOverallScore (subtopicAnalysis : list SubtopicResult)
  : number :=
  Math_round
    (div (fold_left (fun sum s => add sum (coverageScore s))
            subtopicAnalysis (ofZ 0))
         (ofNat (length subtopicAnalysis))).

(** The report of the [catch] block, lines 117-126. *)
Definition failureReport (subtopics : list string) : CoverageReport :=
  mkReport (ofZ 0)
    (map (fun sub => mkResult sub (ofZ 0) false "Failed to analyze coverage.")
         subtopics)
    "Failed to generate coverage analysis.".

Definition analyzeCoverage (w : World) (transcript : string)
           (subtopics : list string) (topic : string) : M CoverageReport :=
  tryCatch
    (responseText <- callGroq w (coverageMessages transcript subtopics) 2000 ;;
     subtopicAnalysis <-
       lift (mapOutcome (parseSubtopic w responseText) subtopics) ;;
     ret (mkReport (computeOverallScore subtopicAnalysis)
            subtopicAnalysis
            ("Overall coverage based on " ++ showNat (length subtopics)
             ++ " subtopics.")))
    (fun err =>
       console_error "Coverage analysis error:" (message err) ;;;
       ret (failureReport subtopics)).

(** ** The routes (lines 131-176) *)

(** Values handed to [res.json]. *)
#[local] Set Warnings "-register-all".
Inductive json : Type :=
| JNull
| JBool (b : bool)
| JNumber (n : number)
| JString (s : string)
| JArray (items : list json)
| JObject (fields : list (string * json)).

Record Response : Type := mkResponse { status : nat; body : json }.

(** The body of a POST /api/analyze request as a client writes it:
    strings and a list of strings, each field possibly absent.
    [analyzeRoute] is the handler on these bodies; [handleAnalyze], at
    the end of this module, is the handler on every body. *)
Record AnalyzeRequest : Type := mkRequest {
  youtubeUrl : option string;
  topic : option string;
  customSubtopics : option (list string)
}.

Definition resultJson (s : SubtopicResult) : json :=
  JObject [("subtopic", JString (subtopic s));
           ("coverageScore", JNumber (coverageScore s));
           ("covered", JBool (covered s));
           ("evidence", JString (evidence s))].

Definition reportJson (r : CoverageReport) : json :=
  JObject [("overallScore", JNumber (overallScore r));
           ("subtopicAnalysis", JArray (map resultJson (subtopicAnalysis r)));
           ("summary", JString (summary r))].

(** The test of line 135. *)
Definition missingInput (req : AnalyzeRequest) : bool :=
  (negb (truthy (youtubeUrl req))
   || negb (truthy (topic req))
   || match customSubtopics req with
      | None => true
      | Some subs => length subs =? 0
      end)%bool.

Definition badRequest (text : string) : Response :=
  mkResponse 400 (JObject [("error", JString text)]).

(** Lines 139-160, once the three fields are known to be there. *)
Definition analyzeVideo (w : World) (youtubeUrl topic : string)
           (customSubtopics : list string) : M Response :=
  videoId <- lift (extractVideoId w youtubeUrl) ;;
  match videoId with
  | None => ret (badRequest "Invalid YouTube URL.")
  | Some videoId =>
      videoData <- getYouTubeVideoData w videoId ;;
      transcript <- getTranscript w videoId ;;
      analysis <- analyzeCoverage w transcript customSubtopics topic ;;
      ret (mkResponse 200
             (JObject
                [("success", JBool true);
                 ("videoInfo",
                  JObject
                    [("videoId", JString videoId);
                     ("title", JString (title videoData));
                     ("channelTitle", JString (channelTitle videoData));
                     ("publishedAt", JString (publishedAt videoData));
                     ("thumbnail", JString (thumbnail videoData));
                     ("youtubeUrl",
                      JString ("https://www.youtube.com/watch?v="
                               ++ videoId))]);
                 ("transcript",
                  JString (substring 0 500 transcript
                           ++ (if 500 <? String.length transcript
                               then "..." else "")));
                 ("subtopics", JArray (map JString customSubtopics));
                 ("analysis", reportJson analysis)]))
  end.

(** POST /api/analyze.  The last branch of the [match] is excluded by
    the test before it. *)
Definition analyzeRoute (w : World) (req : AnalyzeRequest) : M Response :=
  tryCatch
    (if missingInput req
     then ret (badRequest
                 "YouTube URL, topic, and at least one subtopic are required.")
     else
       match youtubeUrl req, topic req, customSubtopics req with
       | Some url, Some tp, Some subs => analyzeVideo w url tp subs
       | _, _, _ =>
           ret (badRequest
                  "YouTube URL, topic, and at least one subtopic are required.")
       end)
    (fun err =>
       console_error "Analysis error:" (message err) ;;;
       ret (mkResponse 500
              (JObject
                 [("error", JString (message err));
                  ("details",
                   JString "Please check API keys and try again.")]))).

(** GET /api/health; [!!key] is the truthiness of the key. *)
Definition healthRoute (w : World) : Response :=
  mkResponse 200
    (JObject [("status", JString "OK");
              ("message", JString "Server running");
              ("hasGroqKey", JBool (truthy (GROQ_API_KEY w)));
              ("hasYouTubeKey", JBool (truthy (YOUTUBE_API_KEY w)))]).

(** ** Scripted worlds, for the examples *)

(** A world with the given keys in which the completion service always
    answers [completion], the video service knows one video and the
    transcript service has its transcript. *)
Definition scriptedWorld (groqKey youtubeKey : option string)
           (completion : Outcome (list string)) : World :=
  mkWorld
    (fun name =>
       if String.eqb name "GORQ_API_KEY" then groqKey
       else if String.eqb name "YOUTUBE_API_KEY" then youtubeKey
       else None)
    (fun _ _ =>
       Ok (Some [mkVideoData "Sorting algorithms" "A lecture on sorting."
                   "Lectures" "2024-01-01T00:00:00Z"
                   "https://i.ytimg.com/vi/default.jpg"]))
    (fun _ _ => Ok (Some "Today we look at quicksort and merge sort."))
    (fun _ _ _ _ => completion)
    (fun _ _ => Ok None)
    (fun pattern => "Invalid regular expression: /" ++ pattern ++ "/i")
    "Cannot read properties of undefined".

(** The same world with both keys set. *)
Definition replyWorld (completion : Outcome (list string)) : World :=
  scriptedWorld (Some "gsk-live") (Some "yt-live") completion.

(** A string of [n] copies of [c]. *)
Fixpoint replicate (n : nat) (c : ascii) : string :=
  match n with
  | 0 => EmptyString
  | S n' => String c (replicate n' c)
  end.

(** Results carrying the given integer scores, for the numeric
    examples. *)
Definition scored (zs : list Z) : list SubtopicResult :=
  map (fun z => mkResult "subtopic" (ofZ z) (ge (ofZ z) (ofZ 50))
                  "Evidence found in transcript.") zs.

Definition sumZ (zs : list Z) : Z := fold_right Z.add 0%Z zs.

(** ** Start-up (lines 9 and 179-183) *)

(** [process.env.PORT || 5000], as the template literal prints it. *)
Definition PORT (w : World) : string :=
  match env w "PORT" with
  | Some (String _ _ as port) => port
  | _ => "5000"
  end.

Definition showBool (b : bool) : string := if b then "true" else "false".

(** The three lines that the callback of [app.listen] writes with
    [console.log]. *)
Definition startupLog (w : World) : list string :=
  ["Server running on port " ++ PORT w;
   "Groq key configured: " ++ showBool (truthy (GROQ_API_KEY w));
   "YouTube API key configured: " ++ showBool (truthy (YOUTUBE_API_KEY w))].

(** ** Vocabulary for the statements about traces and strings *)



(** The address asked of the video service for an identifier. *)
Definition videosUrl (w : World) (videoId : string) : string :=
  "https://www.googleapis.com/youtube/v3/videos?part=snippet&id="
  ++ videoId ++ "&key=" ++ interpolate (YOUTUBE_API_KEY w).

(** The address asked of the transcript service. *)
Definition transcriptUrl (videoId : string) : string :=
  "https://youtube-transcriptor.vercel.app/transcript?videoId=" ++ videoId.

(** The first and the last character of a string, if any. *)
Definition firstChar (s : string) : option ascii :=
  match s with
  | String c _ => Some c
  | EmptyString => None
  end.

Fixpoint lastChar (s : string) : option ascii :=
  match s with
  | EmptyString => None
  | String c EmptyString => Some c
  | String _ rest => lastChar rest
  end.

(** Every character of [s] satisfies [P]. *)
Fixpoint allChars (P : ascii -> bool) (s : string) : bool :=
  match s with
  | EmptyString => true
  | String c rest => P c && allChars P rest
  end.

(** The transcript as the reply 200 shows it (line 157). *)
Definition transcriptPreview (transcript : string) : string :=
  substring 0 500 transcript
  ++ (if 500 <? String.length transcript then "..." else "").

(** The body of the reply 200 (lines 147-160). *)
Definition successBody (videoId : string) (videoData : VideoData)
           (transcript : string) (customSubtopics : list string)
           (analysis : CoverageReport) : json :=
  JObject
    [("success", JBool true);
     ("videoInfo",
      JObject
        [("videoId", JString videoId);
         ("title", JString (title videoData));
         ("channelTitle", JString (channelTitle videoData));
         ("publishedAt", JString (publishedAt videoData));
         ("thumbnail", JString (thumbnail videoData));
         ("youtubeUrl",
          JString ("https://www.youtube.com/watch?v=" ++ videoId))]);
     ("transcript", JString (transcriptPreview transcript));
     ("subtopics", JArray (map JString customSubtopics));
     ("analysis", reportJson analysis)].

(** The body of the reply 500 (line 164). *)
Definition errorBody (text : string) : json :=
  JObject [("error", JString text);
           ("details", JString "Please check API keys and try again.")].

(** ** The parse of a subtopic, read without regular expressions *)

(** The text that line 96 puts after the label. *)
Definition scorePattern : string := "[\s\S]*?Score:\s*(\d+)".

(** What [scorePattern] parses to, after an expression for the label. *)
Definition scoreRegex : Regex :=
  RSeq (RQuant (RCharSet false [CiEscape Space; CiEscape NotSpace])
          0 None false 0 0)
    (literal "Score:"
       (RSeq (RQuant (RCharSet false [CiEscape Space]) 0 None true 0 0)
          (RSeq (RGroup 1
                   (RSeq (RQuant (RCharSet false [CiEscape Digit])
                            1 None true 1 0)
                      REmpty))
             REmpty))).

(** A score stands at index [j] of [text]: the token Score: (in any case),
    then white space, then a digit.  The result is the range of the whole
    run of digits. *)
Definition scoreAt (text : string) (j : nat) : option (nat * nat) :=
  if occursAt true "Score:" text j then
    let a := j + 6 + spanAt isWhiteSpace text (j + 6) in
    match String.get a text with
    | Some ch =>
        if isDigit ch then Some (a, S a + spanAt isDigit text (S a)) else None
    | None => None
    end
  else None.

(** The first score at one of the indices [j], ..., [j + n]. *)
Fixpoint firstScore (text : string) (j n : nat) : option (nat * nat) :=
  match scoreAt text j with
  | Some range => Some range
  | None =>
      match n with
      | 0 => None
      | S n' => firstScore text (S j) n'
      end
  end.

(** The first score after the first place, among the indices [i], ...,
    [i + tries - 1], where [label] stands (in any case) with a score
    somewhere after it. *)
Fixpoint findLabelScore (label text : string) (i tries : nat)
  : option (nat * nat) :=
  match tries with
  | 0 => None
  | S tries' =>
      match
        (if occursAt true label text i
         then firstScore text (i + String.length label)
                (String.length text - (i + String.length label))
         else None)
      with
      | Some range => Some range
      | None => findLabelScore label text (S i) tries'
      end
  end.

(** The digits of the score of [label] in [text], if there is one. *)
Definition labelScore (label text : string) : option string :=
  match findLabelScore label text 0 (S (String.length text)) with
  | Some (a, b) => Some (substring a b text)
  | None => None
  end.

(** The entry for a label whose score has the digits [digits], or has no
    score. *)
Definition entryFor (label : string) (digits : option string)
  : SubtopicResult :=
  match digits with
  | Some d =>
      mkResult label (parseInt (Some d)) (ge (parseInt (Some d)) (ofZ 50))
        "Evidence found in transcript."
  | None => mkResult label (ofZ 0) false "No evidence found."
  end.


(** The number that a text of decimal digits writes, after the value
    [acc] of the digits before it. *)
Fixpoint decimal (acc : Z) (s : string) : Z :=
  match s with
  | EmptyString => acc
  | String c rest => decimal (10 * acc + (Z.of_N (code c) - 48)) rest
  end.

(** The first character of [s], if any, satisfies [P]. *)
Definition startsWith (P : ascii -> bool) (s : string) : bool :=
  match s with
  | String c _ => P c
  | EmptyString => false
  end.

(** ** [extractVideoId], read without regular expressions *)

(** The character at index [i] of [text] is there and satisfies [P]. *)
Definition holdsAt (P : ascii -> bool) (text : string) (i : nat) : bool :=
  match String.get i text with
  | Some ch => P ch
  | None => false
  end.

(** The index after the character [c] when it stands at index [i], and
    [i] otherwise. *)
Definition skipChar (c : ascii) (text : string) (i : nat) : nat :=
  if holdsAt (Ascii.eqb c) text i then S i else i.

Definition notLineTerminator (ch : ascii) : bool :=
  negb (isLineTerminator ch).

(** The characters that end the identifier. *)
Definition isDelimiter (ch : ascii) : bool :=
  match ch with
  | "#" | "&" | "?" => true
  | _ => false
  end%char.

Definition notDelimiter (ch : ascii) : bool := negb (isDelimiter ch).

(** The five alternatives of group 1, and what follows the group. *)
Definition markers : Regex :=
  RAlt (RSeq (RGroup 2
                (literal "youtu"
                   (RSeq (RCharSet false [CiDot]) (literal "be/" REmpty))))
          REmpty)
    (RAlt (RSeq (RGroup 3 (literal "v/" REmpty)) REmpty)
       (RAlt (RSeq (RGroup 4
                      (literal "/u/"
                         (RSeq (RCharSet false [CiEscape Word])
                            (literal "/" REmpty))))
                REmpty)
          (RAlt (RSeq (RGroup 5 (literal "embed/" REmpty)) REmpty)
             (RSeq (RGroup 6 (literal "watch?" REmpty)) REmpty)))).

Definition tokenPart : Regex :=
  RSeq (RGroup 7
          (RSeq (RQuant (RCharSet true [CiChar "#"; CiChar "&"; CiChar "?"])
                   0 None true 7 0)
             REmpty))
    (RSeq (RQuant (RCharSet false [CiDot]) 0 None true 7 0) REmpty).

Definition afterMarker : Regex :=
  RSeq (RQuant (RChar "?") 0 (Some 1) true 6 0)
    (RSeq (RQuant (RChar "v") 0 (Some 1) true 6 0)
       (RSeq (RQuant (RChar "=") 0 (Some 1) true 6 0) tokenPart)).

(** The end of the marker that stands at index [p] of [url], if one does:
    youtu, any character but a line terminator, be/; or v/; or /u/, a word
    character, /; or embed/; or watch?. *)
Definition markerAt (url : string) (p : nat) : option nat :=
  if occursAt false "youtu" url p
     && holdsAt notLineTerminator url (p + 5)
     && occursAt false "be/" url (p + 6)
  then Some (p + 9)
  else if occursAt false "v/" url p then Some (p + 2)
  else if occursAt false "/u/" url p
          && holdsAt isWordChar url (p + 3)
          && occursAt false "/" url (p + 4)
  then Some (p + 5)
  else if occursAt false "embed/" url p then Some (p + 6)
  else if occursAt false "watch?" url p then Some (p + 6)
  else None.

(** The end of the marker at the last of the indices [i], ..., [i + n]
    where a marker stands. *)
Fixpoint lastMarker (url : string) (i n : nat) : option nat :=
  match n with
  | 0 => markerAt url i
  | S n' =>
      match lastMarker url (S i) n' with
      | Some q => Some q
      | None => markerAt url i
      end
  end.

(** Where the identifier starts after a marker that ends at [q]: after
    one [?], one [v] and one [=], each only if it is there. *)
Definition tokenStart (url : string) (q : nat) : nat :=
  skipChar "=" url (skipChar "v" url (skipChar "?" url q)).

(** The characters from there up to the first [#], [&] or [?]. *)
Definition tokenEnd (url : string) (q : nat) : nat :=
  tokenStart url q + spanAt notDelimiter url (tokenStart url q).

Definition tokenAfter (url : string) (q : nat) : string :=
  substring (tokenStart url q) (tokenEnd url q) url.

(** The end of the match: the end of the line of the token. *)
Definition matchEnd (url : string) (q : nat) : nat :=
  tokenEnd url q + spanAt notLineTerminator url (tokenEnd url q).

(** The identifier of [url]: the token after the last marker of its first
    line, when it has 11 characters. *)
Definition videoIdOf (url : string) : option string :=
  match lastMarker url 0 (spanAt notLineTerminator url 0) with
  | Some q =>
      if String.length (tokenAfter url q) =? 11
      then Some (tokenAfter url q)
      else None
  | None => None
  end.

(** The characters of the identifiers of videos: letters, digits, [_]
    and [-]. *)
Definition isIdChar (ch : ascii) : bool :=
  isWordChar ch || Ascii.eqb ch "-".

(** No character of [s] is [c]. *)
Definition noneIs (c : ascii) (s : string) : bool :=
  allChars (fun ch => negb (Ascii.eqb c ch)) s.

(** The world [w] with the environment [e] in the place of its own. *)
Definition withEnv (w : World) (e : string -> option string) : World :=
  mkWorld e (videosApi w) (transcriptApi w) (completionApi w)
    (engineMatch w) (syntaxErrorMessage w) (typeErrorMessage w).

(** ** The handler on every request body (lines 131-166) *)

(** [AnalyzeRequest] is the body that the clients of the server send.
    The handler itself receives whatever [express.json()] left in
    [req.body]: any JSON value, or [undefined] when no body was read
    ([None] here). *)

(** What the engine contributes on such a body: the text of the
    TypeError of a destructuring of [undefined] or [null], the text of
    the TypeError of a call of something that is not a function (given
    the callee as the source writes it), and [analyzeCoverage] on an
    array whose elements are not all strings (their conversion to
    strings is left out of this development). *)
Record Engine : Type := mkEngine {
  destructureMessage : option json -> string;
  notFunctionMessage : string -> string;
  coverageOfValues : string -> list json -> M json
}.

(** [!!v], for [v] a JSON value or [undefined]. *)
Definition truthyJson (v : option json) : bool :=
  match v with
  | None | Some JNull => false
  | Some (JBool b) => b
  | Some (JNumber NaN) => false
  | Some (JNumber (Fin q)) => negb (Qnum q =? 0)%Z
  | Some (JNumber _) => true
  | Some (JString s) => truthy (Some s)
  | Some (JArray _) | Some (JObject _) => true
  end.

(** The member [name] of an object read by [JSON.parse]: of two members
    with the same name the later one stays. *)
Fixpoint member (name : string) (fields : list (string * json))
  : option json :=
  match fields with
  | [] => None
  | (key, v) :: rest =>
      match member name rest with
      | Some later => Some later
      | None => if String.eqb key name then Some v else None
      end
  end.

(** [v.name] for the three names of line 133: a boolean, a number, a
    string and an array have no such property. *)
Definition property (name : string) (v : json) : option json :=
  match v with
  | JObject fields => member name fields
  | _ => None
  end.

(** [v.length === 0], for a truthy [v]: the length of an array or of a
    string, the member [length] of an object, [undefined] otherwise. *)
Definition lengthIsZero (v : option json) : bool :=
  match v with
  | Some (JArray items) => length items =? 0
  | Some (JString s) => String.length s =? 0
  | Some (JObject fields) =>
      match member "length" fields with
      | Some (JNumber (Fin q)) => (Qnum q =? 0)%Z
      | _ => false
      end
  | _ => false
  end.

(** The test of line 135; [||] stops at the first operand that is true,
    so [length] is read of a truthy value only. *)
Definition missingField (youtubeUrl topic customSubtopics : option json)
  : bool :=
  (negb (truthyJson youtubeUrl)
   || negb (truthyJson topic)
   || negb (truthyJson customSubtopics)
   || lengthIsZero customSubtopics)%bool.

(** The elements of an array when they are all strings. *)
Fixpoint asStrings (items : list json) : option (list string) :=
  match items with
  | [] => Some []
  | JString s :: rest =>
      match asStrings rest with
      | Some strings => Some (s :: strings)
      | None => None
      end
  | _ :: _ => None
  end.

(** [analyzeCoverage(transcript, customSubtopics, topic)] at line 145,
    for the value that passed line 135.  A value that is not an array
    has no [join] (line 85) and no [map] (line 119): the first TypeError
    is caught at line 115, the second one leaves the function.
    [analyzeCoverage] does not read [topic]. *)
Definition coverageOf (w : World) (e : Engine) (transcript : string)
           (customSubtopics : option json) : M json :=
  match customSubtopics with
  | Some (JArray items) =>
      match asStrings items with
      | Some subtopics =>
          analysis <- analyzeCoverage w transcript subtopics "" ;;
          ret (reportJson analysis)
      | None => coverageOfValues e transcript items
      end
  | _ =>
      console_error "Coverage analysis error:"
        (notFunctionMessage e "subtopics.join") ;;;
      throw (Exn (notFunctionMessage e "subtopics.map"))
  end.

(** The body of the reply 200 (lines 147-160), with [customSubtopics]
    as it came and the analysis as [res.json] writes it. *)
Definition successBodyOf (videoId : string) (videoData : VideoData)
           (transcript : string) (customSubtopics analysis : json) : json :=
  JObject
    [("success", JBool true);
     ("videoInfo",
      JObject
        [("videoId", JString videoId);
         ("title", JString (title videoData));
         ("channelTitle", JString (channelTitle videoData));
         ("publishedAt", JString (publishedAt videoData));
         ("thumbnail", JString (thumbnail videoData));
         ("youtubeUrl",
          JString ("https://www.youtube.com/watch?v=" ++ videoId))]);
     ("transcript", JString (transcriptPreview transcript));
     ("subtopics", customSubtopics);
     ("analysis", analysis)].

(** POST /api/analyze on the body [body].  The destructuring of line
    133 throws on [undefined] and [null]; [url.match] (line 25) is a
    function for a string only. *)
Definition handleAnalyze (w : World) (e : Engine) (body : option json)
  : M Response :=
  tryCatch
    (match body with
     | None | Some JNull => throw (Exn (destructureMessage e body))
     | Some value =>
         let youtubeUrl := property "youtubeUrl" value in
         let topic := property "topic" value in
         let customSubtopics := property "customSubtopics" value in
         if missingField youtubeUrl topic customSubtopics
         then ret (badRequest
                     "YouTube URL, topic, and at least one subtopic are required.")
         else
           match youtubeUrl with
           | Some (JString url) =>
               videoId <- lift (extractVideoId w url) ;;
               match videoId with
               | None => ret (badRequest "Invalid YouTube URL.")
               | Some videoId =>
                   videoData <- getYouTubeVideoData w videoId ;;
                   transcript <- getTranscript w videoId ;;
                   analysis <- coverageOf w e transcript customSubtopics ;;
                   ret (mkResponse 200
                          (successBodyOf videoId videoData transcript
                             (match customSubtopics with
                              | Some v => v
                              | None => JNull
                              end)
                             analysis))
               end
           | _ => throw (Exn (notFunctionMessage e "url.match"))
           end
     end)
    (fun err =>
       console_error "Analysis error:" (message err) ;;;
       ret (mkResponse 500 (errorBody (message err)))).

(** The body that a client sends for a request: the fields that are
    there, in the order of line 133. *)
Definition bodyOf (req : AnalyzeRequest) : json :=
  JObject
    ((match youtubeUrl req with
      | Some url => [("youtubeUrl", JString url)]
      | None => []
      end)
     ++ (match topic req with
         | Some tp => [("topic", JString tp)]
         | None => []
         end)
     ++ (match customSubtopics req with
         | Some subs => [("customSubtopics", JArray (map JString subs))]
         | None => []
         end))%list.

(** An engine with the texts of the errors of V8, for the examples. *)
Definition v8 : Engine :=
  mkEngine
    (fun body =>
       "Cannot destructure property 'youtubeUrl' of 'req.body' as it is "
       ++ match body with Some _ => "null." | None => "undefined." end)
    (fun callee => callee ++ " is not a function")
    (fun _ _ => throw (Exn "unmodelled")).
End Server.

(* ================================================================== *)
(** * Facts about the matcher *)
(* ================================================================== *)

Import JsString JsNumber JsRegExp Server.

Unset Implicit Arguments.

Lemma get_Some_lt : forall s n c,
  String.get n s = Some c -> n < String.length s.
Proof.
  induction s as [|a s IH]; intros [|n] c H; simpl in *; try discriminate.
  - lia.
  - apply IH in H. lia.
Qed.

Lemma orElse_fuel z alt :
  z <> OutOfFuel -> (z = failure -> alt tt <> OutOfFuel) ->
  orElse z alt <> OutOfFuel.
Proof. destruct z; simpl; auto. Qed.

Lemma orElse_Matched z alt y :
  orElse z alt = Matched y -> z = Matched y \/ alt tt = Matched y.
Proof. destruct z; simpl; auto. Qed.

(** ** The fuel given to the quantifier loop is enough *)

Section Fuel.
Variable Input : string.
Variable icase : bool.

Lemma within_refl x : within Input x x.
Proof. unfold within. lia. Qed.

Lemma within_trans x y z :
  within Input x y -> within Input y z -> within Input x z.
Proof. unfold within. lia. Qed.

Lemma RepeatMatcher_fuel (m : Matcher) :
  (forall x c, terminates Input x c -> m x c <> OutOfFuel) ->
  forall fuel min max greedy parenIndex parenCount x c,
    min + (InputLength Input - endIndex x) < fuel ->
    terminates Input x c ->
    RepeatMatcher fuel m min max greedy parenIndex parenCount x c <> OutOfFuel.
Proof.
  intros Hm. induction fuel as [|fuel IH];
    intros min max greedy pI pC x c Hf Hc; [lia|].
  assert (Hx : c x <> OutOfFuel) by (apply Hc, within_refl).
  assert (Hd : m (mkState (endIndex x) (clearCaptures pI pC (captures x)))
                 (fun y =>
                    if ((min =? 0) && (endIndex y =? endIndex x))%bool
                    then failure
                    else RepeatMatcher fuel m (pred min) (option_map pred max)
                           greedy pI pC y c) <> OutOfFuel).
  { apply Hm. intros y Hy. unfold within in Hy. simpl in Hy.
    destruct (min =? 0) eqn:Hmin; simpl.
    - apply Nat.eqb_eq in Hmin. subst min.
      destruct (endIndex y =? endIndex x) eqn:He; [discriminate|].
      apply Nat.eqb_neq in He.
      apply IH; [simpl; lia|].
      intros z Hz. apply Hc. unfold within in *. lia.
    - apply Nat.eqb_neq in Hmin.
      apply IH; [lia|].
      intros z Hz. apply Hc. unfold within in *. lia. }
  simpl. destruct max as [[|k]|]; auto;
    (destruct (negb (min =? 0)); [exact Hd|];
     destruct (negb greedy); apply orElse_fuel; auto).
Qed.

Lemma compile_fuel r : forall x c,
  terminates Input x c -> compile Input icase r x c <> OutOfFuel.
Proof.
  induction r; intros x c Hc; cbn [compile].
  - apply Hc, within_refl.
  - unfold CharacterSetMatcher.
    destruct (String.get (endIndex x) Input) eqn:Hg; [|discriminate].
    destruct (Bool.eqb invert _); [discriminate|].
    apply Hc. unfold within. simpl.
    apply get_Some_lt in Hg. unfold InputLength. lia.
  - apply IHr1. intros y Hy. apply IHr2. intros z Hz. apply Hc.
    eapply within_trans; eauto.
  - apply orElse_fuel; auto.
  - apply RepeatMatcher_fuel; auto; lia.
  - apply IHr. intros y Hy. apply Hc. unfold within in *. simpl. lia.
  - destruct (endIndex x =? 0); [apply Hc, within_refl|discriminate].
  - destruct (endIndex x =? InputLength Input);
      [apply Hc, within_refl|discriminate].
  - destruct (Bool.eqb negated _); [discriminate|apply Hc, within_refl].
Qed.

(** The search of [String_match] always ends with a match or a failure. *)
Lemma searchFrom_fuel re : forall tries lastIndex,
  fst (searchFrom Input icase re tries lastIndex) <> OutOfFuel.
Proof.
  induction tries as [|tries IH]; intros i; simpl; [discriminate|].
  destruct (compile Input icase (source re) _ Matched) eqn:E; simpl.
  - exfalso. revert E. apply compile_fuel. intros y _. discriminate.
  - apply IH.
  - discriminate.
Qed.

Lemma searchFrom_Matched re : forall tries i y j,
  searchFrom Input icase re tries i = (Matched y, j) ->
  compile Input icase (source re) (mkState j (repeat None (nCaptures re)))
    Matched = Matched y.
Proof.
  induction tries as [|tries IH]; intros i y j H; simpl in H; [discriminate|].
  destruct (compile Input icase (source re) _ Matched) eqn:E.
  - discriminate.
  - eauto.
  - inversion H; subst. exact E.
Qed.
End Fuel.

(** ** Which groups a match defines *)

Lemma length_setNth {A : Type} k (v : A) l : length (setNth k v l) = length l.
Proof.
  revert k; induction l as [|a l IH]; intros [|k]; simpl; auto.
Qed.

Lemma nth_error_setNth_eq {A : Type} k (v : A) l :
  k < length l -> nth_error (setNth k v l) k = Some v.
Proof.
  revert k; induction l as [|a l IH]; intros [|k] H; simpl in *; try lia; auto.
  apply IH. lia.
Qed.

Lemma nth_error_setNth_neq {A : Type} k j (v : A) l :
  j <> k -> nth_error (setNth k v l) j = nth_error l j.
Proof.
  revert k j; induction l as [|a l IH]; intros [|k] [|j] H; simpl; auto.
  lia.
Qed.

Lemma length_clearCaptures pI pC caps :
  length (clearCaptures pI pC caps) = length caps.
Proof.
  induction pC; simpl; auto. unfold setCapture. now rewrite length_setNth.
Qed.

Lemma outside_range pI pC k :
  negb ((pI <? k) && (k <=? pI + pC)) = true <-> (k <= pI \/ pI + pC < k).
Proof.
  rewrite negb_true_iff, andb_false_iff, Nat.ltb_ge, Nat.leb_gt. tauto.
Qed.

Lemma nth_error_clearCaptures pI pC caps k :
  negb ((pI <? k) && (k <=? pI + pC)) = true -> 1 <= k ->
  nth_error (clearCaptures pI pC caps) (k - 1) = nth_error caps (k - 1).
Proof.
  rewrite outside_range. intros H Hk.
  induction pC as [|pC IH]; simpl; auto.
  unfold setCapture. rewrite nth_error_setNth_neq by lia.
  apply IH. lia.
Qed.

Lemma Post_refl k P x : Post k P x x.
Proof. split; auto. Qed.

Lemma Post_trans k (P Q : Prop) x y z :
  Post k P x y -> Post k Q y z -> Post k (P /\ Q) x z.
Proof.
  intros [L1 D1] [L2 D2]. split; [congruence|]. intros [HP HQ] H. auto.
Qed.

Lemma Post_weaken k (P Q : Prop) x y :
  (Q -> P) -> Post k P x y -> Post k Q x y.
Proof. intros H [L D]. split; auto. Qed.

Lemma defined_setCapture k n w y :
  defined k y ->
  defined k (mkState (endIndex y) (setCapture n (Some w) (captures y))).
Proof.
  intros [u Hu]. unfold defined, setCapture. simpl.
  destruct (Nat.eq_dec (k - 1) (n - 1)) as [E|E].
  - exists w. rewrite E. apply nth_error_setNth_eq.
    rewrite <- E. apply nth_error_Some. congruence.
  - exists u. rewrite nth_error_setNth_neq; auto.
Qed.

Section Captures.
Variable Input : string.
Variable icase : bool.
Variable k : nat.
Hypothesis Hk : 1 <= k.

Lemma RepeatMatcher_post (m : Matcher) (P : Prop) pI pC :
  (forall x c z, m x c = Matched z ->
                 exists y, c y = Matched z /\ Post k P x y) ->
  forall fuel min max greedy x c z,
    RepeatMatcher fuel m min max greedy pI pC x c = Matched z ->
    exists y, c y = Matched z
      /\ Post k (negb ((pI <? k) && (k <=? pI + pC)) = true /\ P) x y.
Proof.
  intros Hm. induction fuel as [|fuel IH]; intros min max greedy x c z H.
  - destruct max as [[|n]|]; simpl in H; try discriminate.
    exists x. split; auto using Post_refl.
  - assert (Hd : m (mkState (endIndex x) (clearCaptures pI pC (captures x)))
                   (fun y =>
                      if ((min =? 0) && (endIndex y =? endIndex x))%bool
                      then failure
                      else RepeatMatcher fuel m (pred min)
                             (option_map pred max) greedy pI pC y c)
                 = Matched z ->
                 exists y, c y = Matched z
                   /\ Post k (negb ((pI <? k) && (k <=? pI + pC)) = true /\ P)
                        x y).
    { intros H1. apply Hm in H1. destruct H1 as (y & Hy & Py).
      destruct ((min =? 0) && (endIndex y =? endIndex x))%bool;
        [discriminate|].
      apply IH in Hy. destruct Hy as (y' & Hy' & Py').
      exists y'. split; auto.
      destruct Py as [L1 D1], Py' as [L2 D2]. simpl in *.
      rewrite length_clearCaptures in L1.
      split; [congruence|].
      intros [HR HP] Hx. apply D2; auto. apply D1; auto.
      destruct Hx as [v Hv]. exists v. simpl.
      rewrite nth_error_clearCaptures; auto. }
    assert (Hx : c x = Matched z ->
                 exists y, c y = Matched z
                   /\ Post k (negb ((pI <? k) && (k <=? pI + pC)) = true /\ P)
                        x y).
    { intros. exists x. auto using Post_refl. }
    simpl in H.
    destruct max as [[|n]|]; auto;
      (destruct (negb (min =? 0)); [auto|];
       destruct (negb greedy); apply orElse_Matched in H; destruct H; auto).
Qed.

(** A successful run of the matcher of [r] ends in its continuation, in a
    state with the groups that [r] keeps and those it defines. *)
Lemma compile_post r : forall x c z,
  compile Input icase r x c = Matched z ->
  exists y, c y = Matched z /\ Post k (keeps k r = true) x y
    /\ (defines k r = true -> k <= length (captures x) -> defined k y).
Proof.
  induction r; intros x c z H; cbn [compile] in H.
  - exists x. repeat split; auto. discriminate.
  - unfold CharacterSetMatcher in H.
    destruct (String.get (endIndex x) Input); [|discriminate].
    destruct (Bool.eqb invert _); [discriminate|].
    eexists. split; [exact H|]. repeat split; auto. discriminate.
  - apply IHr1 in H. destruct H as (y1 & H & P1 & D1).
    apply IHr2 in H. destruct H as (y2 & H & P2 & D2).
    exists y2. split; auto. split.
    + eapply Post_weaken; [|eapply Post_trans; eauto].
      simpl. intros E. apply andb_true_iff in E. exact E.
    + simpl. intros E Hl. apply orb_true_iff in E. destruct E as [E|E].
      * apply andb_true_iff in E. destruct E as [E1 E2].
        destruct P2 as [L2 K2]. apply K2; auto.
      * apply D2; auto. destruct P1 as [L1 _]. lia.
  - apply orElse_Matched in H. destruct H as [H|H];
      [apply IHr1 in H | apply IHr2 in H];
      destruct H as (y & H & P1 & D1);
      (exists y; split; auto; split;
       [ eapply Post_weaken; [|exact P1]; simpl; intros E;
         apply andb_true_iff in E; tauto
       | simpl; intros E; apply andb_true_iff in E; tauto ]).
  - eapply RepeatMatcher_post in H.
    + destruct H as (y & H & P1). exists y. split; auto. split.
      * eapply Post_weaken; [|exact P1]. simpl. intros E.
        apply andb_true_iff in E. exact E.
      * simpl. discriminate.
    + intros x0 c0 z0 H0. apply IHr in H0. destruct H0 as (y & ? & ? & _).
      eauto.
  - apply IHr in H. destruct H as (y & H & [L1 K1] & D1).
    eexists. split; [exact H|]. simpl.
    split; [split|].
    + simpl. unfold setCapture. now rewrite length_setNth.
    + intros E Hx. apply defined_setCapture. auto.
    + intros E Hl. apply orb_true_iff in E. destruct E as [E|E].
      * apply Nat.eqb_eq in E. subst n. eexists. unfold setCapture. simpl.
        apply nth_error_setNth_eq. lia.
      * apply defined_setCapture. auto.
  - destruct (endIndex x =? 0); [|discriminate].
    exists x. repeat split; auto. discriminate.
  - destruct (endIndex x =? InputLength Input); [|discriminate].
    exists x. repeat split; auto. discriminate.
  - destruct (Bool.eqb negated _); [discriminate|].
    exists x. repeat split; auto. discriminate.
Qed.
End Captures.

(** In the array of a match, a group that the pattern defines holds a
    string. *)
Lemma String_match_group re Input m k :
  1 <= k <= nCaptures re -> defines k (source re) = true ->
  String_match re Input = Some m ->
  exists token, nth k m None = Some token.
Proof.
  intros Hk Hd H. unfold String_match in H.
  destruct (searchFrom _ _ _ _ _) as [[| |y] j] eqn:E; try discriminate.
  inversion H; subst m; clear H.
  apply searchFrom_Matched in E.
  apply compile_post with (k := k) in E; [|lia].
  destruct E as (y' & E & _ & D). inversion E; subst y'; clear E.
  destruct D as [v Hv]; auto.
  { simpl. rewrite repeat_length. lia. }
  destruct k as [|k]; [lia|]. simpl in *. rewrite Nat.sub_0_r in Hv.
  destruct v as [a b]. exists (substring a b Input).
  apply nth_error_nth. rewrite nth_error_map, Hv. reflexivity.
Qed.

(** [String_match] gives [null] only when the search fails. *)
Lemma String_match_null re Input :
  String_match re Input = None ->
  fst (searchFrom Input (ignoreCase re) re (S (String.length Input)) 0)
  = failure.
Proof.
  unfold String_match.
  pose proof (searchFrom_fuel Input (ignoreCase re) re
                (S (String.length Input)) 0) as Hf.
  destruct (searchFrom _ _ _ _ _) as [[| |y] j]; simpl in *;
    congruence.
Qed.

(* ================================================================== *)
(** * Facts about the server *)
(* ================================================================== *)

(** The compiled [regExp] is what the text of the literal parses to. *)
Lemma regExp_literal : RegExp_new videoIdPattern false = Parsed regExp.
Proof. reflexivity. Qed.

(** C9.  [extractVideoId] returns on every string, without throwing, and
    what it returns is [null] or a string of exactly 11 characters. *)
Theorem extractVideoId_null_or_11 (w : World) (url : string) :
  extractVideoId w url = Ok None
  \/ exists id, extractVideoId w url = Ok (Some id) /\ String.length id = 11.
Proof.
  unfold extractVideoId.
  destruct (String_match regExp url) as [m|] eqn:E; [|now left].
  destruct (String_match_group regExp url m 7) as [token Ht];
    [simpl; lia|reflexivity|exact E|].
  rewrite Ht.
  destruct (String.length token =? 11) eqn:L; [|now left].
  right. exists token. split; [reflexivity|]. now apply Nat.eqb_eq.
Qed.

(** ** [analyzeCoverage] *)

(** The three ways through [analyzeCoverage]: the completion call and the
    parsing succeed; the parsing throws; the completion call throws. *)
Lemma analyzeCoverage_unfold w transcript subtopics topic tr :
  analyzeCoverage w transcript subtopics topic tr =
  match callGroq w (coverageMessages transcript subtopics) 2000 tr with
  | (Ok responseText, tr1) =>
      match mapOutcome (parseSubtopic w responseText) subtopics with
      | Ok entries =>
          (Ok (mkReport (computeOverallScore entries) entries
                 ("Overall coverage based on " ++ showNat (length subtopics)
                  ++ " subtopics.")), tr1)
      | Throw e =>
          (Ok (failureReport subtopics),
           (tr1 ++ [ConsoleError "Coverage analysis error:" (message e)])%list)
      end
  | (Throw e, tr1) =>
      (Ok (failureReport subtopics),
       (tr1 ++ [ConsoleError "Coverage analysis error:" (message e)])%list)
  end.
Proof.
  unfold analyzeCoverage, tryCatch, bind.
  destruct (callGroq w _ 2000 tr) as [[responseText|e] tr1]; [|reflexivity].
  unfold lift.
  destruct (mapOutcome (parseSubtopic w responseText) subtopics);
    reflexivity.
Qed.

Lemma parseSubtopic_label w responseText sub r :
  parseSubtopic w responseText sub = Ok r -> subtopic r = sub.
Proof.
  unfold parseSubtopic, obind.
  destruct (matchPattern w _ responseText); [|discriminate].
  intros H. inversion H. reflexivity.
Qed.

Lemma mapOutcome_labels w responseText : forall subtopics entries,
  mapOutcome (parseSubtopic w responseText) subtopics = Ok entries ->
  map subtopic entries = subtopics.
Proof.
  induction subtopics as [|sub rest IH]; intros entries H; simpl in H.
  - inversion H. reflexivity.
  - destruct (parseSubtopic w responseText sub) as [r|] eqn:Hr;
      [|discriminate].
    simpl in H.
    destruct (mapOutcome (parseSubtopic w responseText) rest) as [rs|];
      [|discriminate].
    inversion H. simpl.
    rewrite (parseSubtopic_label _ _ _ _ Hr), (IH rs); reflexivity.
Qed.

Lemma failureReport_labels subtopics :
  map subtopic (subtopicAnalysis (failureReport subtopics)) = subtopics.
Proof.
  simpl. rewrite map_map. simpl. apply map_id.
Qed.

(** C1.  Whatever the completion service and the parsing do,
    [analyzeCoverage] returns a report whose [subtopicAnalysis] has one
    entry per input label, in the input order, entry [i] carrying label
    [i].  (This holds for the empty list too.) *)
Theorem analyzeCoverage_one_entry_per_subtopic
        (w : World) (transcript : string) (subtopics : list string)
        (topic : string) (tr : Trace) :
  exists report tr',
    analyzeCoverage w transcript subtopics topic tr = (Ok report, tr')
    /\ length (subtopicAnalysis report) = length subtopics
    /\ map subtopic (subtopicAnalysis report) = subtopics
    /\ forall i, option_map subtopic (nth_error (subtopicAnalysis report) i)
                 = nth_error subtopics i.
Proof.
  assert (Hshape : forall (report : CoverageReport),
             map subtopic (subtopicAnalysis report) = subtopics ->
             length (subtopicAnalysis report) = length subtopics
             /\ map subtopic (subtopicAnalysis report) = subtopics
             /\ forall i,
                 option_map subtopic (nth_error (subtopicAnalysis report) i)
                 = nth_error subtopics i).
  { intros report H. split; [|split; [exact H|]].
    - rewrite <- H. now rewrite length_map.
    - intros i. rewrite <- H. now rewrite nth_error_map. }
  rewrite analyzeCoverage_unfold.
  destruct (callGroq w _ 2000 tr) as [[responseText|e] tr1].
  - destruct (mapOutcome (parseSubtopic w responseText) subtopics)
      as [entries|e] eqn:Hm.
    + do 2 eexists. split; [reflexivity|]. apply Hshape. simpl.
      eapply mapOutcome_labels; eauto.
    + do 2 eexists. split; [reflexivity|]. apply Hshape.
      apply failureReport_labels.
  - do 2 eexists. split; [reflexivity|]. apply Hshape.
    apply failureReport_labels.
Qed.

(** C2.  When the call to the completion service throws,
    [analyzeCoverage] does not: it logs the message and returns the
    report with score 0, every subtopic at score 0, not covered and with
    the evidence "Failed to analyze coverage.", and the summary
    "Failed to generate coverage analysis.". *)
Theorem analyzeCoverage_completion_failure
        (w : World) (transcript : string) (subtopics : list string)
        (topic : string) (tr : Trace) (e : exn) :
  fst (callGroq w (coverageMessages transcript subtopics) 2000 tr) = Throw e ->
  exists tr',
    analyzeCoverage w transcript subtopics topic tr =
    (Ok (mkReport (ofZ 0)
           (map (fun sub =>
                   mkResult sub (ofZ 0) false "Failed to analyze coverage.")
                subtopics)
           "Failed to generate coverage analysis."),
     tr').
Proof.
  intros H. rewrite analyzeCoverage_unfold.
  destruct (callGroq w _ 2000 tr) as [[responseText|e'] tr1];
    simpl in H; [discriminate|].
  eexists. reflexivity.
Qed.

Lemma analyzeCoverage_completion_failure_witness :
  fst (callGroq (replyWorld (Throw (Exn "Network Error")))
         (coverageMessages "Today we look at quicksort."
            ["Quicksort"; "Merge sort"]) 2000 [])
  = Throw (Exn "Network Error")
  /\ exists tr',
      analyzeCoverage (replyWorld (Throw (Exn "Network Error")))
        "Today we look at quicksort." ["Quicksort"; "Merge sort"] "Sorting" [] =
      (Ok (mkReport (ofZ 0)
             [mkResult "Quicksort" (ofZ 0) false "Failed to analyze coverage.";
              mkResult "Merge sort" (ofZ 0) false "Failed to analyze coverage."]
             "Failed to generate coverage analysis."),
       tr').
Proof.
  split; [reflexivity|].
  apply (analyzeCoverage_completion_failure
           (replyWorld (Throw (Exn "Network Error")))
           "Today we look at quicksort." ["Quicksort"; "Merge sort"]
           "Sorting" [] (Exn "Network Error")).
  reflexivity.
Defined.

(** ** The overall score *)

Lemma Qred_inject_Z z : Qred (inject_Z z) = inject_Z z.
Proof.
  unfold Qred, inject_Z.
  pose proof (Z.ggcd_gcd z 1) as Hg.
  pose proof (Z.ggcd_correct_divisors z 1) as Hd.
  destruct (Z.ggcd z 1) as (g, (aa, bb)). simpl in Hg.
  rewrite Z.gcd_1_r in Hg. subst g. destruct Hd as [Ha Hb].
  rewrite Z.mul_1_l in Ha, Hb. subst aa bb. reflexivity.
Qed.

(** *** Rounding to binary64 *)

Section Binary64.
Local Open Scope Z_scope.

Lemma pow2_pos k : 0 <= k -> 0 < 2 ^ k.
Proof. intros H. apply Z.pow_pos_nonneg; lia. Qed.

Lemma roundHalfEven_div n d :
  0 < d ->
  roundHalfEven n d = n / d \/ roundHalfEven n d = n / d + 1.
Proof.
  intros Hd. unfold roundHalfEven.
  destruct (2 * (n mod d) ?= d); [destruct (Z.even (n / d))| |]; auto.
Qed.

(** The rounded quotient is not below an integer that the quotient is not
    below, and is within a half of the quotient from above. *)
Lemma roundHalfEven_lower n d B :
  0 < d -> B * d <= n -> B <= roundHalfEven n d.
Proof.
  intros Hd H.
  assert (B <= n / d) by (apply Z.div_le_lower_bound; lia).
  destruct (roundHalfEven_div n d Hd); lia.
Qed.

Lemma roundHalfEven_upper n d :
  0 < d -> 2 * d * roundHalfEven n d <= 2 * n + d.
Proof.
  intros Hd. unfold roundHalfEven.
  pose proof (Z.div_mod n d ltac:(lia)) as Hdm.
  pose proof (Z.mod_pos_bound n d Hd) as Hm.
  destruct (2 * (n mod d) ?= d) eqn:E.
  - apply Z.compare_eq in E. destruct (Z.even (n / d)); nia.
  - apply Z.compare_lt_iff in E. nia.
  - apply Z.compare_gt_iff in E. nia.
Qed.

Lemma roundHalfEven_1 n : roundHalfEven n 1 = n.
Proof.
  unfold roundHalfEven. rewrite Z.mod_1_r, Z.div_1_r. reflexivity.
Qed.

(** [ilog2 a b] is not above the logarithm of [a / b]. *)
Lemma ilog2_lower a b :
  0 < a -> 0 < b -> below a b (ilog2 a b) = false.
Proof.
  intros Ha Hb. unfold ilog2.
  destruct (below a b (Z.log2 a - Z.log2 b)) eqn:E; [|exact E].
  pose proof (Z.log2_spec a Ha) as [Hla _].
  pose proof (Z.log2_spec b Hb) as [_ Hlb].
  pose proof (Z.log2_nonneg a) as Hna.
  pose proof (Z.log2_nonneg b) as Hnb.
  set (la := Z.log2 a) in *. set (lb := Z.log2 b) in *.
  unfold below.
  destruct (0 <=? la - lb - 1) eqn:Es.
  - apply Z.leb_le in Es. apply Z.ltb_ge.
    assert (Hp : 2 ^ la = 2 ^ (Z.succ lb) * 2 ^ (la - lb - 1))
      by (rewrite <- Z.pow_add_r by lia; f_equal; lia).
    pose proof (pow2_pos (la - lb - 1) Es). nia.
  - apply Z.leb_gt in Es. apply Z.ltb_ge.
    assert (Hp : 2 ^ (Z.succ lb) = 2 ^ la * 2 ^ (- (la - lb - 1)))
      by (rewrite <- Z.pow_add_r by lia; f_equal; lia).
    pose proof (pow2_pos (- (la - lb - 1)) ltac:(lia)). nia.
Qed.

(** ... and not below it by one or more. *)
Lemma ilog2_upper a b :
  0 < a -> 0 < b -> below a b (ilog2 a b + 1) = true.
Proof.
  intros Ha Hb. unfold ilog2.
  pose proof (Z.log2_spec a Ha) as [_ Hla].
  pose proof (Z.log2_spec b Hb) as [Hlb _].
  pose proof (Z.log2_nonneg a) as Hna.
  pose proof (Z.log2_nonneg b) as Hnb.
  set (la := Z.log2 a) in *. set (lb := Z.log2 b) in *.
  destruct (below a b (la - lb)) eqn:E.
  - replace (la - lb - 1 + 1) with (la - lb) by lia. exact E.
  - unfold below. destruct (0 <=? la - lb + 1) eqn:Es.
    + apply Z.leb_le in Es. apply Z.ltb_lt.
      assert (Hp : 2 ^ (Z.succ la) = 2 ^ lb * 2 ^ (la - lb + 1))
        by (rewrite <- Z.pow_add_r by lia; f_equal; lia).
      pose proof (pow2_pos (la - lb + 1) Es). nia.
    + apply Z.leb_gt in Es. apply Z.ltb_lt.
      assert (Hp : 2 ^ lb = 2 ^ (Z.succ la) * 2 ^ (- (la - lb + 1)))
        by (rewrite <- Z.pow_add_r by lia; f_equal; lia).
      pose proof (pow2_pos (- (la - lb + 1)) ltac:(lia)). nia.
Qed.

Lemma Qred_scaled z t :
  0 < t -> Qred ((z * t) # Z.to_pos t) = inject_Z z.
Proof.
  intros Ht. rewrite <- (Qred_inject_Z z). apply Qred_complete.
  unfold Qeq, inject_Z. cbn [Qnum Qden]. rewrite Z2Pos.id by exact Ht. lia.
Qed.

(** The exponent of the last place of a rational of a given logarithm. *)
Lemma below_false_pow a b e :
  0 < b -> below a b e = false -> 0 <= e -> 2 ^ e <= a.
Proof.
  intros Hb H He. unfold below in H.
  apply Z.leb_le in He as He'. rewrite He' in H. apply Z.ltb_ge in H.
  pose proof (pow2_pos e He). nia.
Qed.

(** An integer below 2^53 is a Number. *)
Lemma round64_exact z :
  0 <= z < 2 ^ 53 -> round64 (inject_Z z) = ofZ z.
Proof.
  intros Hz. unfold round64, inject_Z, ofZ. cbn [Qnum Qden].
  rewrite (Z.abs_eq z) by lia.
  destruct (z =? 0) eqn:E0; [apply Z.eqb_eq in E0; now subst|].
  apply Z.eqb_neq in E0.
  assert (Hlt : (z <? 0) = false) by (apply Z.ltb_ge; lia). rewrite Hlt.
  pose proof (ilog2_lower z 1 ltac:(lia) ltac:(lia)) as Hlow.
  set (e := ilog2 z 1) in *.
  assert (He : e <= 52).
  { destruct (Z_le_gt_dec e 52) as [H|H]; [exact H|exfalso].
    pose proof (below_false_pow z 1 e ltac:(lia) Hlow ltac:(lia)).
    assert (2 ^ 53 <= 2 ^ e) by (apply Z.pow_le_mono_r; lia). lia. }
  destruct (0 <=? Z.max e (-1022) - 52) eqn:Ex.
  - apply Z.leb_le in Ex.
    assert (Hx : Z.max e (-1022) - 52 = 0) by lia. rewrite Hx.
    replace (1 * 2 ^ 0) with 1 by reflexivity.
    replace (2 ^ 0) with 1 by reflexivity.
    rewrite roundHalfEven_1, Z.mul_1_r.
    assert (Hov : (2 ^ 1024 <=? z) = false).
    { apply Z.leb_gt.
      assert (2 ^ 53 < 2 ^ 1024) by (apply Z.pow_lt_mono_r; lia). lia. }
    now rewrite Hov.
  - apply Z.leb_gt in Ex. rewrite roundHalfEven_1.
    f_equal. apply Qred_scaled. apply pow2_pos. lia.
Qed.

(** The Number of an integer that is not negative is an integer that is
    not negative, or infinite; an integer from 2^52 on stays there. *)
Lemma round64_natural z :
  0 <= z ->
  (round64 (inject_Z z) = PosInf /\ 2 ^ 53 <= z)
  \/ exists z', 0 <= z' /\ round64 (inject_Z z) = ofZ z'
                /\ (z < 2 ^ 53 -> z' = z) /\ (2 ^ 52 <= z -> 2 ^ 52 <= z').
Proof.
  intros Hz.
  destruct (Z_lt_le_dec z (2 ^ 53)) as [Hsmall|Hbig].
  { right. exists z. rewrite round64_exact by lia. auto. }
  unfold round64, inject_Z, ofZ. cbn [Qnum Qden].
  rewrite (Z.abs_eq z) by lia.
  assert (Hpos : 0 < 2 ^ 53) by (apply pow2_pos; lia).
  destruct (z =? 0) eqn:E0; [apply Z.eqb_eq in E0; lia|].
  assert (Hlt : (z <? 0) = false) by (apply Z.ltb_ge; lia). rewrite Hlt.
  pose proof (ilog2_lower z 1 ltac:(lia) ltac:(lia)) as Hlow.
  pose proof (ilog2_upper z 1 ltac:(lia) ltac:(lia)) as Hup.
  set (e := ilog2 z 1) in *.
  assert (He : 53 <= e).
  { destruct (Z_le_gt_dec 53 e) as [H|H]; [exact H|exfalso].
    unfold below in Hup.
    destruct (0 <=? e + 1) eqn:Es.
    - apply Z.leb_le in Es. apply Z.ltb_lt in Hup.
      assert (2 ^ (e + 1) <= 2 ^ 53) by (apply Z.pow_le_mono_r; lia). lia.
    - apply Z.leb_gt in Es. apply Z.ltb_lt in Hup.
      pose proof (pow2_pos (- (e + 1)) ltac:(lia)). nia. }
  rewrite Z.max_l by lia.
  assert (Hx : (0 <=? e - 52) = true) by (apply Z.leb_le; lia). rewrite Hx.
  rewrite Z.mul_1_l.
  destruct (2 ^ 1024 <=? _); [now left|right].
  pose proof (pow2_pos (e - 52) ltac:(lia)) as Hp.
  assert (Hr : 2 ^ 52 <= roundHalfEven z (2 ^ (e - 52))).
  { apply roundHalfEven_lower; [exact Hp|].
    rewrite <- Z.pow_add_r by lia. replace (52 + (e - 52)) with e by lia.
    apply (below_false_pow z 1 e); [lia|exact Hlow|lia]. }
  assert (Hp52 : 0 < 2 ^ 52) by (apply pow2_pos; lia).
  eexists. split; [|split; [reflexivity|split; [lia|intros _; nia]]]. nia.
Qed.

(** From 2^1024 on the Number of an integer is [Infinity]. *)
Lemma round64_overflow z : 2 ^ 1024 <= z -> round64 (inject_Z z) = PosInf.
Proof.
  intros Hz.
  assert (Hpos : 0 < 2 ^ 1024) by (apply pow2_pos; lia).
  unfold round64, inject_Z. cbn [Qnum Qden].
  rewrite (Z.abs_eq z) by lia.
  destruct (z =? 0) eqn:E0; [apply Z.eqb_eq in E0; lia|].
  assert (Hlt : (z <? 0) = false) by (apply Z.ltb_ge; lia). rewrite Hlt.
  pose proof (ilog2_lower z 1 ltac:(lia) ltac:(lia)) as Hlow.
  pose proof (ilog2_upper z 1 ltac:(lia) ltac:(lia)) as Hup.
  set (e := ilog2 z 1) in *.
  assert (He : 1024 <= e).
  { destruct (Z_le_gt_dec 1024 e) as [H|H]; [exact H|exfalso].
    unfold below in Hup.
    destruct (0 <=? e + 1) eqn:Es.
    - apply Z.leb_le in Es. apply Z.ltb_lt in Hup.
      assert (2 ^ (e + 1) <= 2 ^ 1024) by (apply Z.pow_le_mono_r; lia). lia.
    - apply Z.leb_gt in Es. apply Z.ltb_lt in Hup.
      pose proof (pow2_pos (- (e + 1)) ltac:(lia)). nia. }
  rewrite Z.max_l by lia.
  assert (Hx : (0 <=? e - 52) = true) by (apply Z.leb_le; lia). rewrite Hx.
  rewrite Z.mul_1_l.
  pose proof (pow2_pos (e - 52) ltac:(lia)) as Hp.
  assert (Hr : 2 ^ 52 <= roundHalfEven z (2 ^ (e - 52))).
  { apply roundHalfEven_lower; [exact Hp|].
    rewrite <- Z.pow_add_r by lia. replace (52 + (e - 52)) with e by lia.
    apply (below_false_pow z 1 e); [lia|exact Hlow|lia]. }
  assert (Hv : 2 ^ 1024 <= roundHalfEven z (2 ^ (e - 52)) * 2 ^ (e - 52)).
  { apply Z.le_trans with (2 ^ 52 * 2 ^ (e - 52)).
    - rewrite <- Z.pow_add_r by lia. apply Z.pow_le_mono_r; lia.
    - apply Z.mul_le_mono_nonneg_r; lia. }
  apply Z.leb_le in Hv. now rewrite Hv.
Qed.

(** The Number of a rational that is not negative is not negative. *)
Lemma round64_nonneg q :
  (0 <= Qnum q)%Z ->
  round64 q = PosInf \/ exists q', round64 q = Fin q' /\ (0 <= q')%Q.
Proof.
  intros Hq. unfold round64.
  rewrite (Z.abs_eq (Qnum q)) by lia.
  destruct (Qnum q =? 0) eqn:E0.
  { right. exists 0%Q. split; [reflexivity|]. apply Qle_refl. }
  apply Z.eqb_neq in E0.
  assert (Hlt : (Qnum q <? 0) = false) by (apply Z.ltb_ge; lia). rewrite Hlt.
  set (x := Z.max _ _ - 52).
  destruct (0 <=? x) eqn:Ex.
  - apply Z.leb_le in Ex. destruct (2 ^ 1024 <=? _); [now left|right].
    eexists. split; [reflexivity|].
    unfold Qle, inject_Z. cbn [Qnum Qden]. rewrite Z.mul_1_r.
    pose proof (pow2_pos x Ex) as Hp.
    assert (0 <= roundHalfEven (Qnum q) (Z.pos (Qden q) * 2 ^ x))
      by (apply roundHalfEven_lower; nia).
    nia.
  - apply Z.leb_gt in Ex. right. eexists. split; [reflexivity|].
    rewrite Qred_correct. unfold Qle. cbn [Qnum Qden]. rewrite Z.mul_1_r.
    pose proof (pow2_pos (- x) ltac:(lia)) as Hp.
    assert (0 <= roundHalfEven (Qnum q * 2 ^ (- x)) (Z.pos (Qden q)))
      by (apply roundHalfEven_lower; nia).
    lia.
Qed.

(** Rounding the quotient of an integer below 2^52 by a positive integer
    to a Number does not change the integer that [Math.round] gives. *)
Lemma round64_quotient a b :
  0 <= a < 2 ^ 52 -> 0 < b < 2 ^ 1022 ->
  exists q',
    round64 (a # Z.to_pos b) = Fin q'
    /\ Qfloor (q' + (1 # 2)) = (2 * a + b) / (2 * b).
Proof.
  intros Ha Hb. unfold round64. cbn [Qnum Qden].
  rewrite (Z.abs_eq a) by lia. rewrite Z2Pos.id by lia.
  destruct (a =? 0) eqn:E0.
  { apply Z.eqb_eq in E0. subst a. exists 0%Q. split; [reflexivity|].
    change (Qfloor (0 + (1 # 2))) with 0.
    symmetry. apply Z.div_small. lia. }
  apply Z.eqb_neq in E0.
  assert (Hlt : (a <? 0) = false) by (apply Z.ltb_ge; lia). rewrite Hlt.
  pose proof (ilog2_lower a b ltac:(lia) ltac:(lia)) as Hlow.
  set (e := ilog2 a b) in *.
  assert (Hp52 : 0 < 2 ^ 52) by (apply pow2_pos; lia).
  (* the quotient is at least 2^-1022 and below 2^52 *)
  assert (He : -1022 <= e <= 51).
  { split.
    - destruct (Z_le_gt_dec (-1022) e) as [H|H]; [exact H|exfalso].
      pose proof (ilog2_upper a b ltac:(lia) ltac:(lia)) as Hup.
      fold e in Hup. unfold below in Hup.
      assert (Hs : (0 <=? e + 1) = false) by (apply Z.leb_gt; lia).
      rewrite Hs in Hup. apply Z.ltb_lt in Hup.
      assert (2 ^ 1022 <= 2 ^ (- (e + 1))) by (apply Z.pow_le_mono_r; lia).
      nia.
    - destruct (Z_le_gt_dec e 51) as [H|H]; [exact H|exfalso].
      unfold below in Hlow.
      assert (Hs : (0 <=? e) = true) by (apply Z.leb_le; lia).
      rewrite Hs in Hlow. apply Z.ltb_ge in Hlow.
      assert (2 ^ 52 <= 2 ^ e) by (apply Z.pow_le_mono_r; lia). nia. }
  rewrite Z.max_l by lia.
  assert (Hx : (0 <=? e - 52) = false) by (apply Z.leb_gt; lia). rewrite Hx.
  replace (- (e - 52)) with (52 - e) by lia.
  set (t := 2 ^ (52 - e)).
  assert (Ht : 0 < t) by (apply pow2_pos; lia).
  (* the last place is finer than 1/b, and t is even *)
  assert (Htb : b < t).
  { unfold below in Hlow. destruct (0 <=? e) eqn:Es.
    - apply Z.leb_le in Es. apply Z.ltb_ge in Hlow.
      assert (2 ^ 52 = t * 2 ^ e)
        by (unfold t; rewrite <- Z.pow_add_r by lia; f_equal; lia).
      pose proof (pow2_pos e Es). nia.
    - apply Z.leb_gt in Es. apply Z.ltb_ge in Hlow.
      assert (t = 2 ^ 52 * 2 ^ (- e))
        by (unfold t; rewrite <- Z.pow_add_r by lia; f_equal; lia).
      pose proof (pow2_pos (- e) ltac:(lia)). nia. }
  assert (Heven : t = 2 * 2 ^ (51 - e)).
  { unfold t. replace (52 - e) with (1 + (51 - e)) by lia.
    rewrite Z.pow_add_r by lia. reflexivity. }
  set (h := 2 ^ (51 - e)) in *.
  assert (Hh : 0 < h) by (apply pow2_pos; lia).
  set (r := roundHalfEven (a * t) b).
  eexists. split; [reflexivity|].
  rewrite (Qfloor_comp _ ((2 * r + t) # (2 * Z.to_pos t))).
  2:{ rewrite Qred_correct. unfold Qeq, Qplus. cbn [Qnum Qden].
      rewrite !Pos2Z.inj_mul, !Z2Pos.id by lia. lia. }
  unfold Qfloor. rewrite Pos2Z.inj_mul, Z2Pos.id by lia.
  pose proof (roundHalfEven_upper (a * t) b ltac:(lia)) as Hup. fold r in Hup.
  set (k := (2 * a + b) / (2 * b)).
  pose proof (Z.div_mod (2 * a + b) (2 * b) ltac:(lia)) as Hdm.
  pose proof (Z.mod_pos_bound (2 * a + b) (2 * b) ltac:(lia)) as Hm.
  fold k in Hdm.
  assert (Hlowr : (2 * k - 1) * h <= r).
  { apply roundHalfEven_lower; [lia|]. nia. }
  symmetry. apply Z.div_unique with (r := 2 * r + t - 2 * t * k).
  - left. split; [nia|].
    (* r < (2k+1) h *)
    assert (2 * b * r < 2 * b * ((2 * k + 1) * h)); [|nia].
    nia.
  - change (Z.pos 2 * t) with (2 * t). lia.
Qed.

(** On integers that are not negative, as long as the sum stays below
    2^53, [+] is exact. *)
Lemma add_ofZ a b : 0 <= a + b < 2 ^ 53 -> add (ofZ a) (ofZ b) = ofZ (a + b).
Proof.
  intros H. unfold add, ofZ.
  replace (inject_Z a + inject_Z b)%Q with (inject_Z (a + b)).
  - now apply round64_exact.
  - unfold inject_Z, Qplus. cbn [Qnum Qden]. now rewrite !Z.mul_1_r.
Qed.

Lemma add_natural a b :
  0 <= a -> 0 <= b ->
  add (ofZ a) (ofZ b) = PosInf
  \/ exists c, 0 <= c /\ add (ofZ a) (ofZ b) = ofZ c.
Proof.
  intros Ha Hb. unfold add, ofZ.
  replace (inject_Z a + inject_Z b)%Q with (inject_Z (a + b))
    by (unfold inject_Z, Qplus; cbn [Qnum Qden]; now rewrite !Z.mul_1_r).
  destruct (round64_natural (a + b) ltac:(lia)) as [[H _]|(c & Hc & H & _)];
    [now left|right; eauto].
Qed.

(** The quotient of an integer by a count, as a rational. *)
Lemma div_ofZ_ofNat s n :
  (0 < n)%nat ->
  div (ofZ s) (ofNat n) = round64 (s # Z.to_pos (Z.of_nat n)).
Proof.
  intros Hn. unfold ofNat, ofZ, div.
  destruct (Z.of_nat n) as [|p|p] eqn:Hp; try lia.
  unfold Qsign. cbn [Qnum inject_Z]. cbn [Z.compare].
  unfold Qdiv, Qmult, Qinv, inject_Z. cbn [Qnum Qden Z.to_pos].
  now rewrite Z.mul_1_r.
Qed.
End Binary64.

Lemma sum_of_integer_scores : forall entries zs a,
  map coverageScore entries = map ofZ zs ->
  (0 <= a)%Z -> Forall (fun z => 0 <= z)%Z zs ->
  (a + sumZ zs < 2 ^ 53)%Z ->
  fold_left (fun sum s => add sum (coverageScore s)) entries (ofZ a)
  = ofZ (a + sumZ zs).
Proof.
  unfold sumZ.
  induction entries as [|s entries IH]; intros [|z zs] a H Ha Hall Hsum;
    cbn [fold_left map fold_right] in *; try discriminate.
  - now rewrite Z.add_0_r.
  - inversion H as [[Hs Hrest]]. inversion Hall as [|? ? Hz Hzs]; subst.
    assert (0 <= fold_right Z.add 0 zs)%Z
      by (clear - Hzs; induction Hzs; cbn [fold_right]; lia).
    rewrite Hs, add_ofZ by lia. rewrite (IH zs _ Hrest) by (auto; lia).
    f_equal. lia.
Qed.

(** Dividing an integer below 2^52 by a positive count and rounding is
    the integer division of [2s + n] by [2n]: the rounding of the quotient
    to binary64 does not show. *)
Lemma round_quotient s n :
  0 < n -> (Z.of_nat n < 2 ^ 32)%Z -> (0 <= s < 2 ^ 52)%Z ->
  Math_round (div (ofZ s) (ofNat n))
  = ofZ ((2 * s + Z.of_nat n) / (2 * Z.of_nat n)).
Proof.
  intros Hn Hlen Hs. rewrite (div_ofZ_ofNat s n Hn).
  assert (Hb : (0 < Z.of_nat n < 2 ^ 1022)%Z).
  { split; [lia|].
    assert (2 ^ 32 < 2 ^ 1022)%Z by (apply Z.pow_lt_mono_r; lia). lia. }
  destruct (round64_quotient s (Z.of_nat n) Hs Hb) as (q' & -> & Hq).
  unfold Math_round. now rewrite Hq.
Qed.

Lemma computeOverallScore_integers entries zs :
  map coverageScore entries = map ofZ zs -> zs <> [] ->
  Forall (fun z => 0 <= z)%Z zs ->
  (sumZ zs < 2 ^ 52)%Z ->
  (Z.of_nat (length zs) < 2 ^ 32)%Z ->
  exists n,
    computeOverallScore entries = ofZ n
    /\ ((2 * n - 1) * Z.of_nat (length zs) <= 2 * sumZ zs
        < (2 * n + 1) * Z.of_nat (length zs))%Z.
Proof.
  intros H Hne Hall Hsum Hlen. unfold computeOverallScore.
  assert (Hlength : length entries = length zs).
  { rewrite <- (length_map coverageScore), H. apply length_map. }
  assert (Hnonneg : (0 <= sumZ zs)%Z)
    by (unfold sumZ; clear - Hall; induction Hall; cbn [fold_right]; lia).
  assert (H53 : (2 ^ 52 < 2 ^ 53)%Z) by (apply Z.pow_lt_mono_r; lia).
  rewrite (sum_of_integer_scores entries zs 0 H) by (auto; lia).
  rewrite Hlength.
  assert (Hpos : 0 < length zs) by (destruct zs; [congruence|simpl; lia]).
  rewrite (round_quotient _ _ Hpos Hlen) by lia. simpl (0 + _)%Z.
  eexists. split; [reflexivity|].
  set (k := Z.of_nat (length zs)). assert (0 < k)%Z by (unfold k; lia).
  pose proof (Z.div_mod (2 * sumZ zs + k) (2 * k)) as Hd.
  pose proof (Z.mod_pos_bound (2 * sumZ zs + k) (2 * k)) as Hm.
  lia.
Qed.

(** C4.  On the success path, when the scores are integers that are not
    negative, with a sum below 2^52 (and the list has fewer than 2^32
    entries, as every array has), the overall score is the mean of the
    subtopic scores rounded to the nearest integer, a half going up: the
    integer [n] with [n - 1/2 <= mean < n + 1/2].  For the scores 0, 100,
    50 it is 50 and for 33, 34 it is 34.  Past that bound the quotient is
    a binary64 number before [Math.round] sees it, and the result can be
    another integer, as for the scores 2^51, 2^51 and 2^51 + 1. *)
Theorem overallScore_rounded_mean :
  (forall (w : World) (transcript : string) (subtopics : list string)
          (topic : string) (tr tr1 : Trace) (responseText : string)
          (entries : list SubtopicResult) (zs : list Z),
      callGroq w (coverageMessages transcript subtopics) 2000 tr
      = (Ok responseText, tr1) ->
      mapOutcome (parseSubtopic w responseText) subtopics = Ok entries ->
      map coverageScore entries = map ofZ zs ->
      zs <> [] ->
      Forall (fun z => 0 <= z)%Z zs ->
      (sumZ zs < 2 ^ 52)%Z ->
      (Z.of_nat (length zs) < 2 ^ 32)%Z ->
      exists report n,
        analyzeCoverage w transcript subtopics topic tr = (Ok report, tr1)
        /\ subtopicAnalysis report = entries
        /\ overallScore report = ofZ n
        /\ ((2 * n - 1) * Z.of_nat (length zs) <= 2 * sumZ zs
            < (2 * n + 1) * Z.of_nat (length zs))%Z)
  /\ computeOverallScore (scored [0; 100; 50]%Z) = ofZ 50
  /\ computeOverallScore (scored [33; 34]%Z) = ofZ 34.
Proof.
  split; [|split; vm_compute; reflexivity].
  intros w transcript subtopics topic tr tr1 responseText entries zs
         Hcall Hparse Hscores Hne Hall Hsum Hlen.
  destruct (computeOverallScore_integers entries zs Hscores Hne Hall Hsum Hlen)
    as (n & Hn & Hbounds).
  rewrite analyzeCoverage_unfold, Hcall, Hparse.
  eexists. exists n. split; [reflexivity|]. simpl.
  split; [reflexivity|]. split; [exact Hn|exact Hbounds].
Qed.

Lemma overallScore_rounded_mean_witness :
  callGroq (replyWorld (Ok ["Alpha Score: 33 Beta Score: 34"]))
    (coverageMessages "Today we look at quicksort." ["Alpha"; "Beta"]) 2000 []
  = (Ok "Alpha Score: 33 Beta Score: 34",
     [HttpPost GROQ_API_URL
        (mkGroqRequest GROQ_MODEL
           (coverageMessages "Today we look at quicksort." ["Alpha"; "Beta"])
           2000)
        [("Authorization", "Bearer gsk-live");
         ("Content-Type", "application/json")]])
  /\ Forall (fun z => 0 <= z)%Z [33; 34]%Z
  /\ (sumZ [33; 34] < 2 ^ 52)%Z
  /\ exists report n,
      fst (analyzeCoverage (replyWorld (Ok ["Alpha Score: 33 Beta Score: 34"]))
             "Today we look at quicksort." ["Alpha"; "Beta"] "Greek" [])
      = Ok report
      /\ overallScore report = ofZ n
      /\ ((2 * n - 1) * 2 <= 2 * 67 < (2 * n + 1) * 2)%Z.
Proof.
  assert (Hall : Forall (fun z => 0 <= z)%Z [33; 34]%Z)
    by (repeat constructor; discriminate).
  assert (Hsum : (sumZ [33; 34] < 2 ^ 52)%Z) by reflexivity.
  split; [reflexivity|]. split; [exact Hall|]. split; [exact Hsum|].
  destruct (proj1 overallScore_rounded_mean
              (replyWorld (Ok ["Alpha Score: 33 Beta Score: 34"]))
              "Today we look at quicksort." ["Alpha"; "Beta"] "Greek" []
              _ "Alpha Score: 33 Beta Score: 34"
              [mkResult "Alpha" (ofZ 33) false "Evidence found in transcript.";
               mkResult "Beta" (ofZ 34) false "Evidence found in transcript."]
              [33; 34]%Z eq_refl eq_refl eq_refl
              ltac:(discriminate) Hall Hsum eq_refl)
    as (report & n & Hrun & _ & Hn & Hb).
  exists report, n. rewrite Hrun. auto.
Defined.

(** The scores 2^51, 2^51 and 2^51 + 1 have the mean 2^51 + 1/3, which
    rounds to 2^51; the quotient is the binary64 number 2^51 + 1/2 and
    the overall score is 2^51 + 1. *)
Lemma overallScore_large_scores :
  fst (analyzeCoverage
         (replyWorld
            (Ok ["Alpha Score: 2251799813685248 Beta Score: 2251799813685248 Gamma Score: 2251799813685249"]))
         "Today we look at quicksort." ["Alpha"; "Beta"; "Gamma"] "Greek" [])
  = Ok (mkReport (ofZ 2251799813685249)
          [mkResult "Alpha" (ofZ 2251799813685248) true
             "Evidence found in transcript.";
           mkResult "Beta" (ofZ 2251799813685248) true
             "Evidence found in transcript.";
           mkResult "Gamma" (ofZ 2251799813685249) true
             "Evidence found in transcript."]
          "Overall coverage based on 3 subtopics.")
  /\ ~ ((2 * 2251799813685249 - 1) * 3
        <= 2 * sumZ [2251799813685248; 2251799813685248; 2251799813685249]
        < (2 * 2251799813685249 + 1) * 3)%Z.
Proof.
  split; [vm_compute; reflexivity|]. unfold sumZ. cbn [fold_right]. lia.
Qed.

(** ** The prompt *)

Lemma take_drop : forall n s, take n s ++ drop n s = s.
Proof.
  induction n as [|n IH]; intros [|c s]; simpl; auto. now rewrite IH.
Qed.

Lemma length_take : forall n s,
  n <= String.length s -> String.length (take n s) = n.
Proof.
  induction n as [|n IH]; intros [|c s] H; simpl in *; auto; try lia.
  rewrite IH; lia.
Qed.

Lemma substring_from_0 n s : substring 0 n s = take n s.
Proof. reflexivity. Qed.

Lemma length_replicate n c : String.length (replicate n c) = n.
Proof. induction n; simpl; auto. Qed.

Lemma callGroq_trace w messages max_tokens tr :
  snd (callGroq w messages max_tokens tr) =
  (tr ++ [HttpPost GROQ_API_URL (mkGroqRequest GROQ_MODEL messages max_tokens)
            (groqHeaders w)])%list.
Proof.
  unfold callGroq, bind, perform.
  destruct (completionApi w tr _ _ _) as [[|first rest]|e]; reflexivity.
Qed.

(** Every run of [analyzeCoverage] posts the two messages to the
    completion service. *)
Lemma analyzeCoverage_posts_messages w transcript subtopics topic tr :
  In (HttpPost GROQ_API_URL
        (mkGroqRequest GROQ_MODEL (coverageMessages transcript subtopics) 2000)
        (groqHeaders w))
     (snd (analyzeCoverage w transcript subtopics topic tr)).
Proof.
  rewrite analyzeCoverage_unfold.
  pose proof (callGroq_trace w (coverageMessages transcript subtopics)
                2000 tr) as Ht.
  destruct (callGroq w _ 2000 tr) as [[responseText|e] tr1];
    simpl in Ht; subst tr1;
    [destruct (mapOutcome _ subtopics)|];
    simpl; rewrite ?in_app_iff; simpl; auto.
Qed.

(** C7.  The transcript between the quotes of the prompt is the input
    itself when it has at most 4000 characters, and otherwise its first
    4000 characters followed by "... [truncated]"; the prompt so built is
    the content of the user message posted to the completion service. *)
Theorem prompt_embeds_truncated_transcript
        (transcript : string) (subtopics : list string) :
  exists embedded,
    prompt transcript subtopics =
      "You are an educational analyst. " ++ nl ++
      "For each subtopic listed below, provide a coverage percentage (0-100) and a short explanation based on the transcript. " ++ nl ++
      "Format each subtopic like this:" ++ nl ++
      "Subtopic: <name>" ++ nl ++
      "Score: <0-100>" ++ nl ++
      "Evidence: <brief explanation>" ++ nl ++
      nl ++
      "Transcript: " ++ dquote ++ embedded ++ dquote ++ nl ++
      nl ++
      "Subtopics: " ++ join ", " subtopics
    /\ (String.length transcript <= 4000 -> embedded = transcript)
    /\ (4000 < String.length transcript ->
        exists first rest,
          transcript = first ++ rest
          /\ String.length first = 4000
          /\ embedded = first ++ "... [truncated]")
    /\ forall (w : World) (topic : string) (tr : Trace),
        In (HttpPost GROQ_API_URL
              (mkGroqRequest GROQ_MODEL
                 [mkMessage "system" "You are an educational content analyst.";
                  mkMessage "user" (prompt transcript subtopics)]
                 2000)
              (groqHeaders w))
           (snd (analyzeCoverage w transcript subtopics topic tr)).
Proof.
  exists (truncatedTranscript transcript).
  split; [reflexivity|]. unfold truncatedTranscript.
  destruct (Nat.ltb_spec 4000 (String.length transcript)) as [Hlong|Hshort].
  - split; [lia|].
    split; [|intros w topic tr; apply analyzeCoverage_posts_messages].
    intros _. exists (take 4000 transcript), (drop 4000 transcript).
    rewrite take_drop, length_take by lia. auto.
  - split; [reflexivity|]. split; [lia|].
    intros w topic tr. apply analyzeCoverage_posts_messages.
Qed.

Lemma prompt_embeds_truncated_transcript_witness :
  4000 < String.length (replicate 4001 "a")
  /\ exists embedded first rest,
      prompt (replicate 4001 "a") ["Quicksort"] =
        "You are an educational analyst. " ++ nl ++
        "For each subtopic listed below, provide a coverage percentage (0-100) and a short explanation based on the transcript. " ++ nl ++
        "Format each subtopic like this:" ++ nl ++
        "Subtopic: <name>" ++ nl ++
        "Score: <0-100>" ++ nl ++
        "Evidence: <brief explanation>" ++ nl ++
        nl ++
        "Transcript: " ++ dquote ++ embedded ++ dquote ++ nl ++
        nl ++
        "Subtopics: " ++ join ", " ["Quicksort"]
      /\ replicate 4001 "a" = first ++ rest
      /\ String.length first = 4000
      /\ embedded = first ++ "... [truncated]".
Proof.
  assert (Hlong : 4000 < String.length (replicate 4001 "a"))
    by (rewrite length_replicate; lia).
  split; [exact Hlong|].
  destruct (prompt_embeds_truncated_transcript (replicate 4001 "a")
              ["Quicksort"]) as (embedded & Hp & _ & Hcut & _).
  destruct (Hcut Hlong) as (first & rest & H1 & H2 & H3).
  exists embedded, first, rest. auto.
Defined.

(** ** The routes *)

Lemma extractVideoId_not_a_url w : extractVideoId w "not a url" = Ok None.
Proof. reflexivity. Qed.

Lemma analyzeVideo_unfold w url tp subs tr :
  analyzeVideo w url tp subs tr =
  match extractVideoId w url with
  | Ok None => (Ok (badRequest "Invalid YouTube URL."), tr)
  | Throw e => (Throw e, tr)
  | Ok (Some videoId) =>
      match getYouTubeVideoData w videoId tr with
      | (Throw e, tr1) => (Throw e, tr1)
      | (Ok videoData, tr1) =>
          match getTranscript w videoId tr1 with
          | (Throw e, tr2) => (Throw e, tr2)
          | (Ok transcript, tr2) =>
              match analyzeCoverage w transcript subs tp tr2 with
              | (Ok analysis, tr3) =>
                  (Ok (mkResponse 200
                         (successBody videoId videoData transcript subs
                            analysis)), tr3)
              | (Throw e, tr3) => (Throw e, tr3)
              end
          end
      end
  end.
Proof.
  unfold analyzeVideo, bind, lift.
  destruct (extractVideoId w url) as [[videoId|]|e]; reflexivity.
Qed.

Lemma analyzeRoute_unfold w req tr :
  analyzeRoute w req tr =
  match youtubeUrl req, topic req, customSubtopics req with
  | Some (String c1 u), Some (String c2 t), Some (sub :: subs) =>
      match analyzeVideo w (String c1 u) (String c2 t) (sub :: subs) tr with
      | (Ok resp, tr1) => (Ok resp, tr1)
      | (Throw e, tr1) =>
          (Ok (mkResponse 500 (errorBody (message e))),
           (tr1 ++ [ConsoleError "Analysis error:" (message e)])%list)
      end
  | _, _, _ =>
      (Ok (badRequest
             "YouTube URL, topic, and at least one subtopic are required."),
       tr)
  end.
Proof.
  unfold analyzeRoute, tryCatch, missingInput.
  destruct req as [[[|c1 u]|] [[|c2 t]|] [[|sub subs]|]]; reflexivity.
Qed.

(** On a request that lacks a field, has no subtopic, or has an address
    in which [extractVideoId] finds no identifier, the typed handler
    answers 400 and calls no remote service. *)
Lemma analyzeRoute_rejects_typed
      (w : World) (req : AnalyzeRequest) (tr : Trace) :
  youtubeUrl req = None \/ topic req = None \/ customSubtopics req = None
  \/ customSubtopics req = Some []
  \/ (exists url, youtubeUrl req = Some url
                  /\ extractVideoId w url = Ok None) ->
  exists text,
    analyzeRoute w req tr =
    (Ok (mkResponse 400 (JObject [("error", JString text)])), tr).
Proof.
  intros H. unfold analyzeRoute, tryCatch.
  destruct (missingInput req) eqn:Hmiss.
  { eexists. reflexivity. }
  destruct req as [[url|] [tp|] [subs|]]; simpl in *;
    try (eexists; reflexivity).
  unfold missingInput in Hmiss. simpl in Hmiss.
  destruct H as [H|[H|[H|[H|(url' & Hurl & Hid)]]]]; try discriminate.
  - inversion H; subst subs. rewrite !orb_true_r in Hmiss. discriminate.
  - inversion Hurl; subst url'.
    unfold analyzeVideo, bind, lift. rewrite Hid.
    eexists. reflexivity.
Qed.

Lemma asStrings_map : forall subs, asStrings (map JString subs) = Some subs.
Proof.
  induction subs as [|sub subs IH]; simpl; [reflexivity|now rewrite IH].
Qed.

(** On the body of a request of a client, the handler is the typed
    handler. *)
Lemma handleAnalyze_typed (w : World) (e : Engine) (req : AnalyzeRequest)
      (tr : Trace) :
  handleAnalyze w e (Some (bodyOf req)) tr = analyzeRoute w req tr.
Proof.
  rewrite analyzeRoute_unfold.
  destruct req as [[[|c1 u]|] [[|c2 t]|] [[|sub subs]|]]; try reflexivity.
  unfold handleAnalyze, tryCatch, bodyOf.
  cbn [youtubeUrl topic customSubtopics app property member String.eqb
       Ascii.eqb Bool.eqb missingField truthyJson truthy lengthIsZero
       negb orb length Nat.eqb map].
  rewrite analyzeVideo_unfold. unfold bind, lift.
  destruct (extractVideoId w (String c1 u)) as [[videoId|]|err];
    try reflexivity.
  destruct (getYouTubeVideoData w videoId tr) as [[videoData|err] tr1];
    try reflexivity.
  destruct (getTranscript w videoId tr1) as [[transcript|err] tr2];
    try reflexivity.
  unfold coverageOf.
  change (JString sub :: map JString subs) with (map JString (sub :: subs)).
  rewrite asStrings_map. unfold bind, ret.
  replace (analyzeCoverage w transcript (sub :: subs) "" tr2)
    with (analyzeCoverage w transcript (sub :: subs) (String c2 t) tr2)
    by reflexivity.
  destruct (analyzeCoverage w transcript (sub :: subs) (String c2 t) tr2)
    as [[analysis|err] tr3]; reflexivity.
Qed.

(** C6.  POST /api/analyze answers 400 with an error body, and calls no
    remote service (the trace is unchanged), when [youtubeUrl], [topic]
    or [customSubtopics] is missing or falsy, when [customSubtopics] has
    the length 0, and when [youtubeUrl] is a string in which
    [extractVideoId] finds no video identifier; so it does on every
    request of a client with strings and a list of strings.  It does not
    when [youtubeUrl] is a truthy value that is not a string (the number
    42, an array, an object): [url.match] is not a function, the
    TypeError of line 25 is caught at line 162 and the answer is 500,
    after one line on the console and no remote call.  Nor when there
    is no body at all: the destructuring of line 133 throws and the
    answer is 500. *)
Theorem handleAnalyze_rejects_bad_input :
  (forall (w : World) (e : Engine) (value : json) (tr : Trace),
      value <> JNull ->
      truthyJson (property "youtubeUrl" value) = false
      \/ truthyJson (property "topic" value) = false
      \/ truthyJson (property "customSubtopics" value) = false
      \/ lengthIsZero (property "customSubtopics" value) = true ->
      handleAnalyze w e (Some value) tr
      = (Ok (badRequest
               "YouTube URL, topic, and at least one subtopic are required."),
         tr))
  /\ (forall (w : World) (e : Engine) (value : json) (url : string)
             (tr : Trace),
         property "youtubeUrl" value = Some (JString url) ->
         extractVideoId w url = Ok None ->
         exists text,
           handleAnalyze w e (Some value) tr = (Ok (badRequest text), tr))
  /\ (forall (w : World) (e : Engine) (req : AnalyzeRequest) (tr : Trace),
         youtubeUrl req = None \/ topic req = None
         \/ customSubtopics req = None \/ customSubtopics req = Some []
         \/ (exists url, youtubeUrl req = Some url
                         /\ extractVideoId w url = Ok None) ->
         exists text,
           handleAnalyze w e (Some (bodyOf req)) tr
           = (Ok (badRequest text), tr))
  /\ (forall (w : World) (e : Engine) (value v : json) (tr : Trace),
         property "youtubeUrl" value = Some v ->
         (forall url, v <> JString url) ->
         truthyJson (Some v) = true ->
         truthyJson (property "topic" value) = true ->
         truthyJson (property "customSubtopics" value) = true ->
         lengthIsZero (property "customSubtopics" value) = false ->
         handleAnalyze w e (Some value) tr
         = (Ok (mkResponse 500 (errorBody (notFunctionMessage e "url.match"))),
            (tr ++ [ConsoleError "Analysis error:"
                      (notFunctionMessage e "url.match")])%list))
  /\ (forall (w : World) (e : Engine) (tr : Trace),
         handleAnalyze w e None tr
         = (Ok (mkResponse 500 (errorBody (destructureMessage e None))),
            (tr ++ [ConsoleError "Analysis error:"
                      (destructureMessage e None)])%list))
  /\ handleAnalyze (replyWorld (Ok ["Quicksort Score: 80"])) v8
       (Some (JObject [("youtubeUrl", JNumber (ofZ 42));
                       ("topic", JString "Sorting");
                       ("customSubtopics", JArray [JString "Quicksort"])]))
       []
     = (Ok (mkResponse 500
              (JObject
                 [("error", JString "url.match is not a function");
                  ("details",
                   JString "Please check API keys and try again.")])),
        [ConsoleError "Analysis error:" "url.match is not a function"])
  /\ handleAnalyze (replyWorld (Ok ["Quicksort Score: 80"])) v8
       (Some (JObject [("youtubeUrl", JString "not a url");
                       ("topic", JString "Sorting");
                       ("customSubtopics", JArray [JString "Quicksort"])]))
       []
     = (Ok (mkResponse 400
              (JObject [("error", JString "Invalid YouTube URL.")])), [])
  /\ handleAnalyze (replyWorld (Ok ["Quicksort Score: 80"])) v8
       (Some (JObject [("youtubeUrl",
                        JString "https://youtu.be/dQw4w9WgXcQ");
                       ("topic", JString "Sorting");
                       ("customSubtopics", JArray [])]))
       []
     = (Ok (mkResponse 400
              (JObject
                 [("error",
                   JString
                     "YouTube URL, topic, and at least one subtopic are required.")])),
        []).
Proof.
  split; [|split; [|split; [|split; [|split; [|repeat split]]]]].
  - intros w e value tr Hnull Hmiss.
    assert (Hguard : missingField (property "youtubeUrl" value)
                       (property "topic" value)
                       (property "customSubtopics" value) = true).
    { unfold missingField.
      destruct Hmiss as [H|[H|[H|H]]]; rewrite H; cbn [negb orb];
        rewrite ?orb_true_r; reflexivity. }
    unfold handleAnalyze, tryCatch.
    destruct value; try congruence; cbv zeta; rewrite Hguard; reflexivity.
  - intros w e value url tr Hurl Hid.
    unfold handleAnalyze, tryCatch.
    destruct value; try discriminate Hurl; cbv zeta.
    destruct (missingField _ _ _); [eexists; reflexivity|].
    rewrite Hurl. unfold bind, lift. rewrite Hid. eexists. reflexivity.
  - intros w e req tr H. rewrite handleAnalyze_typed.
    now apply analyzeRoute_rejects_typed.
  - intros w e value v tr Hurl Hv Ht1 Ht2 Ht3 Hlen.
    assert (Hguard : missingField (property "youtubeUrl" value)
                       (property "topic" value)
                       (property "customSubtopics" value) = false).
    { unfold missingField. rewrite Hurl, Ht1, Ht2, Ht3, Hlen. reflexivity. }
    unfold handleAnalyze, tryCatch.
    destruct value; try discriminate Hurl; cbv zeta.
    rewrite Hguard, Hurl.
    destruct v; try reflexivity. now elim (Hv s).
  - reflexivity.
Qed.

Lemma handleAnalyze_rejects_bad_input_witness :
  (forall url, JNumber (ofZ 42) <> JString url)
  /\ handleAnalyze (replyWorld (Ok ["Quicksort Score: 80"])) v8
       (Some (JObject [("youtubeUrl", JNumber (ofZ 42));
                       ("topic", JString "Sorting");
                       ("customSubtopics", JArray [JString "Quicksort"])]))
       []
     = (Ok (mkResponse 500 (errorBody "url.match is not a function")),
        [ConsoleError "Analysis error:" "url.match is not a function"]).
Proof.
  assert (Hv : forall url, JNumber (ofZ 42) <> JString url)
    by (intros url; discriminate).
  split; [exact Hv|].
  apply (proj1 (proj2 (proj2 (proj2 handleAnalyze_rejects_bad_input)))
           (replyWorld (Ok ["Quicksort Score: 80"])) v8
           (JObject [("youtubeUrl", JNumber (ofZ 42));
                     ("topic", JString "Sorting");
                     ("customSubtopics", JArray [JString "Quicksort"])])
           (JNumber (ofZ 42)) [] eq_refl Hv eq_refl eq_refl eq_refl eq_refl).
Defined.

(** Whether a variable of the environment is set: to a text that is not
    empty. *)
Lemma truthy_set (value : option string) :
  truthy value = true <-> exists key, value = Some key /\ key <> "".
Proof.
  split.
  - destruct value as [[|c key]|]; try discriminate.
    intros _. eexists. split; [reflexivity|discriminate].
  - intros (key & -> & Hne). destruct key; [congruence|reflexivity].
Qed.

(** C8.  The health reply is made of [status], [message] and two
    booleans: [hasGroqKey] is true exactly when the variable
    [GORQ_API_KEY] (as line 15 spells it) is set to a text that is not
    empty, [hasYouTubeKey] exactly when [YOUTUBE_API_KEY] is.  Two
    configurations whose keys agree on being set have the same reply,
    whatever the keys are. *)
Theorem healthRoute_hides_keys (w1 w2 : World) :
  truthy (GROQ_API_KEY w1) = truthy (GROQ_API_KEY w2) ->
  truthy (YOUTUBE_API_KEY w1) = truthy (YOUTUBE_API_KEY w2) ->
  healthRoute w1 = healthRoute w2
  /\ exists hasGroqKey hasYouTubeKey : bool,
      healthRoute w1 =
      mkResponse 200
        (JObject [("status", JString "OK");
                  ("message", JString "Server running");
                  ("hasGroqKey", JBool hasGroqKey);
                  ("hasYouTubeKey", JBool hasYouTubeKey)])
      /\ (hasGroqKey = true
          <-> exists key, env w1 "GORQ_API_KEY" = Some key /\ key <> "")
      /\ (hasYouTubeKey = true
          <-> exists key, env w1 "YOUTUBE_API_KEY" = Some key /\ key <> "").
Proof.
  intros Hg Hy. unfold healthRoute. rewrite Hg, Hy.
  split; [reflexivity|].
  exists (truthy (GROQ_API_KEY w2)), (truthy (YOUTUBE_API_KEY w2)).
  split; [reflexivity|]. rewrite <- Hg, <- Hy.
  split; apply truthy_set.
Qed.

Lemma healthRoute_hides_keys_witness :
  healthRoute (scriptedWorld (Some "gsk-live") None (Ok []))
  = healthRoute (scriptedWorld (Some "gsk-other") (Some "") (Ok []))
  /\ exists hasGroqKey hasYouTubeKey : bool,
      healthRoute (scriptedWorld (Some "gsk-live") None (Ok [])) =
      mkResponse 200
        (JObject [("status", JString "OK");
                  ("message", JString "Server running");
                  ("hasGroqKey", JBool hasGroqKey);
                  ("hasYouTubeKey", JBool hasYouTubeKey)])
      /\ (hasGroqKey = true
          <-> exists key, Some "gsk-live" = Some key /\ key <> "")
      /\ (hasYouTubeKey = true
          <-> exists key, @None string = Some key /\ key <> "").
Proof.
  apply (healthRoute_hides_keys
           (scriptedWorld (Some "gsk-live") None (Ok []))
           (scriptedWorld (Some "gsk-other") (Some "") (Ok [])));
    reflexivity.
Defined.

(** ** Behaviour at particular inputs *)

(** The examples of a watch, a short and an embed address. *)
Lemma extractVideoId_examples w :
  extractVideoId w "https://www.youtube.com/watch?v=dQw4w9WgXcQ"
  = Ok (Some "dQw4w9WgXcQ")
  /\ extractVideoId w "https://youtu.be/dQw4w9WgXcQ" = Ok (Some "dQw4w9WgXcQ")
  /\ extractVideoId w "https://www.youtube.com/embed/dQw4w9WgXcQ"
     = Ok (Some "dQw4w9WgXcQ").
Proof. repeat split; reflexivity. Qed.

(** C5.  On a short or an embed address whose identifier starts with the
    letter v, the optional [v] of the pattern takes that letter, group 7
    holds the ten characters after it, and [extractVideoId] returns
    [null]. *)
Theorem extractVideoId_leading_v (w : World) :
  String_match regExp "https://youtu.be/v0123456789"
  = Some [Some "https://youtu.be/v0123456789"; Some "youtu.be/";
          Some "youtu.be/"; None; None; None; None; Some "0123456789"]
  /\ extractVideoId w "https://youtu.be/v0123456789" = Ok None
  /\ extractVideoId w "https://www.youtube.com/embed/v0123456789" = Ok None.
Proof. repeat split; reflexivity. Qed.

(** The example of the specification: two labels, scores 80 and 30. *)
Lemma analyzeCoverage_example :
  fst (analyzeCoverage
         (replyWorld (Ok ["Topic A ... Score: 80 Topic B ... Score: 30"]))
         "Today we look at quicksort." ["Topic A"; "Topic B"] "Topics" [])
  = Ok (mkReport (ofZ 55)
          [mkResult "Topic A" (ofZ 80) true "Evidence found in transcript.";
           mkResult "Topic B" (ofZ 30) false "Evidence found in transcript."]
          "Overall coverage based on 2 subtopics.").
Proof. reflexivity. Qed.

(** C3.  The label is used as the text of a pattern, not as a literal:
    with the label C++ the pattern is not well formed, the constructor
    throws and the whole report is the failure report although the reply
    has the label followed by a score; with the label Sorting (basics) the
    parentheses form a group, so the label as written in the reply is not
    found. *)
Theorem parseSubtopic_label_as_pattern :
  RegExp_new ("C++" ++ "[\s\S]*?Score:\s*(\d+)") true = SyntaxError
  /\ fst (analyzeCoverage
            (replyWorld (Ok ["Subtopic: C++ Score: 80 Evidence: covered."]))
            "Today we look at quicksort." ["C++"] "Languages" [])
     = Ok (mkReport (ofZ 0)
             [mkResult "C++" (ofZ 0) false "Failed to analyze coverage."]
             "Failed to generate coverage analysis.")
  /\ forall w : World,
      parseSubtopic w "Subtopic: Sorting (basics) Score: 80" "Sorting (basics)"
      = Ok (mkResult "Sorting (basics)" (ofZ 0) false "No evidence found.").
Proof. repeat split; reflexivity. Qed.

Lemma computeOverallScore_empty : computeOverallScore [] = NaN.
Proof. reflexivity. Qed.

(** C10.  With the one label A|B and a reply that starts with an A, the
    first alternative matches alone, group 1 is undefined, the score of the
    entry is NaN and so is the overall score, although the list is not
    empty. *)
Theorem overallScore_NaN_for_one_subtopic :
  (forall w : World,
      matchPattern w ("A|B" ++ "[\s\S]*?Score:\s*(\d+)") "A|B Score: 80"
      = Ok (Some [Some "A"; None]))
  /\ fst (analyzeCoverage (replyWorld (Ok ["A|B Score: 80"]))
            "Today we look at quicksort." ["A|B"] "Letters" [])
     = Ok (mkReport NaN
             [mkResult "A|B" NaN false "Evidence found in transcript."]
             "Overall coverage based on 1 subtopics.").
Proof. split; reflexivity. Qed.

(* ================================================================== *)
(** * Further properties of the server *)
(* ================================================================== *)

(** ** The remote helpers *)

Lemma getYouTubeVideoData_unfold w videoId tr :
  getYouTubeVideoData w videoId tr =
  match videosApi w tr (videosUrl w videoId) with
  | Ok (Some (snippet :: _)) =>
      (Ok snippet, (tr ++ [HttpGet (videosUrl w videoId)])%list)
  | Ok _ =>
      (Throw (Exn "Video not found"),
       (tr ++ [HttpGet (videosUrl w videoId)])%list)
  | Throw e => (Throw e, (tr ++ [HttpGet (videosUrl w videoId)])%list)
  end.
Proof.
  unfold getYouTubeVideoData, bind, perform, videosUrl.
  destruct (videosApi w tr _) as [[[|snippet rest]|]|e]; reflexivity.
Qed.

Lemma getTranscript_unfold w videoId tr :
  getTranscript w videoId tr =
  match transcriptApi w tr (transcriptUrl videoId) with
  | Ok (Some (String c rest)) =>
      (Ok (String c rest), (tr ++ [HttpGet (transcriptUrl videoId)])%list)
  | _ =>
      match getYouTubeVideoData w videoId
              (tr ++ [HttpGet (transcriptUrl videoId)])%list with
      | (Ok videoData, tr2) =>
          (Ok (match description videoData with
               | EmptyString => "No transcript available."
               | text => text
               end), tr2)
      | (Throw e, tr2) => (Throw e, tr2)
      end
  end.
Proof.
  unfold getTranscript, tryCatch, bind, perform, transcriptUrl.
  destruct (transcriptApi w tr _) as [[[|c rest]|]|e]; simpl;
    try reflexivity;
    match goal with
    | |- context [getYouTubeVideoData w videoId ?t] =>
        destruct (getYouTubeVideoData w videoId t) as [[videoData|e'] tr2]
    end; reflexivity.
Qed.



(** X2.  When [getTranscript] throws, the exception comes from the
    fall-back request to the video service, made after the request to the
    transcript service: it is the error of that request or the error
    "Video not found".  The error of the transcript service and the error
    "Transcript not available" never come out. *)
Theorem getTranscript_error_from_video_service
        (w : World) (videoId : string) (tr tr' : Trace) (e : exn) :
  getTranscript w videoId tr = (Throw e, tr') ->
  tr' = (tr ++ [HttpGet (transcriptUrl videoId);
                HttpGet (videosUrl w videoId)])%list
  /\ (videosApi w (tr ++ [HttpGet (transcriptUrl videoId)])%list
        (videosUrl w videoId) = Throw e
      \/ (e = Exn "Video not found"
          /\ exists items,
              videosApi w (tr ++ [HttpGet (transcriptUrl videoId)])%list
                (videosUrl w videoId) = Ok items
              /\ (items = None \/ items = Some []))).
Proof.
  rewrite getTranscript_unfold, getYouTubeVideoData_unfold. intros H.
  assert (Hv :
            match
              match videosApi w (tr ++ [HttpGet (transcriptUrl videoId)])%list
                      (videosUrl w videoId) with
              | Ok (Some (snippet :: _)) =>
                  (Ok snippet,
                   ((tr ++ [HttpGet (transcriptUrl videoId)]) ++
                    [HttpGet (videosUrl w videoId)])%list)
              | Ok _ =>
                  (Throw (Exn "Video not found"),
                   ((tr ++ [HttpGet (transcriptUrl videoId)]) ++
                    [HttpGet (videosUrl w videoId)])%list)
              | Throw e0 =>
                  (Throw e0,
                   ((tr ++ [HttpGet (transcriptUrl videoId)]) ++
                    [HttpGet (videosUrl w videoId)])%list)
              end
            with
            | (Ok videoData, tr2) =>
                (Ok (match description videoData with
                     | EmptyString => "No transcript available."
                     | text => text
                     end), tr2)
            | (Throw e0, tr2) => (@Throw string e0, tr2)
            end = (Throw e, tr')).
  { destruct (transcriptApi w tr (transcriptUrl videoId))
      as [[[|c rest]|]|e0]; try exact H. discriminate. }
  clear H.
  destruct (videosApi w _ (videosUrl w videoId)) as [[[|snippet rest]|]|e0];
    inversion Hv; subst; rewrite <- app_assoc; simpl;
    (split; [reflexivity|]).
  - right. split; [reflexivity|]. eexists. split; [reflexivity|]. now right.
  - right. split; [reflexivity|]. eexists. split; [reflexivity|]. now left.
  - now left.
Qed.

Lemma getTranscript_error_from_video_service_witness :
  getTranscript
    (mkWorld (fun _ => None) (fun _ _ => Throw (Exn "quota exceeded"))
       (fun _ _ => Throw (Exn "timeout")) (fun _ _ _ _ => Ok [])
       (fun _ _ => Ok None) (fun pattern => pattern) "TypeError")
    "dQw4w9WgXcQ" []
  = (Throw (Exn "quota exceeded"),
     [HttpGet (transcriptUrl "dQw4w9WgXcQ");
      HttpGet
        (videosUrl
           (mkWorld (fun _ => None) (fun _ _ => Throw (Exn "quota exceeded"))
              (fun _ _ => Throw (Exn "timeout")) (fun _ _ _ _ => Ok [])
              (fun _ _ => Ok None) (fun pattern => pattern) "TypeError")
           "dQw4w9WgXcQ")])
  /\ Exn "quota exceeded" <> Exn "timeout".
Proof.
  split; [|discriminate].
  destruct (getTranscript_error_from_video_service
              (mkWorld (fun _ => None)
                 (fun _ _ => Throw (Exn "quota exceeded"))
                 (fun _ _ => Throw (Exn "timeout")) (fun _ _ _ _ => Ok [])
                 (fun _ _ => Ok None) (fun pattern => pattern) "TypeError")
              "dQw4w9WgXcQ" [] _ (Exn "quota exceeded") eq_refl)
    as [Htr _].
  reflexivity.
Defined.

Lemma trimStart_first s c :
  firstChar (trimStart s) = Some c -> isWhiteSpace c = false.
Proof.
  induction s as [|a s IH]; simpl; [discriminate|].
  destruct (isWhiteSpace a) eqn:Ha; [exact IH|].
  simpl. intros H. inversion H; subst. exact Ha.
Qed.

Lemma trimEnd_first s c :
  firstChar (trimEnd s) = Some c -> firstChar s = Some c.
Proof.
  destruct s as [|a s]; simpl; [discriminate|].
  destruct (trimEnd s); [destruct (isWhiteSpace a)|]; simpl; auto.
  discriminate.
Qed.

Lemma trimEnd_last s c :
  lastChar (trimEnd s) = Some c -> isWhiteSpace c = false.
Proof.
  induction s as [|a s IH]; simpl; [discriminate|].
  destruct (trimEnd s) as [|b t] eqn:E.
  - destruct (isWhiteSpace a) eqn:Ha; simpl; [discriminate|].
    intros H. inversion H; subst. exact Ha.
  - intros H. apply IH. exact H.
Qed.

(** X3.  The text that [callGroq] returns neither starts nor ends with
    white space. *)
Theorem callGroq_trimmed
        (w : World) (messages : list GroqMessage) (max_tokens : nat)
        (tr tr' : Trace) (text : string) :
  callGroq w messages max_tokens tr = (Ok text, tr') ->
  (forall c, firstChar text = Some c -> isWhiteSpace c = false)
  /\ (forall c, lastChar text = Some c -> isWhiteSpace c = false).
Proof.
  unfold callGroq, bind, perform.
  destruct (completionApi w tr _ _ _) as [[|first rest]|e];
    try discriminate.
  intros H. inversion H; subst. unfold trim. split; intros c Hc.
  - apply trimEnd_first in Hc. eapply trimStart_first; eauto.
  - eapply trimEnd_last; eauto.
Qed.

Lemma callGroq_trimmed_witness :
  fst (callGroq (replyWorld (Ok ["  Quicksort Score: 80 " ++ nl]))
         (coverageMessages "Today we look at quicksort." ["Quicksort"])
         2000 [])
  = Ok "Quicksort Score: 80"
  /\ (forall c, firstChar "Quicksort Score: 80" = Some c ->
                isWhiteSpace c = false)
  /\ (forall c, lastChar "Quicksort Score: 80" = Some c ->
                isWhiteSpace c = false).
Proof.
  split; [reflexivity|].
  apply (callGroq_trimmed (replyWorld (Ok ["  Quicksort Score: 80 " ++ nl]))
           (coverageMessages "Today we look at quicksort." ["Quicksort"])
           2000 [] _ "Quicksort Score: 80" eq_refl).
Defined.

(** ** [analyzeCoverage] *)

(** Every run of [analyzeCoverage] returns a report, after the POST and
    at most one console line. *)
Lemma analyzeCoverage_run w transcript subtopics topic tr :
  exists report log,
    analyzeCoverage w transcript subtopics topic tr
    = (Ok report,
       (tr ++ HttpPost GROQ_API_URL
                (mkGroqRequest GROQ_MODEL
                   (coverageMessages transcript subtopics) 2000)
                (groqHeaders w) :: log)%list)
    /\ (log = []
        \/ exists text,
            log = [ConsoleError "Coverage analysis error:" text]
            /\ report = failureReport subtopics).
Proof.
  rewrite analyzeCoverage_unfold.
  pose proof (callGroq_trace w (coverageMessages transcript subtopics)
                2000 tr) as Ht.
  destruct (callGroq w _ 2000 tr) as [[responseText|e] tr1];
    simpl in Ht; subst tr1.
  - destruct (mapOutcome _ subtopics) as [entries|e]; simpl.
    + do 2 eexists. split; [reflexivity|now left].
    + do 2 eexists. rewrite <- app_assoc. split; [reflexivity|].
      right. eexists. split; reflexivity.
  - do 2 eexists. rewrite <- app_assoc. split; [reflexivity|].
    right. eexists. split; reflexivity.
Qed.

(** X4.  [analyzeCoverage] makes one request, the POST to the completion
    service, and no other: what it adds to the trace is that request,
    followed by one console line when it falls back to the failure
    report.  There is no second attempt. *)
Theorem analyzeCoverage_single_request
        (w : World) (transcript : string) (subtopics : list string)
        (topic : string) (tr : Trace) :
  exists log,
    snd (analyzeCoverage w transcript subtopics topic tr)
    = (tr ++ HttpPost GROQ_API_URL
               (mkGroqRequest GROQ_MODEL
                  (coverageMessages transcript subtopics) 2000)
               (groqHeaders w) :: log)%list
    /\ (log = []
        \/ exists text,
            log = [ConsoleError "Coverage analysis error:" text]
            /\ fst (analyzeCoverage w transcript subtopics topic tr)
               = Ok (failureReport subtopics)).
Proof.
  destruct (analyzeCoverage_run w transcript subtopics topic tr)
    as (report & log & Hrun & Hlog).
  exists log. rewrite Hrun. simpl. split; [reflexivity|].
  destruct Hlog as [Hlog|(text & Hlog & Hrep)]; [now left|].
  right. exists text. subst report. auto.
Qed.

Lemma parseSubtopic_consistent w responseText sub r :
  parseSubtopic w responseText sub = Ok r ->
  covered r = ge (coverageScore r) (ofZ 50)
  /\ (evidence r = "Evidence found in transcript."
      \/ (evidence r = "No evidence found." /\ coverageScore r = ofZ 0)).
Proof.
  unfold parseSubtopic, obind.
  destruct (matchPattern w _ responseText) as [[a|]|e]; [| |discriminate];
    intros H; inversion H; simpl; split; auto.
Qed.

Lemma mapOutcome_Forall {A B : Type} (f : A -> Outcome B) (P : B -> Prop) :
  (forall x y, f x = Ok y -> P y) ->
  forall xs ys, mapOutcome f xs = Ok ys -> Forall P ys.
Proof.
  intros Hf. induction xs as [|x xs IH]; intros ys H; simpl in H.
  - inversion H. constructor.
  - destruct (f x) as [y|] eqn:Hy; [|discriminate]. simpl in H.
    destruct (mapOutcome f xs) as [ys'|]; [|discriminate].
    inversion H. constructor; eauto.
Qed.

(** X5.  In every report of [analyzeCoverage], on either path, each entry
    has [covered] true exactly when its score is at least 50, and an
    entry with the evidence "No evidence found." or
    "Failed to analyze coverage." has the score 0. *)
Theorem analyzeCoverage_entries_consistent
        (w : World) (transcript : string) (subtopics : list string)
        (topic : string) (tr tr' : Trace) (report : CoverageReport) :
  analyzeCoverage w transcript subtopics topic tr = (Ok report, tr') ->
  Forall (fun s =>
            covered s = ge (coverageScore s) (ofZ 50)
            /\ (evidence s = "Evidence found in transcript."
                \/ ((evidence s = "No evidence found."
                     \/ evidence s = "Failed to analyze coverage.")
                    /\ coverageScore s = ofZ 0)))
         (subtopicAnalysis report).
Proof.
  rewrite analyzeCoverage_unfold.
  assert (Hfail : Forall (fun s =>
            covered s = ge (coverageScore s) (ofZ 50)
            /\ (evidence s = "Evidence found in transcript."
                \/ ((evidence s = "No evidence found."
                     \/ evidence s = "Failed to analyze coverage.")
                    /\ coverageScore s = ofZ 0)))
         (subtopicAnalysis (failureReport subtopics))).
  { simpl. apply Forall_forall. intros s Hs. apply in_map_iff in Hs.
    destruct Hs as (sub & <- & _). simpl. split; [reflexivity|].
    right. split; [now right|reflexivity]. }
  destruct (callGroq w _ 2000 tr) as [[responseText|e] tr1].
  - destruct (mapOutcome _ subtopics) as [entries|e] eqn:Hm;
      intros H; inversion H; subst; [|exact Hfail].
    simpl. eapply mapOutcome_Forall; [|exact Hm].
    intros sub r Hr. apply parseSubtopic_consistent in Hr.
    destruct Hr as [Hc [He|[He Hs]]]; split; auto.
  - intros H; inversion H; subst. exact Hfail.
Qed.

Lemma analyzeCoverage_entries_consistent_witness :
  analyzeCoverage
    (replyWorld (Ok ["Quicksort Score: 80 Heapsort Score: 20"]))
    "Today we look at quicksort." ["Quicksort"; "Heapsort"; "Radix"]
    "Sorting" []
  = (Ok (mkReport (ofZ 33)
           [mkResult "Quicksort" (ofZ 80) true "Evidence found in transcript.";
            mkResult "Heapsort" (ofZ 20) false "Evidence found in transcript.";
            mkResult "Radix" (ofZ 0) false "No evidence found."]
           "Overall coverage based on 3 subtopics."),
     [HttpPost GROQ_API_URL
        (mkGroqRequest GROQ_MODEL
           (coverageMessages "Today we look at quicksort."
              ["Quicksort"; "Heapsort"; "Radix"]) 2000)
        (groqHeaders (replyWorld (Ok []))) ])
  /\ Forall (fun s =>
            covered s = ge (coverageScore s) (ofZ 50)
            /\ (evidence s = "Evidence found in transcript."
                \/ ((evidence s = "No evidence found."
                     \/ evidence s = "Failed to analyze coverage.")
                    /\ coverageScore s = ofZ 0)))
       [mkResult "Quicksort" (ofZ 80) true "Evidence found in transcript.";
        mkResult "Heapsort" (ofZ 20) false "Evidence found in transcript.";
        mkResult "Radix" (ofZ 0) false "No evidence found."].
Proof.
  split; [reflexivity|].
  apply (analyzeCoverage_entries_consistent
           (replyWorld (Ok ["Quicksort Score: 80 Heapsort Score: 20"]))
           "Today we look at quicksort." ["Quicksort"; "Heapsort"; "Radix"]
           "Sorting" [] _ _ eq_refl).
Defined.

Lemma sumZ_bounds lo hi zs :
  Forall (fun z => lo <= z <= hi)%Z zs ->
  (lo * Z.of_nat (length zs) <= sumZ zs <= hi * Z.of_nat (length zs))%Z.
Proof.
  unfold sumZ. induction 1 as [|z zs Hz _ IH]; simpl length; simpl fold_right.
  - lia.
  - rewrite Nat2Z.inj_succ. lia.
Qed.

(** X6.  When the scores of the entries of a report are integers between
    [lo] and [hi] (0 and 100, say), with [lo] not negative and the sum of
    the scores below 2^52 (and fewer than 2^32 entries, as every array
    has), the overall score of the report is an integer between [lo] and
    [hi] too. *)
Theorem overallScore_within_bounds
        (w : World) (transcript : string) (subtopics : list string)
        (topic : string) (tr tr' : Trace) (report : CoverageReport)
        (zs : list Z) (lo hi : Z) :
  analyzeCoverage w transcript subtopics topic tr = (Ok report, tr') ->
  map coverageScore (subtopicAnalysis report) = map ofZ zs ->
  zs <> [] ->
  Forall (fun z => lo <= z <= hi)%Z zs ->
  (0 <= lo)%Z ->
  (sumZ zs < 2 ^ 52)%Z ->
  (Z.of_nat (length zs) < 2 ^ 32)%Z ->
  exists n, overallScore report = ofZ n /\ (lo <= n <= hi)%Z.
Proof.
  rewrite analyzeCoverage_unfold. intros Hrun Hscores Hne Hall Hlo Hsum Hlen.
  assert (Hnonneg : Forall (fun z => 0 <= z)%Z zs)
    by (eapply Forall_impl; [|exact Hall]; simpl; intros; lia).
  assert (Hfail : report = failureReport subtopics ->
                  exists n, overallScore report = ofZ n /\ (lo <= n <= hi)%Z).
  { intros ->. exists 0%Z. split; [reflexivity|].
    destruct zs as [|z zs]; [congruence|].
    destruct subtopics as [|sub subtopics]; [discriminate|].
    simpl in Hscores. injection Hscores as Hz _.
    subst z. now inversion Hall. }
  destruct (callGroq w _ 2000 tr) as [[responseText|e] tr1].
  - destruct (mapOutcome _ subtopics) as [entries|e];
      inversion Hrun; subst; [|now apply Hfail].
    simpl in *.
    destruct (computeOverallScore_integers entries zs Hscores Hne Hnonneg
                Hsum Hlen) as (n & Hn & Hb).
    exists n. split; [exact Hn|].
    pose proof (sumZ_bounds lo hi zs Hall) as Hs.
    assert (0 < Z.of_nat (length zs))%Z
      by (destruct zs; [congruence|simpl; lia]).
    nia.
  - inversion Hrun; subst. now apply Hfail.
Qed.

Lemma overallScore_within_bounds_witness :
  analyzeCoverage
    (replyWorld (Ok ["Quicksort Score: 80 Heapsort Score: 20"]))
    "Today we look at quicksort." ["Quicksort"; "Heapsort"; "Radix"]
    "Sorting" []
  = (Ok (mkReport (ofZ 33)
           [mkResult "Quicksort" (ofZ 80) true "Evidence found in transcript.";
            mkResult "Heapsort" (ofZ 20) false "Evidence found in transcript.";
            mkResult "Radix" (ofZ 0) false "No evidence found."]
           "Overall coverage based on 3 subtopics."),
     [HttpPost GROQ_API_URL
        (mkGroqRequest GROQ_MODEL
           (coverageMessages "Today we look at quicksort."
              ["Quicksort"; "Heapsort"; "Radix"]) 2000)
        (groqHeaders (replyWorld (Ok []))) ])
  /\ Forall (fun z => 0 <= z <= 100)%Z [80; 20; 0]%Z
  /\ (sumZ [80; 20; 0] < 2 ^ 52)%Z
  /\ exists n, ofZ 33 = ofZ n /\ (0 <= n <= 100)%Z.
Proof.
  assert (Hall : Forall (fun z => 0 <= z <= 100)%Z [80; 20; 0]%Z)
    by (repeat constructor; lia).
  split; [reflexivity|]. split; [exact Hall|]. split; [reflexivity|].
  apply (overallScore_within_bounds
           (replyWorld (Ok ["Quicksort Score: 80 Heapsort Score: 20"]))
           "Today we look at quicksort." ["Quicksort"; "Heapsort"; "Radix"]
           "Sorting" [] _ _ [80; 20; 0]%Z 0%Z 100%Z eq_refl eq_refl
           ltac:(discriminate) Hall ltac:(lia) eq_refl eq_refl).
Defined.

(** ** The prompt *)

Lemma length_append s1 s2 :
  String.length (s1 ++ s2) = String.length s1 + String.length s2.
Proof. induction s1 as [|c s1 IH]; simpl; auto. Qed.

Lemma length_take_le n s : String.length (take n s) <= n.
Proof.
  revert s. induction n as [|n IH]; intros [|c s]; simpl; try lia.
  specialize (IH s). lia.
Qed.

Lemma length_truncatedTranscript transcript :
  String.length (truncatedTranscript transcript) <= 4015.
Proof.
  unfold truncatedTranscript.
  destruct (Nat.ltb_spec 4000 (String.length transcript)) as [H|H].
  - rewrite length_append, substring_from_0.
    pose proof (length_take_le 4000 transcript).
    change (String.length "... [truncated]") with 15. lia.
  - lia.
Qed.

(** X7.  The prompt has 275 characters besides the embedded transcript
    and the list of subtopics, and the embedded transcript has at most
    4015 characters whatever the length of the input: the prompt has at
    most 4290 characters besides the list of subtopics. *)
Theorem prompt_length_bounded (transcript : string) (subtopics : list string) :
  String.length (prompt transcript subtopics)
  = 275 + String.length (truncatedTranscript transcript)
    + String.length (join ", " subtopics)
  /\ String.length (truncatedTranscript transcript) <= 4015
  /\ String.length (prompt transcript subtopics)
     <= 4290 + String.length (join ", " subtopics).
Proof.
  pose proof (length_truncatedTranscript transcript) as Hlen.
  assert (Heq : String.length (prompt transcript subtopics)
                = 275 + String.length (truncatedTranscript transcript)
                  + String.length (join ", " subtopics)).
  { unfold prompt.
    repeat rewrite length_append.
    change (String.length nl) with 1. change (String.length dquote) with 1.
    repeat match goal with
           | |- context [String.length (String ?c ?s)] =>
               let n := eval vm_compute in (String.length (String c s)) in
               change (String.length (String c s)) with n
           end.
    lia. }
  split; [exact Heq|]. split; [exact Hlen|]. lia.
Qed.

(** ** The routes *)



(** X9.  Once the video data and the transcript are there, a failure of
    the completion service does not fail the request: the reply is 200 and
    its analysis is the failure report. *)
Theorem analyzeRoute_degrades_to_200
        (w : World) (url tp : string) (subs : list string)
        (videoId : string) (videoData : VideoData) (transcript : string)
        (tr tr1 tr2 : Trace) (e : exn) :
  url <> "" -> tp <> "" -> subs <> [] ->
  extractVideoId w url = Ok (Some videoId) ->
  getYouTubeVideoData w videoId tr = (Ok videoData, tr1) ->
  getTranscript w videoId tr1 = (Ok transcript, tr2) ->
  fst (callGroq w (coverageMessages transcript subs) 2000 tr2) = Throw e ->
  fst (analyzeRoute w (mkRequest (Some url) (Some tp) (Some subs)) tr)
  = Ok (mkResponse 200
          (successBody videoId videoData transcript subs
             (failureReport subs))).
Proof.
  intros Hurl Htp Hsubs Hid Hdata Htext Hcall.
  rewrite analyzeRoute_unfold. simpl.
  destruct url as [|c1 u]; [congruence|].
  destruct tp as [|c2 t]; [congruence|].
  destruct subs as [|sub subs]; [congruence|].
  rewrite analyzeVideo_unfold, Hid, Hdata, Htext, analyzeCoverage_unfold.
  destruct (callGroq w _ 2000 tr2) as [[responseText|e'] tr3];
    simpl in Hcall; [discriminate|].
  reflexivity.
Qed.

Lemma analyzeRoute_degrades_to_200_witness :
  fst (analyzeRoute (replyWorld (Throw (Exn "Network Error")))
         (mkRequest (Some "https://www.youtube.com/watch?v=dQw4w9WgXcQ")
            (Some "Sorting") (Some ["Quicksort"])) [])
  = Ok (mkResponse 200
          (successBody "dQw4w9WgXcQ"
             (mkVideoData "Sorting algorithms" "A lecture on sorting."
                "Lectures" "2024-01-01T00:00:00Z"
                "https://i.ytimg.com/vi/default.jpg")
             "Today we look at quicksort and merge sort." ["Quicksort"]
             (failureReport ["Quicksort"]))).
Proof.
  eapply (analyzeRoute_degrades_to_200
            (replyWorld (Throw (Exn "Network Error")))
            "https://www.youtube.com/watch?v=dQw4w9WgXcQ" "Sorting"
            ["Quicksort"] "dQw4w9WgXcQ");
    try discriminate; reflexivity.
Defined.




(** X11.  The topic of the request has no effect: two requests that differ
    only in their (non-empty) topic get the same reply after the same
    requests. *)
Theorem analyzeRoute_topic_irrelevant
        (w : World) (url : option string) (subs : option (list string))
        (topic1 topic2 : string) (tr : Trace) :
  topic1 <> "" -> topic2 <> "" ->
  analyzeRoute w (mkRequest url (Some topic1) subs) tr
  = analyzeRoute w (mkRequest url (Some topic2) subs) tr.
Proof.
  intros H1 H2. rewrite !analyzeRoute_unfold. simpl.
  destruct topic1 as [|a1 t1]; [congruence|].
  destruct topic2 as [|a2 t2]; [congruence|].
  destruct url as [[|c1 u]|]; reflexivity.
Qed.

Lemma analyzeRoute_topic_irrelevant_witness :
  analyzeRoute (replyWorld (Ok ["Quicksort Score: 80"]))
    (mkRequest (Some "https://youtu.be/dQw4w9WgXcQ") (Some "Sorting")
       (Some ["Quicksort"])) []
  = analyzeRoute (replyWorld (Ok ["Quicksort Score: 80"]))
      (mkRequest (Some "https://youtu.be/dQw4w9WgXcQ") (Some "Cooking")
         (Some ["Quicksort"])) [].
Proof.
  apply (analyzeRoute_topic_irrelevant (replyWorld (Ok ["Quicksort Score: 80"]))
           (Some "https://youtu.be/dQw4w9WgXcQ") (Some ["Quicksort"])
           "Sorting" "Cooking" []); discriminate.
Defined.

(** ** Start-up *)

(** X12.  The lines written at start-up show the port and whether each
    key is set, never a key.  The port is the variable [PORT] when it is
    set to a text that is not empty, and 5000 otherwise; the first
    boolean is true exactly when [GORQ_API_KEY] is set to a text that is
    not empty, the second exactly when [YOUTUBE_API_KEY] is.  Two
    configurations with the same port whose keys agree on being set write
    the same lines. *)
Theorem startupLog_hides_keys (w1 w2 : World) :
  PORT w1 = PORT w2 ->
  truthy (GROQ_API_KEY w1) = truthy (GROQ_API_KEY w2) ->
  truthy (YOUTUBE_API_KEY w1) = truthy (YOUTUBE_API_KEY w2) ->
  startupLog w1 = startupLog w2
  /\ exists (port : string) (groq youtube : bool),
      startupLog w1
      = ["Server running on port " ++ port;
         "Groq key configured: " ++ (if groq then "true" else "false");
         "YouTube API key configured: "
         ++ (if youtube then "true" else "false")]
      /\ (forall value, env w1 "PORT" = Some value -> value <> "" ->
                        port = value)
      /\ (env w1 "PORT" = None \/ env w1 "PORT" = Some "" -> port = "5000")
      /\ (groq = true
          <-> exists key, env w1 "GORQ_API_KEY" = Some key /\ key <> "")
      /\ (youtube = true
          <-> exists key, env w1 "YOUTUBE_API_KEY" = Some key /\ key <> "").
Proof.
  intros Hp Hg Hy. unfold startupLog. rewrite Hp, Hg, Hy.
  split; [reflexivity|].
  exists (PORT w2), (truthy (GROQ_API_KEY w2)), (truthy (YOUTUBE_API_KEY w2)).
  split; [reflexivity|]. rewrite <- Hp, <- Hg, <- Hy.
  split; [|split; [|split; apply truthy_set]].
  - intros value Hv Hne. unfold PORT. rewrite Hv.
    destruct value; [congruence|reflexivity].
  - intros [H|H]; unfold PORT; rewrite H; reflexivity.
Qed.

Lemma startupLog_hides_keys_witness :
  startupLog (scriptedWorld (Some "gsk-live") None (Ok []))
  = ["Server running on port 5000";
     "Groq key configured: true";
     "YouTube API key configured: false"]
  /\ startupLog (scriptedWorld (Some "gsk-live") None (Ok []))
     = startupLog (scriptedWorld (Some "gsk-other") (Some "") (Ok [])).
Proof.
  split; [reflexivity|].
  apply (startupLog_hides_keys
           (scriptedWorld (Some "gsk-live") None (Ok []))
           (scriptedWorld (Some "gsk-other") (Some "") (Ok [])));
    reflexivity.
Defined.

(* ================================================================== *)
(** * The matcher and what a pattern matches *)
(* ================================================================== *)

Lemma orElse_failure z alt :
  orElse z alt = failure -> z = failure /\ alt tt = failure.
Proof. destruct z; simpl; auto; discriminate. Qed.

Section Soundness.
Variable Input : string.
Variable icase : bool.

Lemma RepeatMatcher_sound (m : Matcher) r greedy pI pC :
  (forall x c z, m x c = Matched z ->
                 exists y, Matches Input icase r x y /\ c y = Matched z) ->
  forall fuel min max x c z,
    RepeatMatcher fuel m min max greedy pI pC x c = Matched z ->
    exists y, Matches Input icase (RQuant r min max greedy pI pC) x y
              /\ c y = Matched z.
Proof.
  intros Hm. induction fuel as [|fuel IH]; intros min max x c z H.
  - destruct max as [[|n]|]; simpl in H; try discriminate.
    exists x. split; [constructor; now right|exact H].
  - assert (Hstop0 : max = Some 0 -> c x = Matched z ->
              exists y, Matches Input icase (RQuant r min max greedy pI pC) x y
                        /\ c y = Matched z).
    { intros Hmax Hc. exists x. split; [constructor; now right|exact Hc]. }
    assert (Hstop : min = 0 -> c x = Matched z ->
              exists y, Matches Input icase (RQuant r min max greedy pI pC) x y
                        /\ c y = Matched z).
    { intros Hmin Hc. exists x. split; [constructor; now left|exact Hc]. }
    assert (Hstep : max <> Some 0 ->
              m (mkState (endIndex x) (clearCaptures pI pC (captures x)))
                (fun y =>
                   if ((min =? 0) && (endIndex y =? endIndex x))%bool
                   then failure
                   else RepeatMatcher fuel m (pred min) (option_map pred max)
                          greedy pI pC y c) = Matched z ->
              exists y, Matches Input icase (RQuant r min max greedy pI pC) x y
                        /\ c y = Matched z).
    { intros Hmax H1. apply Hm in H1. destruct H1 as (y & My & Hy).
      destruct ((min =? 0) && (endIndex y =? endIndex x))%bool eqn:Hchk;
        [discriminate|].
      apply IH in Hy. destruct Hy as (y' & My' & Hy').
      exists y'. split; [|exact Hy'].
      eapply MatchesQuantStep; eauto.
      intros ->. simpl in Hchk. now apply Nat.eqb_neq in Hchk. }
    simpl in H.
    destruct max as [[|n]|]; [auto| |];
      (destruct (min =? 0) eqn:Hmin; simpl in H;
       [ apply Nat.eqb_eq in Hmin;
         destruct greedy; simpl in H; apply orElse_Matched in H;
         destruct H as [H|H]; (apply Hstop; assumption)
                              || (apply Hstep; [discriminate|assumption])
       | apply Hstep; [discriminate|assumption] ]).
Qed.

(** Soundness: a match found by the matcher of [r] is a match of [r]. *)
Lemma compile_sound r : forall x c z,
  compile Input icase r x c = Matched z ->
  exists y, Matches Input icase r x y /\ c y = Matched z.
Proof.
  induction r; intros x c z H; cbn [compile] in H.
  - exists x. split; [constructor|exact H].
  - unfold CharacterSetMatcher in H.
    destruct (String.get (endIndex x) Input) as [ch|] eqn:Hg; [|discriminate].
    destruct (Bool.eqb invert _) eqn:Hset; [discriminate|].
    eexists. split; [econstructor; eauto|exact H].
  - apply IHr1 in H. destruct H as (y1 & M1 & H).
    apply IHr2 in H. destruct H as (y2 & M2 & H).
    exists y2. split; [econstructor; eauto|exact H].
  - apply orElse_Matched in H. destruct H as [H|H].
    + apply IHr1 in H. destruct H as (y & M & H).
      exists y. split; [now apply MatchesAltL|exact H].
    + apply IHr2 in H. destruct H as (y & M & H).
      exists y. split; [now apply MatchesAltR|exact H].
  - eapply RepeatMatcher_sound; eauto.
  - apply IHr in H. destruct H as (y & M & H).
    eexists. split; [apply MatchesGroup; exact M|exact H].
  - destruct (endIndex x =? 0) eqn:E; [|discriminate].
    exists x. split; [constructor; now apply Nat.eqb_eq|exact H].
  - destruct (endIndex x =? InputLength Input) eqn:E; [|discriminate].
    exists x. split; [constructor; now apply Nat.eqb_eq|exact H].
  - destruct (Bool.eqb negated _) eqn:E; [discriminate|].
    exists x. split; [now constructor|exact H].
Qed.

Lemma Matches_empty_inv x y : Matches Input icase REmpty x y -> y = x.
Proof. intros H. now inversion H. Qed.

Lemma Matches_charset_inv invert A x y :
  Matches Input icase (RCharSet invert A) x y ->
  exists ch, String.get (endIndex x) Input = Some ch
             /\ Bool.eqb invert (existsb (itemMatches icase ch) A) = false
             /\ y = mkState (S (endIndex x)) (captures x).
Proof. intros H. inversion H; subst. eauto. Qed.

Lemma Matches_seq_inv r1 r2 x z :
  Matches Input icase (RSeq r1 r2) x z ->
  exists y, Matches Input icase r1 x y /\ Matches Input icase r2 y z.
Proof. intros H. inversion H; subst. eauto. Qed.

Lemma Matches_alt_inv r1 r2 x y :
  Matches Input icase (RAlt r1 r2) x y ->
  Matches Input icase r1 x y \/ Matches Input icase r2 x y.
Proof. intros H. inversion H; subst; auto. Qed.

Lemma Matches_quant_inv r min max greedy pI pC x z :
  Matches Input icase (RQuant r min max greedy pI pC) x z ->
  ((min = 0 \/ max = Some 0) /\ z = x)
  \/ (max <> Some 0
      /\ exists y,
          Matches Input icase r
            (mkState (endIndex x) (clearCaptures pI pC (captures x))) y
          /\ (min = 0 -> endIndex y <> endIndex x)
          /\ Matches Input icase
               (RQuant r (pred min) (option_map pred max) greedy pI pC) y z).
Proof. intros H. inversion H; subst; [now left|right; eauto]. Qed.

Lemma Matches_group_inv n r x z :
  Matches Input icase (RGroup n r) x z ->
  exists y, Matches Input icase r x y
            /\ z = mkState (endIndex y)
                     (setCapture n (Some (endIndex x, endIndex y))
                        (captures y)).
Proof. intros H. inversion H; subst. eauto. Qed.

Lemma Matches_start_inv x y :
  Matches Input icase RAssertStart x y -> y = x /\ endIndex x = 0.
Proof. intros H. inversion H; subst. auto. Qed.

Lemma Matches_end_inv x y :
  Matches Input icase RAssertEnd x y ->
  y = x /\ endIndex x = InputLength Input.
Proof. intros H. inversion H; subst. auto. Qed.

Lemma Matches_boundary_inv negated x y :
  Matches Input icase (RWordBoundary negated) x y ->
  y = x
  /\ Bool.eqb negated
       (xorb (IsWordCharBefore Input (endIndex x))
             (IsWordCharBefore Input (S (endIndex x)))) = false.
Proof. intros H. inversion H; subst. auto. Qed.

Lemma RepeatMatcher_complete (m : Matcher) r greedy pI pC :
  (forall x c, m x c = failure ->
               forall y, Matches Input icase r x y -> c y = failure) ->
  forall fuel min max x c,
    RepeatMatcher fuel m min max greedy pI pC x c = failure ->
    forall y, Matches Input icase (RQuant r min max greedy pI pC) x y ->
              c y = failure.
Proof.
  intros Hm. induction fuel as [|fuel IH]; intros min max x c H z Mz;
    apply Matches_quant_inv in Mz.
  - destruct max as [[|n]|]; simpl in H; try discriminate.
    destruct Mz as [[_ ->]|[Hmax _]]; [exact H|congruence].
  - simpl in H.
    assert (Hgo : max <> Some 0 ->
              m (mkState (endIndex x) (clearCaptures pI pC (captures x)))
                (fun y0 =>
                   if ((min =? 0) && (endIndex y0 =? endIndex x))%bool
                   then failure
                   else RepeatMatcher fuel m (pred min) (option_map pred max)
                          greedy pI pC y0 c) = failure ->
              (min = 0 -> c x = failure) ->
              c z = failure).
    { intros Hmax Hfail Hstop.
      destruct Mz as [[[Hmin|Hmax'] ->]|(_ & y & My & Hprog & Mz)];
        [auto|congruence|].
      specialize (Hm _ _ Hfail _ My). simpl in Hm.
      destruct ((min =? 0) && (endIndex y =? endIndex x))%bool eqn:Hchk.
      - apply andb_true_iff in Hchk. destruct Hchk as [E1 E2].
        apply Nat.eqb_eq in E1, E2. exfalso. now apply Hprog.
      - eapply IH; eauto. }
    destruct max as [[|n]|].
    + destruct Mz as [[_ ->]|[Hmax _]]; [exact H|congruence].
    + destruct (min =? 0) eqn:Hmin; simpl in H.
      * destruct greedy; simpl in H; apply orElse_failure in H;
          destruct H as [H1 H2]; apply Hgo; auto; discriminate.
      * apply Hgo; auto; [discriminate|].
        intros ->. discriminate.
    + destruct (min =? 0) eqn:Hmin; simpl in H.
      * destruct greedy; simpl in H; apply orElse_failure in H;
          destruct H as [H1 H2]; apply Hgo; auto; discriminate.
      * apply Hgo; auto; [discriminate|].
        intros ->. discriminate.
Qed.

(** Completeness: when the matcher of [r] fails, the continuation fails
    after every match of [r]. *)
Lemma compile_complete r : forall x c,
  compile Input icase r x c = failure ->
  forall y, Matches Input icase r x y -> c y = failure.
Proof.
  induction r; intros x c H y My; cbn [compile] in H.
  - apply Matches_empty_inv in My. now subst.
  - unfold CharacterSetMatcher in H.
    apply Matches_charset_inv in My. destruct My as (ch & Hg & Hs & ->).
    rewrite Hg, Hs in H. exact H.
  - apply Matches_seq_inv in My. destruct My as (y1 & M1 & M2).
    specialize (IHr1 _ _ H _ M1). simpl in IHr1. eapply IHr2; eauto.
  - apply orElse_failure in H. destruct H as [H1 H2].
    apply Matches_alt_inv in My. destruct My; eauto.
  - eapply RepeatMatcher_complete; eauto.
  - apply Matches_group_inv in My. destruct My as (y1 & M1 & ->).
    exact (IHr _ _ H _ M1).
  - apply Matches_start_inv in My. destruct My as [-> E].
    rewrite E in H. exact H.
  - apply Matches_end_inv in My. destruct My as [-> E].
    rewrite E, Nat.eqb_refl in H. exact H.
  - apply Matches_boundary_inv in My. destruct My as [-> E].
    rewrite E in H. exact H.
Qed.
End Soundness.

(** ** The search order on literals and quantified character sets *)

Lemma drop_get_Some : forall i text ch,
  String.get i text = Some ch -> drop i text = String ch (drop (S i) text).
Proof.
  induction i as [|i IH]; intros [|c text] ch H; simpl in *; try discriminate.
  - inversion H; subst. now destruct text.
  - rewrite (IH _ _ H). reflexivity.
Qed.

Lemma drop_get_None : forall i text,
  String.get i text = None -> drop i text = "".
Proof.
  induction i as [|i IH]; intros [|c text] H; simpl in *; try discriminate;
    auto.
Qed.

Lemma get_None_ge : forall s n,
  String.get n s = None -> String.length s <= n.
Proof.
  induction s as [|a s IH]; intros [|n] H; simpl in *; try discriminate;
    try lia.
  apply IH in H. lia.
Qed.

Lemma get_ge_None : forall s n,
  String.length s <= n -> String.get n s = None.
Proof.
  induction s as [|a s IH]; intros [|n] H; simpl in *; auto; try lia.
  apply IH. lia.
Qed.

Lemma spanAt_step P text i ch :
  String.get i text = Some ch ->
  spanAt P text i = if P ch then S (spanAt P text (S i)) else 0.
Proof.
  intros H. unfold spanAt. rewrite (drop_get_Some _ _ _ H). reflexivity.
Qed.

Lemma spanAt_end P text i :
  String.get i text = None -> spanAt P text i = 0.
Proof.
  intros H. unfold spanAt. now rewrite (drop_get_None _ _ H).
Qed.

Lemma length_drop : forall i text,
  String.length (drop i text) = String.length text - i.
Proof.
  induction i as [|i IH]; intros [|c text]; simpl; auto.
Qed.

Lemma span_le P s : span P s <= String.length s.
Proof.
  induction s as [|c s IH]; simpl; [lia|]. destruct (P c); lia.
Qed.

Lemma spanAt_le P text i : spanAt P text i <= String.length text - i.
Proof.
  unfold spanAt. rewrite <- length_drop. apply span_le.
Qed.

Section Order.
Variable Input : string.
Variable icase : bool.

Lemma CharacterSetMatcher_eq invert A x c :
  CharacterSetMatcher Input icase invert A x c =
  match String.get (endIndex x) Input with
  | Some ch =>
      if admits icase invert A ch
      then c (mkState (S (endIndex x)) (captures x))
      else failure
  | None => failure
  end.
Proof.
  unfold CharacterSetMatcher, admits.
  destruct (String.get (endIndex x) Input); [|reflexivity].
  now destruct (Bool.eqb invert _).
Qed.

(** A literal either is there, and the rest goes on after it, or fails. *)
Lemma compile_literal s r : forall i caps c,
  compile Input icase (literal s r) (mkState i caps) c =
  if occursAt icase s Input i
  then compile Input icase r (mkState (i + String.length s) caps) c
  else failure.
Proof.
  induction s as [|a s IH]; intros i caps c; simpl literal; simpl occursAt.
  - simpl. now rewrite Nat.add_0_r.
  - unfold RChar. cbn [compile]. rewrite CharacterSetMatcher_eq.
    simpl endIndex.
    destruct (String.get i Input) as [ch|]; [|reflexivity].
    unfold admits. simpl existsb. rewrite orb_false_r. simpl Bool.eqb.
    destruct (N.eqb (Canonicalize icase a) (Canonicalize icase ch));
      simpl; [|reflexivity].
    rewrite IH. simpl String.length.
    now rewrite Nat.add_succ_r.
Qed.

Lemma succ_eqb_false i : (S i =? i) = false.
Proof. apply Nat.eqb_neq. lia. Qed.

Lemma RepeatMatcher_star (m : Matcher) fuel greedy pI pC x c :
  RepeatMatcher (S fuel) m 0 None greedy pI pC x c =
  if greedy
  then orElse
         (m (mkState (endIndex x) (clearCaptures pI pC (captures x)))
            (fun y => if endIndex y =? endIndex x then failure
                      else RepeatMatcher fuel m 0 None greedy pI pC y c))
         (fun _ => c x)
  else orElse (c x)
         (fun _ =>
            m (mkState (endIndex x) (clearCaptures pI pC (captures x)))
              (fun y => if endIndex y =? endIndex x then failure
                        else RepeatMatcher fuel m 0 None greedy pI pC y c)).
Proof. destruct greedy; reflexivity. Qed.

(** [set*], greedy. *)
Lemma star_greedy invert A pI : forall fuel i caps c,
  spanAt (admits icase invert A) Input i < fuel ->
  RepeatMatcher fuel (compile Input icase (RCharSet invert A))
    0 None true pI 0 (mkState i caps) c
  = tryDown c caps i (spanAt (admits icase invert A) Input i).
Proof.
  induction fuel as [|fuel IH]; intros i caps c Hf; [lia|].
  rewrite RepeatMatcher_star. cbn [compile].
  rewrite CharacterSetMatcher_eq. cbn [endIndex captures clearCaptures].
  destruct (String.get i Input) as [ch|] eqn:Hg.
  - rewrite (spanAt_step _ _ _ _ Hg) in *.
    destruct (admits icase invert A ch); [|reflexivity].
    rewrite succ_eqb_false, IH by lia. reflexivity.
  - rewrite (spanAt_end _ _ _ Hg). reflexivity.
Qed.

(** [set*?], lazy. *)
Lemma star_lazy invert A pI : forall fuel i caps c,
  spanAt (admits icase invert A) Input i < fuel ->
  RepeatMatcher fuel (compile Input icase (RCharSet invert A))
    0 None false pI 0 (mkState i caps) c
  = tryUp c caps i (spanAt (admits icase invert A) Input i).
Proof.
  induction fuel as [|fuel IH]; intros i caps c Hf; [lia|].
  rewrite RepeatMatcher_star. cbn [compile].
  rewrite CharacterSetMatcher_eq. cbn [endIndex captures clearCaptures].
  destruct (String.get i Input) as [ch|] eqn:Hg.
  - rewrite (spanAt_step _ _ _ _ Hg) in *.
    destruct (admits icase invert A ch).
    + rewrite succ_eqb_false, IH by lia. reflexivity.
    + simpl. now destruct (c (mkState i caps)).
  - rewrite (spanAt_end _ _ _ Hg). simpl. now destruct (c (mkState i caps)).
Qed.

(** [set+], greedy: one character of the set, then [set*]. *)
Lemma plus_greedy invert A pI fuel i caps c :
  S (spanAt (admits icase invert A) Input (S i)) < fuel ->
  RepeatMatcher fuel (compile Input icase (RCharSet invert A))
    1 None true pI 0 (mkState i caps) c
  = match String.get i Input with
    | Some ch =>
        if admits icase invert A ch
        then tryDown c caps (S i) (spanAt (admits icase invert A) Input (S i))
        else failure
    | None => failure
    end.
Proof.
  intros Hf. destruct fuel as [|fuel]; [lia|].
  change (RepeatMatcher (S fuel) (compile Input icase (RCharSet invert A))
            1 None true pI 0 (mkState i caps) c)
    with (compile Input icase (RCharSet invert A) (mkState i caps)
            (fun y => RepeatMatcher fuel
                        (compile Input icase (RCharSet invert A))
                        0 None true pI 0 y c)).
  cbn [compile]. rewrite CharacterSetMatcher_eq. cbn [endIndex captures].
  destruct (String.get i Input) as [ch|]; [|reflexivity].
  destruct (admits icase invert A ch); [|reflexivity].
  apply star_greedy. lia.
Qed.

Lemma RepeatMatcher_max0 (m : Matcher) fuel min greedy pI pC x c :
  RepeatMatcher fuel m min (Some 0) greedy pI pC x c = c x.
Proof. destruct fuel; reflexivity. Qed.

(** [set?], greedy. *)
Lemma optional_greedy invert A pI fuel i caps c :
  0 < fuel ->
  RepeatMatcher fuel (compile Input icase (RCharSet invert A))
    0 (Some 1) true pI 0 (mkState i caps) c
  = match String.get i Input with
    | Some ch =>
        if admits icase invert A ch
        then orElse (c (mkState (S i) caps)) (fun _ => c (mkState i caps))
        else c (mkState i caps)
    | None => c (mkState i caps)
    end.
Proof.
  intros Hf. destruct fuel as [|fuel]; [lia|].
  change (RepeatMatcher (S fuel) (compile Input icase (RCharSet invert A))
            0 (Some 1) true pI 0 (mkState i caps) c)
    with (orElse
            (compile Input icase (RCharSet invert A) (mkState i caps)
               (fun y => if endIndex y =? i then failure
                         else RepeatMatcher fuel
                                (compile Input icase (RCharSet invert A))
                                0 (Some 0) true pI 0 y c))
            (fun _ => c (mkState i caps))).
  cbn [compile]. rewrite CharacterSetMatcher_eq. cbn [endIndex captures].
  destruct (String.get i Input) as [ch|]; [|reflexivity].
  destruct (admits icase invert A ch); [|reflexivity].
  now rewrite succ_eqb_false, RepeatMatcher_max0.
Qed.

(** Where [tryDown] and [tryUp] stop. *)
Lemma tryDown_failure c caps : forall n i,
  (forall j, j <= n -> c (mkState (i + j) caps) = failure) ->
  tryDown c caps i n = failure.
Proof.
  induction n as [|n IH]; intros i H; simpl.
  - specialize (H 0). rewrite Nat.add_0_r in H. apply H. lia.
  - rewrite IH.
    + simpl. specialize (H 0). rewrite Nat.add_0_r in H. apply H. lia.
    + intros j Hj. specialize (H (S j)).
      rewrite Nat.add_succ_r in H. simpl. apply H. lia.
Qed.

Lemma tryDown_found c caps z : forall n i k,
  k <= n ->
  c (mkState (i + k) caps) = Matched z ->
  (forall j, k < j <= n -> c (mkState (i + j) caps) = failure) ->
  tryDown c caps i n = Matched z.
Proof.
  induction n as [|n IH]; intros i k Hk Hc Hfail; simpl.
  - assert (k = 0) by lia. subst. now rewrite Nat.add_0_r in Hc.
  - destruct k as [|k].
    + rewrite Nat.add_0_r in Hc.
      rewrite tryDown_failure; [simpl; exact Hc|].
      intros j Hj. specialize (Hfail (S j)).
      rewrite Nat.add_succ_r in Hfail. simpl. apply Hfail. lia.
    + rewrite (IH (S i) k); [reflexivity|lia| |].
      * simpl. now rewrite Nat.add_succ_r in Hc.
      * intros j Hj. specialize (Hfail (S j)).
        rewrite Nat.add_succ_r in Hfail. simpl. apply Hfail. lia.
Qed.

Lemma tryUp_found c caps z : forall n i k,
  k <= n ->
  c (mkState (i + k) caps) = Matched z ->
  (forall j, j < k -> c (mkState (i + j) caps) = failure) ->
  tryUp c caps i n = Matched z.
Proof.
  induction n as [|n IH]; intros i k Hk Hc Hfail; simpl.
  - assert (k = 0) by lia. subst. now rewrite Nat.add_0_r in Hc.
  - destruct k as [|k].
    + rewrite Nat.add_0_r in Hc. now rewrite Hc.
    + pose proof (Hfail 0) as H0. rewrite Nat.add_0_r in H0.
      rewrite H0 by lia. simpl.
      apply (IH (S i) k); [lia| |].
      * simpl. now rewrite Nat.add_succ_r in Hc.
      * intros j Hj. specialize (Hfail (S j)).
        rewrite Nat.add_succ_r in Hfail. simpl. apply Hfail. lia.
Qed.

Lemma tryUp_failure c caps : forall n i,
  (forall j, j <= n -> c (mkState (i + j) caps) = failure) ->
  tryUp c caps i n = failure.
Proof.
  induction n as [|n IH]; intros i H; simpl.
  - specialize (H 0). rewrite Nat.add_0_r in H. apply H. lia.
  - pose proof (H 0) as H0. rewrite Nat.add_0_r in H0.
    rewrite H0 by lia. simpl. apply IH.
    intros j Hj. specialize (H (S j)).
    rewrite Nat.add_succ_r in H. simpl. apply H. lia.
Qed.
End Order.

Lemma tryDown_top c caps z n i :
  c (mkState (i + n) caps) = Matched z -> tryDown c caps i n = Matched z.
Proof.
  intros H. apply (tryDown_found c caps z n i n); [lia|exact H|].
  intros j Hj. lia.
Qed.

Lemma span_ext P Q s : (forall ch, P ch = Q ch) -> span P s = span Q s.
Proof.
  intros H. induction s as [|c s IH]; simpl; [reflexivity|].
  rewrite H, IH. reflexivity.
Qed.

Lemma spanAt_ext P Q text i :
  (forall ch, P ch = Q ch) -> spanAt P text i = spanAt Q text i.
Proof. intros H. unfold spanAt. now apply span_ext. Qed.

Lemma span_all P s : (forall ch, P ch = true) -> span P s = String.length s.
Proof.
  intros H. induction s as [|c s IH]; simpl; [reflexivity|].
  now rewrite H, IH.
Qed.

Lemma spanAt_all P text i :
  (forall ch, P ch = true) -> spanAt P text i = String.length text - i.
Proof.
  intros H. unfold spanAt. rewrite span_all by exact H. apply length_drop.
Qed.

(** The characters of a span satisfy the predicate, and the character
    after it does not. *)
Lemma spanAt_inside P text : forall k i,
  k < spanAt P text i ->
  exists ch, String.get (i + k) text = Some ch /\ P ch = true.
Proof.
  induction k as [|k IH]; intros i H.
  - rewrite Nat.add_0_r.
    destruct (String.get i text) as [ch|] eqn:Hg.
    + rewrite (spanAt_step _ _ _ _ Hg) in H.
      destruct (P ch) eqn:HP; [eauto|lia].
    + rewrite (spanAt_end _ _ _ Hg) in H. lia.
  - destruct (String.get i text) as [ch|] eqn:Hg.
    + rewrite (spanAt_step _ _ _ _ Hg) in H.
      destruct (P ch) eqn:HP; [|lia].
      rewrite Nat.add_succ_r. apply (IH (S i)). lia.
    + rewrite (spanAt_end _ _ _ Hg) in H. lia.
Qed.

Lemma spanAt_stop P text : forall i ch,
  String.get (i + spanAt P text i) text = Some ch -> P ch = false.
Proof.
  intros i. remember (spanAt P text i) as n eqn:Hn.
  revert i Hn. induction n as [|n IH]; intros i Hn ch H.
  - rewrite Nat.add_0_r in H. rewrite (spanAt_step _ _ _ _ H) in Hn.
    destruct (P ch); [discriminate|reflexivity].
  - destruct (String.get i text) as [c0|] eqn:Hg.
    + rewrite (spanAt_step _ _ _ _ Hg) in Hn.
      destruct (P c0); [|discriminate].
      apply (IH (S i)); [lia|]. now rewrite Nat.add_succ_r in H.
    + rewrite (spanAt_end _ _ _ Hg) in Hn. discriminate.
Qed.

(* ================================================================== *)
(** * The parse of a subtopic whose label has no syntax character *)
(* ================================================================== *)

(** ** The pattern of such a label *)

Lemma parseQuantifier_none r pI pC c s :
  negb (isSyntaxCharacter c) = true \/ c = "["%char ->
  parseQuantifier r pI pC (String c s) = Parsed (r, String c s).
Proof.
  intros [H| ->]; [|reflexivity].
  destruct c as [[] [] [] [] [] [] [] []]; try discriminate H; reflexivity.
Qed.

Lemma parseTerm_plain c rest g fuel :
  negb (isSyntaxCharacter c) = true ->
  (forall r pI pC, parseQuantifier r pI pC rest = Parsed (r, rest)) ->
  parseTerm (S (S fuel)) (String c rest) g = Parsed (RChar c, rest, g).
Proof.
  intros Hc Hq.
  destruct c as [[] [] [] [] [] [] [] []]; try discriminate Hc;
    cbn [parseTerm parseAtom pbind]; rewrite Hq; reflexivity.
Qed.

Lemma parseAlternative_unfold fuel s g :
  parseAlternative (S fuel) s g =
  match s with
  | EmptyString | String "|" _ | String ")" _ => Parsed (REmpty, s, g)
  | _ =>
      pbind (parseTerm fuel s g) (fun '(r1, s1, g1) =>
      pbind (parseAlternative fuel s1 g1) (fun '(r2, s2, g2) =>
      Parsed (RSeq r1 r2, s2, g2)))
  end.
Proof. reflexivity. Qed.

Lemma parseAlternative_plain_step c rest g fuel :
  negb (isSyntaxCharacter c) = true ->
  (forall r pI pC, parseQuantifier r pI pC rest = Parsed (r, rest)) ->
  parseAlternative (S (S (S fuel))) (String c rest) g =
  pbind (parseAlternative (S (S fuel)) rest g) (fun '(r2, s2, g2) =>
  Parsed (RSeq (RChar c) r2, s2, g2)).
Proof.
  intros Hc Hq. rewrite parseAlternative_unfold.
  rewrite (parseTerm_plain c rest g fuel Hc Hq).
  destruct c as [[] [] [] [] [] [] [] []]; try discriminate Hc; reflexivity.
Qed.

Lemma scorePattern_no_quantifier r pI pC label :
  isPlain label = true ->
  parseQuantifier r pI pC (label ++ scorePattern)
  = Parsed (r, label ++ scorePattern).
Proof.
  intros H. destruct label as [|c label]; [reflexivity|].
  simpl in H. apply andb_true_iff in H. destruct H as [Hc _].
  simpl append. apply parseQuantifier_none. now left.
Qed.

Lemma parseAlternative_label : forall label k,
  isPlain label = true ->
  parseAlternative (String.length label + (40 + k)) (label ++ scorePattern) 0
  = Parsed (literal label scoreRegex, "", 1).
Proof.
  induction label as [|c label IH]; intros k H.
  - vm_compute. reflexivity.
  - simpl in H. apply andb_true_iff in H. destruct H as [Hc Hl].
    simpl String.length. simpl append.
    replace (S (String.length label) + (40 + k))
      with (S (S (S (String.length label + (37 + S k))))) by lia.
    rewrite parseAlternative_plain_step;
      [|exact Hc|intros; now apply scorePattern_no_quantifier].
    replace (S (S (String.length label + (37 + S k))))
      with (String.length label + (40 + k)) by lia.
    rewrite IH by exact Hl. reflexivity.
Qed.

(** The pattern built for a label without syntax characters is well
    formed: it is the label, character by character, then the score
    part. *)
Lemma RegExp_new_label label :
  isPlain label = true ->
  RegExp_new (label ++ scorePattern) true
  = Parsed (mkRegExp (literal label scoreRegex) 1 true).
Proof.
  intros H. unfold RegExp_new.
  assert (Hlen : String.length (label ++ scorePattern)
                 = String.length label + 22).
  { rewrite length_append. reflexivity. }
  rewrite Hlen.
  replace (4 * (String.length label + 22) + 4)
    with (S (String.length label + (40 + (3 * String.length label + 51))))
    by lia.
  cbn [parseDisjunction].
  rewrite parseAlternative_label by exact H. reflexivity.
Qed.

(** ** The search for the score *)

Lemma admits_any ch :
  admits true false [CiEscape Space; CiEscape NotSpace] ch = true.
Proof. unfold admits. simpl. now destruct (isWhiteSpace ch). Qed.

Lemma admits_space ch : admits true false [CiEscape Space] ch = isWhiteSpace ch.
Proof. unfold admits. simpl. now destruct (isWhiteSpace ch). Qed.

Lemma admits_digit ch : admits true false [CiEscape Digit] ch = isDigit ch.
Proof. unfold admits. simpl. now destruct (isDigit ch). Qed.

Lemma whiteSpace_not_digit ch : isWhiteSpace ch = true -> isDigit ch = false.
Proof.
  destruct ch as [[] [] [] [] [] [] [] []]; intros H;
    try discriminate H; reflexivity.
Qed.

Section ScoreSearch.
Variable text : string.

(** The group of digits at index [a]. *)
Lemma compile_digits caps a :
  compile text true
    (RSeq (RGroup 1
             (RSeq (RQuant (RCharSet false [CiEscape Digit]) 1 None true 1 0)
                REmpty))
       REmpty)
    (mkState a caps) Matched
  = match String.get a text with
    | Some ch =>
        if isDigit ch
        then Matched
               (mkState (S a + spanAt isDigit text (S a))
                  (setCapture 1
                     (Some (a, S a + spanAt isDigit text (S a))) caps))
        else failure
    | None => failure
    end.
Proof.
  cbn [compile endIndex].
  rewrite (plus_greedy text true false [CiEscape Digit]).
  - destruct (String.get a text) as [ch|]; [|reflexivity].
    rewrite admits_digit. destruct (isDigit ch); [|reflexivity].
    rewrite (spanAt_ext _ isDigit) by apply admits_digit.
    apply tryDown_top. reflexivity.
  - pose proof (spanAt_le (admits true false [CiEscape Digit]) text (S a)).
    unfold InputLength. lia.
Qed.

(** The score part at index [j]. *)
Lemma compile_scoreAt caps j :
  compile text true
    (literal "Score:"
       (RSeq (RQuant (RCharSet false [CiEscape Space]) 0 None true 0 0)
          (RSeq (RGroup 1
                   (RSeq (RQuant (RCharSet false [CiEscape Digit])
                            1 None true 1 0)
                      REmpty))
             REmpty)))
    (mkState j caps) Matched
  = match scoreAt text j with
    | Some (a, b) => Matched (mkState b (setCapture 1 (Some (a, b)) caps))
    | None => failure
    end.
Proof.
  rewrite compile_literal. unfold scoreAt.
  destruct (occursAt true "Score:" text j); [|reflexivity].
  change (String.length "Score:") with 6.
  set (digits := RSeq (RGroup 1 _) REmpty).
  cbn [compile endIndex].
  rewrite (star_greedy text true false [CiEscape Space]).
  2:{ pose proof (spanAt_le (admits true false [CiEscape Space]) text (j + 6)).
      unfold InputLength. lia. }
  rewrite (spanAt_ext _ isWhiteSpace) by apply admits_space.
  set (n := spanAt isWhiteSpace text (j + 6)).
  assert (Hbelow : forall k, k < n ->
            compile text true digits (mkState (j + 6 + k) caps) Matched
            = failure).
  { intros k Hk. unfold digits. rewrite compile_digits.
    destruct (spanAt_inside isWhiteSpace text k (j + 6) Hk) as (ch & Hg & Hw).
    rewrite Hg, (whiteSpace_not_digit ch Hw). reflexivity. }
  assert (Hat : compile text true digits (mkState (j + 6 + n) caps) Matched
                = match String.get (j + 6 + n) text with
                  | Some ch =>
                      if isDigit ch
                      then Matched
                             (mkState
                                (S (j + 6 + n)
                                 + spanAt isDigit text (S (j + 6 + n)))
                                (setCapture 1
                                   (Some (j + 6 + n,
                                          S (j + 6 + n)
                                          + spanAt isDigit text
                                              (S (j + 6 + n))))
                                   caps))
                      else failure
                  | None => failure
                  end).
  { unfold digits. apply compile_digits. }
  clearbody digits.
  destruct (String.get (j + 6 + n) text) as [ch|].
  - destruct (isDigit ch).
    + apply (tryDown_found _ caps _ n (j + 6) n); [lia|exact Hat|intros; lia].
    + apply tryDown_failure. intros k Hk.
      destruct (Nat.eq_dec k n) as [->|Hne]; [exact Hat|apply Hbelow; lia].
  - apply tryDown_failure. intros k Hk.
    destruct (Nat.eq_dec k n) as [->|Hne]; [exact Hat|apply Hbelow; lia].
Qed.

Lemma tryUp_firstScore caps : forall n j,
  tryUp
    (fun y =>
       compile text true
         (literal "Score:"
            (RSeq (RQuant (RCharSet false [CiEscape Space]) 0 None true 0 0)
               (RSeq (RGroup 1
                        (RSeq (RQuant (RCharSet false [CiEscape Digit])
                                 1 None true 1 0)
                           REmpty))
                  REmpty)))
         y Matched)
    caps j n
  = match firstScore text j n with
    | Some (a, b) => Matched (mkState b (setCapture 1 (Some (a, b)) caps))
    | None => failure
    end.
Proof.
  induction n as [|n IH]; intros j; cbn [tryUp firstScore]; cbv beta;
    rewrite compile_scoreAt;
    destruct (scoreAt text j) as [[a b]|]; try reflexivity.
  cbn [orElse]. apply IH.
Qed.

(** The whole pattern of a label, tried at index [i]. *)
Lemma compile_label label caps i :
  compile text true (literal label scoreRegex) (mkState i caps) Matched
  = match
      (if occursAt true label text i
       then firstScore text (i + String.length label)
              (String.length text - (i + String.length label))
       else None)
    with
    | Some (a, b) => Matched (mkState b (setCapture 1 (Some (a, b)) caps))
    | None => failure
    end.
Proof.
  rewrite compile_literal.
  destruct (occursAt true label text i); [|reflexivity].
  unfold scoreRegex. cbn [compile endIndex].
  rewrite (star_lazy text true false [CiEscape Space; CiEscape NotSpace]).
  2:{ pose proof (spanAt_le
                    (admits true false [CiEscape Space; CiEscape NotSpace])
                    text (i + String.length label)).
      unfold InputLength. lia. }
  rewrite (spanAt_all _ text _ admits_any).
  apply tryUp_firstScore.
Qed.

Lemma searchFrom_label label : forall tries i,
  fst (searchFrom text true (mkRegExp (literal label scoreRegex) 1 true)
         tries i)
  = match findLabelScore label text i tries with
    | Some (a, b) => Matched (mkState b [Some (a, b)])
    | None => failure
    end.
Proof.
  induction tries as [|tries IH]; intros i; [reflexivity|].
  cbn [searchFrom findLabelScore source nCaptures repeat].
  rewrite compile_label.
  destruct (if occursAt true label text i then _ else None) as [[a b]|];
    [reflexivity|].
  apply IH.
Qed.

(** What [match] returns for the pattern of a label: in element 1, the
    digits of the score of the label. *)
Lemma String_match_label label :
  match String_match (mkRegExp (literal label scoreRegex) 1 true) text with
  | Some m => labelScore label text = nth 1 m None
              /\ nth 1 m None <> None
  | None => labelScore label text = None
  end.
Proof.
  unfold String_match, labelScore.
  pose proof (searchFrom_label label (S (String.length text)) 0) as H.
  cbn [ignoreCase] in *.
  destruct (searchFrom text true _ _ 0) as [res idx]. cbn [fst] in H. subst res.
  destruct (findLabelScore label text 0 (S (String.length text)))
    as [[a b]|]; simpl; [|reflexivity].
  split; [reflexivity|discriminate].
Qed.
End ScoreSearch.

(** The parse of a label without syntax characters, without regular
    expressions. *)
Lemma parseSubtopic_plain w text label :
  isPlain label = true ->
  parseSubtopic w text label = Ok (entryFor label (labelScore label text)).
Proof.
  intros H. unfold parseSubtopic, matchPattern.
  change (label ++ "[\s\S]*?Score:\s*(\d+)") with (label ++ scorePattern).
  rewrite (RegExp_new_label label H). simpl obind.
  pose proof (String_match_label text label) as Hm.
  destruct (String_match _ text) as [m|].
  - destruct Hm as [Hm Hsome]. rewrite Hm.
    destruct (nth 1 m None) as [d|]; [reflexivity|congruence].
  - rewrite Hm. reflexivity.
Qed.

(** ** Texts made of parts *)

Lemma drop_length_app s1 s2 : drop (String.length s1) (s1 ++ s2) = s2.
Proof. induction s1 as [|c s1 IH]; simpl; [now destruct s2|exact IH]. Qed.

Lemma take_length_app s1 s2 : take (String.length s1) (s1 ++ s2) = s1.
Proof. induction s1 as [|c s1 IH]; simpl; [now destruct s2|now rewrite IH]. Qed.

Lemma drop_add : forall a b s, drop (a + b) s = drop b (drop a s).
Proof.
  induction a as [|a IH]; intros b s; simpl.
  - now destruct s; destruct b.
  - destruct s as [|c s]; [now destruct b|apply IH].
Qed.

Lemma get_drop : forall a i s, String.get i (drop a s) = String.get (a + i) s.
Proof.
  induction a as [|a IH]; intros i s; simpl.
  - now destruct s.
  - destruct s as [|c s]; [now destruct i|apply IH].
Qed.

Lemma drop_take : forall a n s, drop a (take (a + n) s) = take n (drop a s).
Proof.
  induction a as [|a IH]; intros n s; simpl.
  - destruct (take n s) eqn:E; destruct s; try reflexivity; now destruct n.
  - destruct s as [|c s]; [now destruct n|apply IH].
Qed.

Lemma substring_take_drop a n s :
  substring a (a + n) s = take n (drop a s).
Proof.
  unfold substring.
  rewrite Nat.min_l, Nat.max_r by lia. apply drop_take.
Qed.

Lemma occursAt_drop icase needle : forall text i,
  occursAt icase needle text i = occursAt icase needle (drop i text) 0.
Proof.
  induction needle as [|c needle IH]; intros text i; simpl; [reflexivity|].
  rewrite get_drop, Nat.add_0_r.
  destruct (String.get i text) as [ch|]; [|reflexivity].
  rewrite IH, (IH (drop i text) 1).
  replace (S i) with (i + 1) by lia. now rewrite drop_add.
Qed.

Lemma occursAt_prefix icase needle : forall rest,
  occursAt icase needle (needle ++ rest) 0 = true.
Proof.
  induction needle as [|c needle IH]; intros rest; simpl; [reflexivity|].
  rewrite N.eqb_refl. simpl.
  rewrite occursAt_drop. simpl. apply IH.
Qed.

Lemma occursAt_app icase needle before rest :
  occursAt icase needle (before ++ needle ++ rest) (String.length before)
  = true.
Proof. rewrite occursAt_drop, drop_length_app. apply occursAt_prefix. Qed.

Lemma span_app P s1 s2 :
  allChars P s1 = true ->
  span P (s1 ++ s2) = String.length s1 + span P s2.
Proof.
  induction s1 as [|c s1 IH]; simpl; intros H; [reflexivity|].
  apply andb_true_iff in H. destruct H as [Hc H].
  now rewrite Hc, IH.
Qed.

Lemma span_stop P s : startsWith P s = false -> span P s = 0.
Proof. destruct s as [|c s]; simpl; [reflexivity|]. now intros ->. Qed.

Lemma allChars_take_span P : forall s, allChars P (take (span P s) s) = true.
Proof.
  induction s as [|c s IH]; simpl; [reflexivity|].
  destruct (P c) eqn:E; simpl; [now rewrite E|reflexivity].
Qed.

Lemma digit_not_whiteSpace ch : isDigit ch = true -> isWhiteSpace ch = false.
Proof.
  intros H. destruct (isWhiteSpace ch) eqn:E; [|reflexivity].
  apply whiteSpace_not_digit in E. congruence.
Qed.

(** ** [parseInt] on a text of digits *)

Lemma digitOf_digit c :
  isDigit c = true -> digitOf 10 c = Some (Z.of_N (code c) - 48)%Z.
Proof.
  destruct c as [[] [] [] [] [] [] [] []]; intros H;
    try discriminate H; reflexivity.
Qed.

Lemma parseDigits_decimal : forall s acc,
  allChars isDigit s = true ->
  parseDigits 10 (Some acc) s = Some (decimal acc s).
Proof.
  induction s as [|c s IH]; intros acc H;
    cbn [decimal allChars parseDigits] in *; [reflexivity|].
  apply andb_true_iff in H. destruct H as [Hc H].
  rewrite (digitOf_digit c Hc). now rewrite IH.
Qed.

Lemma decimal_nonneg : forall s acc,
  allChars isDigit s = true -> (0 <= acc)%Z -> (0 <= decimal acc s)%Z.
Proof.
  induction s as [|c s IH]; intros acc H Hacc; cbn [decimal allChars] in *;
    [exact Hacc|].
  apply andb_true_iff in H. destruct H as [Hc H].
  apply IH; [exact H|].
  assert (48 <= Z.of_N (code c))%Z; [|lia].
  unfold isDigit, in_range in Hc. apply andb_true_iff in Hc.
  destruct Hc as [Hlo _]. apply N.leb_le in Hlo. lia.
Qed.

(** [parseInt] of a run of digits is the Number nearest to the integer
    that the digits write. *)
Lemma parseInt_decimal s :
  allChars isDigit s = true -> s <> "" ->
  parseInt (Some s) = round64 (inject_Z (decimal 0 s)).
Proof.
  intros H Hne. destruct s as [|c s]; [congruence|].
  simpl in H. apply andb_true_iff in H. destruct H as [Hc H].
  unfold parseInt. simpl interpolate. simpl trimStart.
  rewrite (digit_not_whiteSpace c Hc).
  assert (Hsign : stripSign (String c s) = (1%Z, String c s)).
  { destruct c as [[] [] [] [] [] [] [] []]; try discriminate Hc;
      reflexivity. }
  rewrite Hsign.
  assert (Hhex : stripHexPrefix (String c s) = (10%Z, String c s)).
  { destruct s as [|c' s]; [now destruct c as [[] [] [] [] [] [] [] []]|].
    simpl in H. apply andb_true_iff in H. destruct H as [Hc' _].
    destruct c as [[] [] [] [] [] [] [] []]; try reflexivity;
      destruct c' as [[] [] [] [] [] [] [] []]; try discriminate Hc';
      reflexivity. }
  rewrite Hhex. cbn [parseDigits]. rewrite (digitOf_digit c Hc).
  rewrite parseDigits_decimal by exact H.
  cbn [decimal]. now rewrite Z.mul_1_l.
Qed.

Lemma ge_ofZ a b : ge (ofZ a) (ofZ b) = (b <=? a)%Z.
Proof.
  unfold ge, ofZ, Qle_bool, inject_Z. simpl.
  now rewrite !Z.mul_1_r.
Qed.

(** Rounding an integer that is not negative does not move it across
    50. *)
Lemma ge_round64 z :
  (0 <= z)%Z -> ge (round64 (inject_Z z)) (ofZ 50) = (50 <=? z)%Z.
Proof.
  intros Hz.
  assert (H52 : (50 < 2 ^ 52)%Z) by reflexivity.
  assert (H53 : (2 ^ 52 < 2 ^ 53)%Z) by reflexivity.
  destruct (round64_natural z Hz) as [[-> Hbig]|(z' & Hz' & -> & Hsmall & Hlarge)].
  - simpl. symmetry. apply Z.leb_le. lia.
  - rewrite ge_ofZ. destruct (Z_lt_le_dec z (2 ^ 53)) as [H|H].
    + now rewrite (Hsmall H).
    + assert (2 ^ 52 <= z')%Z by (apply Hlarge; lia).
      transitivity true; [|symmetry]; apply Z.leb_le; lia.
Qed.

(** ** The digits of a score *)

(** The range of a score holds digits, one at least. *)
Lemma scoreAt_digits text j a b :
  scoreAt text j = Some (a, b) ->
  allChars isDigit (substring a b text) = true /\ substring a b text <> "".
Proof.
  unfold scoreAt. destruct (occursAt true "Score:" text j); [|discriminate].
  set (a' := j + 6 + spanAt isWhiteSpace text (j + 6)).
  destruct (String.get a' text) as [ch|] eqn:Hg; [|discriminate].
  destruct (isDigit ch) eqn:Hd; [|discriminate].
  intros H. injection H as Ha Hb. subst a.
  assert (Hb' : b = a' + spanAt isDigit text a')
    by (rewrite (spanAt_step isDigit text a' ch Hg), Hd; lia).
  rewrite Hb', substring_take_drop. unfold spanAt. split.
  - apply allChars_take_span.
  - rewrite (drop_get_Some _ _ _ Hg). simpl. rewrite Hd. discriminate.
Qed.

Lemma firstScore_Some text r : forall n j,
  firstScore text j n = Some r -> exists j', scoreAt text j' = Some r.
Proof.
  induction n as [|n IH]; intros j; simpl;
    destruct (scoreAt text j) as [r'|] eqn:E; intros H;
    try discriminate; try (inversion H; subst; eauto; fail).
  eapply IH, H.
Qed.

Lemma findLabelScore_Some label text r : forall tries i,
  findLabelScore label text i tries = Some r ->
  exists j, scoreAt text j = Some r.
Proof.
  induction tries as [|tries IH]; intros i; simpl; [discriminate|].
  destruct (occursAt true label text i).
  - destruct (firstScore text _ _) as [r'|] eqn:E.
    + intros H. inversion H; subst. eapply firstScore_Some, E.
    + apply IH.
  - apply IH.
Qed.

Lemma labelScore_digits label text d :
  labelScore label text = Some d -> allChars isDigit d = true /\ d <> "".
Proof.
  unfold labelScore.
  destruct (findLabelScore label text 0 _) as [[a b]|] eqn:E; [|discriminate].
  intros H. inversion H; subst d.
  destruct (findLabelScore_Some _ _ _ _ _ E) as [j Hj].
  eapply scoreAt_digits, Hj.
Qed.

(** The score of the entry of a label is a whole number that is not
    negative, or [Infinity] (a run of digits that writes 2^1024 or
    more). *)
Lemma entryFor_labelScore label text :
  coverageScore (entryFor label (labelScore label text)) = PosInf
  \/ exists n, (0 <= n)%Z
               /\ coverageScore (entryFor label (labelScore label text))
                  = ofZ n.
Proof.
  destruct (labelScore label text) as [d|] eqn:E; simpl.
  - destruct (labelScore_digits _ _ _ E) as [Hd Hne].
    rewrite (parseInt_decimal d Hd Hne).
    destruct (round64_natural (decimal 0 d)
                ltac:(apply decimal_nonneg; [exact Hd|lia]))
      as [[H _]|(n & Hn & H & _)]; [now left|right; eauto].
  - right. exists 0%Z. split; [lia|reflexivity].
Qed.

Lemma mapOutcome_plain w text : forall subtopics,
  forallb isPlain subtopics = true ->
  mapOutcome (parseSubtopic w text) subtopics
  = Ok (map (fun label => entryFor label (labelScore label text)) subtopics).
Proof.
  induction subtopics as [|sub subtopics IH]; intros H; simpl in *;
    [reflexivity|].
  apply andb_true_iff in H. destruct H as [Hs H].
  rewrite (parseSubtopic_plain w text sub Hs). simpl.
  now rewrite IH.
Qed.

(** X13.  When no subtopic holds a syntax character of regular
    expressions, the report on a reply is the one read off the reply
    without regular expressions: each subtopic gets the digits after the
    first Score: (in any case, then white space) that follows its first
    mention (in any case), and no evidence when there is none. *)
Theorem analyzeCoverage_plain_labels
        (w : World) (transcript : string) (subtopics : list string)
        (topic : string) (tr tr1 : Trace) (text : string) :
  forallb isPlain subtopics = true ->
  callGroq w (coverageMessages transcript subtopics) 2000 tr
  = (Ok text, tr1) ->
  analyzeCoverage w transcript subtopics topic tr
  = (Ok (mkReport
           (computeOverallScore
              (map (fun label => entryFor label (labelScore label text))
                 subtopics))
           (map (fun label => entryFor label (labelScore label text))
              subtopics)
           ("Overall coverage based on "
            ++ showNat (List.length subtopics) ++ " subtopics.")),
     tr1).
Proof.
  intros Hplain Hcall. rewrite analyzeCoverage_unfold, Hcall.
  now rewrite (mapOutcome_plain w text subtopics Hplain).
Qed.

Lemma analyzeCoverage_plain_labels_witness :
  forallb isPlain ["loops"; "arrays"] = true
  /\ callGroq (replyWorld (Ok ["Loops Score: 80. Arrays: score:7x"]))
       (coverageMessages "Today we look at loops." ["loops"; "arrays"])
       2000 []
     = (Ok "Loops Score: 80. Arrays: score:7x",
        [HttpPost GROQ_API_URL
           (mkGroqRequest GROQ_MODEL
              (coverageMessages "Today we look at loops." ["loops"; "arrays"])
              2000)
           (groqHeaders (replyWorld (Ok [])))])
  /\ analyzeCoverage (replyWorld (Ok ["Loops Score: 80. Arrays: score:7x"]))
       "Today we look at loops." ["loops"; "arrays"] "Programming" []
     = (Ok (mkReport (ofZ 44)
              [mkResult "loops" (ofZ 80) true "Evidence found in transcript.";
               mkResult "arrays" (ofZ 7) false
                 "Evidence found in transcript."]
              "Overall coverage based on 2 subtopics."),
        [HttpPost GROQ_API_URL
           (mkGroqRequest GROQ_MODEL
              (coverageMessages "Today we look at loops." ["loops"; "arrays"])
              2000)
           (groqHeaders (replyWorld (Ok [])))]).
Proof.
  split; [reflexivity|]. split; [reflexivity|].
  apply (analyzeCoverage_plain_labels
           (replyWorld (Ok ["Loops Score: 80. Arrays: score:7x"]))
           "Today we look at loops." ["loops"; "arrays"] "Programming" []
           _ "Loops Score: 80. Arrays: score:7x" eq_refl eq_refl).
Defined.

Lemma sumZ_nonneg zs : Forall (fun z => 0 <= z)%Z zs -> (0 <= sumZ zs)%Z.
Proof.
  unfold sumZ. induction 1 as [|z zs Hz _ IH]; cbn [fold_right]; lia.
Qed.

(** Adding up scores that are whole numbers that are not negative, or
    [Infinity], gives such a Number. *)
Lemma sum_natural : forall entries acc,
  Forall (fun s => coverageScore s = PosInf
                   \/ exists k, (0 <= k)%Z /\ coverageScore s = ofZ k)
    entries ->
  (acc = PosInf \/ exists a, (0 <= a)%Z /\ acc = ofZ a) ->
  fold_left (fun sum s => add sum (coverageScore s)) entries acc = PosInf
  \/ exists a,
      (0 <= a)%Z
      /\ fold_left (fun sum s => add sum (coverageScore s)) entries acc
         = ofZ a.
Proof.
  induction entries as [|s entries IH]; intros acc Hall Hacc;
    cbn [fold_left]; [exact Hacc|].
  inversion Hall as [|? ? Hs Hrest]; subst. apply IH; [exact Hrest|].
  destruct Hacc as [->|(a & Ha & ->)];
    destruct Hs as [->|(k & Hk & ->)]; try (now left).
  now apply add_natural.
Qed.

(** So does their mean, rounded. *)
Lemma computeOverallScore_natural entries :
  entries <> [] ->
  Forall (fun s => coverageScore s = PosInf
                   \/ exists k, (0 <= k)%Z /\ coverageScore s = ofZ k)
    entries ->
  computeOverallScore entries = PosInf
  \/ exists n, (0 <= n)%Z /\ computeOverallScore entries = ofZ n.
Proof.
  intros Hne Hall. unfold computeOverallScore.
  assert (Hpos : 0 < List.length entries)
    by (destruct entries; [congruence|simpl; lia]).
  destruct (sum_natural entries (ofZ 0) Hall) as [->|(a & Ha & ->)].
  { right. exists 0%Z. split; [lia|reflexivity]. }
  - left. unfold ofNat, ofZ, div, Qsign. cbn [inject_Z Qnum].
    destruct (Z.of_nat (List.length entries)) eqn:E; try lia. reflexivity.
  - rewrite (div_ofZ_ofNat a _ Hpos).
    destruct (round64_nonneg (a # Z.to_pos (Z.of_nat (List.length entries)))
                Ha) as [->|(q' & -> & Hq')]; [now left|right].
    unfold Math_round. eexists. split; [|reflexivity].
    change 0%Z with (Qfloor 0). apply Qfloor_resp_le.
    apply Qle_trans with (1 := Hq').
    rewrite <- (Qplus_0_r q') at 1. apply Qplus_le_r. discriminate.
Qed.

(** X14.  With subtopics that hold no syntax character of regular
    expressions, and one subtopic at least, every score of a report and
    its overall score are whole numbers that are not negative, or
    [Infinity] (as for the digits of a number from 2^1024 on): no score
    is NaN, negative or a fraction. *)
Theorem analyzeCoverage_plain_scores
        (w : World) (transcript : string) (subtopics : list string)
        (topic : string) (tr tr' : Trace) (report : CoverageReport) :
  forallb isPlain subtopics = true ->
  subtopics <> [] ->
  analyzeCoverage w transcript subtopics topic tr = (Ok report, tr') ->
  (overallScore report = PosInf
   \/ exists n, (0 <= n)%Z /\ overallScore report = ofZ n)
  /\ Forall (fun s => coverageScore s = PosInf
                      \/ exists k, (0 <= k)%Z /\ coverageScore s = ofZ k)
       (subtopicAnalysis report).
Proof.
  intros Hplain Hne. rewrite analyzeCoverage_unfold.
  assert (Hfail : (overallScore (failureReport subtopics) = PosInf
                   \/ exists n, (0 <= n)%Z
                                /\ overallScore (failureReport subtopics)
                                   = ofZ n)
                  /\ Forall (fun s => coverageScore s = PosInf
                                      \/ exists k, (0 <= k)%Z
                                                   /\ coverageScore s = ofZ k)
                       (subtopicAnalysis (failureReport subtopics))).
  { split; [right; exists 0%Z; split; [lia|reflexivity]|].
    simpl. apply Forall_forall. intros s Hs. apply in_map_iff in Hs.
    destruct Hs as (sub & <- & _). right. exists 0%Z.
    split; [lia|reflexivity]. }
  destruct (callGroq w _ 2000 tr) as [[text|e] tr1].
  - rewrite (mapOutcome_plain w text subtopics Hplain).
    intros H. inversion H; subst. clear H.
    cbn [overallScore subtopicAnalysis].
    assert (Hall : Forall (fun s => coverageScore s = PosInf
                                    \/ exists k, (0 <= k)%Z
                                                 /\ coverageScore s = ofZ k)
                     (map (fun label => entryFor label (labelScore label text))
                        subtopics)).
    { apply Forall_forall. intros s Hs. apply in_map_iff in Hs.
      destruct Hs as (sub & <- & _). apply entryFor_labelScore. }
    split; [|exact Hall].
    apply computeOverallScore_natural; [|exact Hall].
    destruct subtopics; [congruence|discriminate].
  - intros H. inversion H; subst. exact Hfail.
Qed.

Lemma analyzeCoverage_plain_scores_witness :
  forallb isPlain ["loops"; "arrays"] = true
  /\ ["loops"; "arrays"] <> []
  /\ analyzeCoverage (replyWorld (Ok ["Loops Score: 80. Arrays: score:7x"]))
       "Today we look at loops." ["loops"; "arrays"] "Programming" []
     = (Ok (mkReport (ofZ 44)
              [mkResult "loops" (ofZ 80) true "Evidence found in transcript.";
               mkResult "arrays" (ofZ 7) false
                 "Evidence found in transcript."]
              "Overall coverage based on 2 subtopics."),
        [HttpPost GROQ_API_URL
           (mkGroqRequest GROQ_MODEL
              (coverageMessages "Today we look at loops." ["loops"; "arrays"])
              2000)
           (groqHeaders (replyWorld (Ok [])))])
  /\ (ofZ 44 = PosInf \/ exists n, (0 <= n)%Z /\ ofZ 44 = ofZ n)
  /\ Forall (fun s => coverageScore s = PosInf
                      \/ exists k, (0 <= k)%Z /\ coverageScore s = ofZ k)
       [mkResult "loops" (ofZ 80) true "Evidence found in transcript.";
        mkResult "arrays" (ofZ 7) false "Evidence found in transcript."].
Proof.
  split; [reflexivity|]. split; [discriminate|]. split; [reflexivity|].
  apply (analyzeCoverage_plain_scores
           (replyWorld (Ok ["Loops Score: 80. Arrays: score:7x"]))
           "Today we look at loops." ["loops"; "arrays"] "Programming" []
           _ _ eq_refl (fun H => ltac:(discriminate H)) eq_refl).
Defined.

(** ** Replies without the label or without a score *)

Lemma firstScore_None text :
  (forall j, occursAt true "Score:" text j = false) ->
  forall n j, firstScore text j n = None.
Proof.
  intros H. induction n as [|n IH]; intros j; simpl; unfold scoreAt;
    rewrite H; [reflexivity|apply IH].
Qed.

Lemma findLabelScore_None label text :
  (forall i, occursAt true label text i = false)
  \/ (forall j, occursAt true "Score:" text j = false) ->
  forall tries i, findLabelScore label text i tries = None.
Proof.
  intros H. induction tries as [|tries IH]; intros i; simpl; [reflexivity|].
  destruct H as [H|H].
  - rewrite H. apply IH.
  - rewrite (firstScore_None text H). destruct (occursAt true label text i);
      apply IH.
Qed.

(** X15.  A subtopic without syntax characters that the reply does not
    mention (in any case), or any such subtopic when the reply holds no
    Score: (in any case), gets the score 0, not covered, with the evidence
    "No evidence found.". *)
Theorem parseSubtopic_not_mentioned
        (w : World) (responseText label : string) :
  isPlain label = true ->
  (forall i, occursAt true label responseText i = false)
  \/ (forall j, occursAt true "Score:" responseText j = false) ->
  parseSubtopic w responseText label
  = Ok (mkResult label (ofZ 0) false "No evidence found.").
Proof.
  intros Hplain H. rewrite (parseSubtopic_plain w responseText label Hplain).
  unfold labelScore. now rewrite (findLabelScore_None label responseText H).
Qed.

Lemma parseSubtopic_not_mentioned_witness :
  isPlain "arrays" = true
  /\ ((forall i, occursAt true "arrays" "Loops Score: 80" i = false)
      \/ (forall j, occursAt true "Score:" "Loops Score: 80" j = false))
  /\ parseSubtopic (replyWorld (Ok [])) "Loops Score: 80" "arrays"
     = Ok (mkResult "arrays" (ofZ 0) false "No evidence found.").
Proof.
  assert (H : forall i, occursAt true "arrays" "Loops Score: 80" i = false)
    by (intros i; do 16 (destruct i as [|i]; [reflexivity|]); reflexivity).
  split; [reflexivity|]. split; [left; exact H|].
  apply (parseSubtopic_not_mentioned (replyWorld (Ok []))
           "Loops Score: 80" "arrays" eq_refl (or_introl H)).
Defined.

(** ** The first score after the first mention *)

Lemma firstScore_first text r k : forall n j,
  j <= k -> k <= j + n ->
  (forall j', j <= j' < k -> scoreAt text j' = None) ->
  scoreAt text k = Some r ->
  firstScore text j n = Some r.
Proof.
  induction n as [|n IH]; intros j Hjk Hkn Hnone Hk; simpl.
  - assert (j = k) by lia. subst. now rewrite Hk.
  - destruct (Nat.eq_dec j k) as [->|Hne]; [now rewrite Hk|].
    rewrite Hnone by lia. apply IH; try lia; [|exact Hk].
    intros j' Hj'. apply Hnone. lia.
Qed.

Lemma findLabelScore_first label text r i0 : forall tries i,
  i <= i0 -> i0 < i + tries ->
  (forall i', i <= i' < i0 -> occursAt true label text i' = false) ->
  occursAt true label text i0 = true ->
  firstScore text (i0 + String.length label)
    (String.length text - (i0 + String.length label)) = Some r ->
  findLabelScore label text i tries = Some r.
Proof.
  induction tries as [|tries IH]; intros i Hi Ht Hnone Hocc Hfirst; [lia|].
  simpl. destruct (Nat.eq_dec i i0) as [->|Hne].
  - now rewrite Hocc, Hfirst.
  - rewrite Hnone by lia. apply IH; try lia; auto.
    intros i' Hi'. apply Hnone. lia.
Qed.

(** The score that stands where the parts say. *)
Lemma scoreAt_parts before ws ds post :
  allChars isWhiteSpace ws = true ->
  allChars isDigit ds = true -> ds <> "" ->
  startsWith isDigit post = false ->
  scoreAt (before ++ "Score:" ++ ws ++ ds ++ post) (String.length before)
  = Some (String.length before + 6 + String.length ws,
          String.length before + 6 + String.length ws + String.length ds).
Proof.
  intros Hws Hds Hne Hpost.
  set (text := before ++ "Score:" ++ ws ++ ds ++ post).
  set (k := String.length before).
  assert (Hdrop : drop (k + 6) text = ws ++ ds ++ post).
  { rewrite drop_add. unfold k, text. rewrite drop_length_app.
    apply (drop_length_app "Score:"). }
  assert (Hspan : spanAt isWhiteSpace text (k + 6) = String.length ws).
  { unfold spanAt. rewrite Hdrop, span_app by exact Hws.
    destruct ds as [|d ds]; [congruence|]. simpl in *.
    apply andb_true_iff in Hds. destruct Hds as [Hd _].
    rewrite (digit_not_whiteSpace d Hd). lia. }
  assert (Hdrop' : drop (k + 6 + String.length ws) text = ds ++ post).
  { rewrite drop_add, Hdrop. apply drop_length_app. }
  assert (Hocc : occursAt true "Score:" text k = true)
    by apply (occursAt_app true "Score:" before (ws ++ ds ++ post)).
  unfold scoreAt. rewrite Hocc, Hspan.
  destruct ds as [|d ds]; [congruence|].
  cbn [allChars] in Hds. apply andb_true_iff in Hds. destruct Hds as [Hd Hds].
  assert (Hg : String.get (k + 6 + String.length ws) text = Some d).
  { rewrite <- (Nat.add_0_r (k + 6 + String.length ws)), <- get_drop, Hdrop'.
    reflexivity. }
  rewrite Hg, Hd. f_equal. f_equal.
  assert (Hs : spanAt isDigit text (S (k + 6 + String.length ws))
               = String.length ds).
  { unfold spanAt. replace (S (k + 6 + String.length ws))
      with (k + 6 + String.length ws + 1) by lia.
    rewrite drop_add, Hdrop'. simpl.
    replace (match ds ++ post with "" => ds ++ post | String _ _ => ds ++ post
             end) with (ds ++ post) by now destruct (ds ++ post).
    rewrite span_app by exact Hds. rewrite (span_stop _ _ Hpost). lia. }
  rewrite Hs. simpl. lia.
Qed.

(** X16.  In a reply [before ++ "Score:" ++ ws ++ ds ++ post], where [ws]
    is white space and [ds] a run of digits that [post] does not go on, a
    subtopic without syntax characters whose first mention (in any case)
    ends in [before], with no score between that mention and the end of
    [before], gets the number that [ds] writes as its score, whatever
    subtopic the reply meant that score for: the Number nearest to that
    integer, which is the integer itself below 2^53 and [Infinity] from
    2^1024 on; the subtopic counts as covered from 50 on. *)
Theorem parseSubtopic_first_score
        (w : World) (label before ws ds post : string) (i0 : nat) :
  isPlain label = true ->
  occursAt true label (before ++ "Score:" ++ ws ++ ds ++ post) i0 = true ->
  (forall i, i < i0 ->
     occursAt true label (before ++ "Score:" ++ ws ++ ds ++ post) i = false) ->
  i0 + String.length label <= String.length before ->
  (forall j, i0 + String.length label <= j < String.length before ->
     scoreAt (before ++ "Score:" ++ ws ++ ds ++ post) j = None) ->
  allChars isWhiteSpace ws = true ->
  allChars isDigit ds = true -> ds <> "" ->
  startsWith isDigit post = false ->
  parseSubtopic w (before ++ "Score:" ++ ws ++ ds ++ post) label
  = Ok (mkResult label (round64 (inject_Z (decimal 0 ds)))
          (50 <=? decimal 0 ds)%Z "Evidence found in transcript.")
  /\ ((decimal 0 ds < 2 ^ 53)%Z ->
      round64 (inject_Z (decimal 0 ds)) = ofZ (decimal 0 ds))
  /\ ((2 ^ 1024 <= decimal 0 ds)%Z ->
      round64 (inject_Z (decimal 0 ds)) = PosInf).
Proof.
  intros Hplain Hocc Hfirst Hlen Hnone Hws Hds Hne Hpost.
  assert (Hnonneg : (0 <= decimal 0 ds)%Z)
    by (apply decimal_nonneg; [exact Hds|lia]).
  split; [|split; [intros Hsmall; apply round64_exact; lia
                  |intros Hbig; now apply round64_overflow]].
  rewrite (parseSubtopic_plain w _ label Hplain).
  set (text := before ++ "Score:" ++ ws ++ ds ++ post) in *.
  set (k := String.length before) in *.
  pose proof (scoreAt_parts before ws ds post Hws Hds Hne Hpost) as Hk.
  fold text in Hk. fold k in Hk.
  assert (Hk_le : k <= String.length text)
    by (unfold text, k; rewrite length_append; lia).
  assert (Hfind : findLabelScore label text 0 (S (String.length text))
                  = Some (k + 6 + String.length ws,
                          k + 6 + String.length ws + String.length ds)).
  { apply (findLabelScore_first label text _ i0); try lia; auto.
    - intros i' Hi'. apply Hfirst. lia.
    - apply (firstScore_first text _ k); try lia; auto. }
  unfold labelScore. rewrite Hfind.
  rewrite substring_take_drop.
  assert (Hdrop : drop (k + 6 + String.length ws) text = ds ++ post).
  { rewrite !drop_add. unfold k, text. rewrite drop_length_app.
    rewrite (drop_length_app "Score:"). apply drop_length_app. }
  rewrite Hdrop, take_length_app. simpl entryFor.
  rewrite (parseInt_decimal ds Hds Hne), (ge_round64 _ Hnonneg). reflexivity.
Qed.

Lemma parseSubtopic_first_score_witness :
  isPlain "Loops" = true
  /\ occursAt true "Loops"
       (("Subtopic: Loops" ++ nl ++ "Score: N/A" ++ nl
         ++ "Subtopic: Arrays" ++ nl)
        ++ "Score:" ++ " " ++ "40" ++ "") 10 = true
  /\ (forall i, i < 10 ->
        occursAt true "Loops"
          (("Subtopic: Loops" ++ nl ++ "Score: N/A" ++ nl
            ++ "Subtopic: Arrays" ++ nl)
           ++ "Score:" ++ " " ++ "40" ++ "") i = false)
  /\ (forall j,
        10 + String.length "Loops" <= j
        < String.length ("Subtopic: Loops" ++ nl ++ "Score: N/A" ++ nl
                         ++ "Subtopic: Arrays" ++ nl) ->
        scoreAt
          (("Subtopic: Loops" ++ nl ++ "Score: N/A" ++ nl
            ++ "Subtopic: Arrays" ++ nl)
           ++ "Score:" ++ " " ++ "40" ++ "") j = None)
  /\ parseSubtopic (replyWorld (Ok []))
       (("Subtopic: Loops" ++ nl ++ "Score: N/A" ++ nl
         ++ "Subtopic: Arrays" ++ nl)
        ++ "Score:" ++ " " ++ "40" ++ "") "Loops"
     = Ok (mkResult "Loops" (ofZ 40) false "Evidence found in transcript.").
Proof.
  change (ofZ 40) with (round64 (inject_Z (decimal 0 "40"))).
  change false with (50 <=? decimal 0 "40")%Z.
  assert (H1 : forall i, i < 10 ->
            occursAt true "Loops"
              (("Subtopic: Loops" ++ nl ++ "Score: N/A" ++ nl
                ++ "Subtopic: Arrays" ++ nl)
               ++ "Score:" ++ " " ++ "40" ++ "") i = false)
    by (intros i Hi; do 10 (destruct i as [|i]; [reflexivity|]); lia).
  assert (H2 : forall j,
            10 + String.length "Loops" <= j
            < String.length ("Subtopic: Loops" ++ nl ++ "Score: N/A" ++ nl
                             ++ "Subtopic: Arrays" ++ nl) ->
            scoreAt
              (("Subtopic: Loops" ++ nl ++ "Score: N/A" ++ nl
                ++ "Subtopic: Arrays" ++ nl)
               ++ "Score:" ++ " " ++ "40" ++ "") j = None)
    by (intros j Hj; simpl in Hj;
        do 44 (destruct j as [|j]; [first [reflexivity | lia]|]); lia).
  split; [reflexivity|]. split; [reflexivity|]. split; [exact H1|].
  split; [exact H2|].
  apply (parseSubtopic_first_score (replyWorld (Ok [])) "Loops"
           ("Subtopic: Loops" ++ nl ++ "Score: N/A" ++ nl
            ++ "Subtopic: Arrays" ++ nl)
           " " "40" "" 10 eq_refl eq_refl H1
           ltac:(simpl; lia) H2 eq_refl eq_refl
           ltac:(discriminate) eq_refl).
Defined.

(** ** [extractVideoId] without regular expressions *)

Lemma regExp_source :
  regExp
  = mkRegExp
      (RSeq RAssertStart
         (RSeq (RQuant (RCharSet false [CiDot]) 0 None true 0 0)
            (RSeq (RGroup 1 markers) afterMarker)))
      7 false.
Proof. reflexivity. Qed.

Lemma code_eqb c ch : N.eqb (code c) (code ch) = Ascii.eqb c ch.
Proof.
  destruct (Ascii.eqb_spec c ch) as [->|Hne]; [apply N.eqb_refl|].
  apply N.eqb_neq. intros H. apply Hne.
  rewrite <- (ascii_N_embedding c), <- (ascii_N_embedding ch).
  unfold code in H. now rewrite H.
Qed.

Lemma admits_char c ch : admits false false [CiChar c] ch = Ascii.eqb c ch.
Proof.
  unfold admits. simpl. rewrite orb_false_r, code_eqb.
  now destruct (Ascii.eqb c ch).
Qed.

Lemma admits_dot ch : admits false false [CiDot] ch = notLineTerminator ch.
Proof.
  unfold admits, notLineTerminator. simpl.
  now destruct (isLineTerminator ch).
Qed.

Lemma admits_word ch : admits false false [CiEscape Word] ch = isWordChar ch.
Proof. unfold admits. simpl. now destruct (isWordChar ch). Qed.

Lemma admits_token ch :
  admits false true [CiChar "#"; CiChar "&"; CiChar "?"] ch = notDelimiter ch.
Proof.
  destruct ch as [[] [] [] [] [] [] [] []]; reflexivity.
Qed.

Section VideoId.
Variable url : string.

(** The end of the match of what follows a marker that ends at [q]. *)
Lemma compile_tokenPart caps a :
  compile url false tokenPart (mkState a caps) Matched
  = Matched
      (mkState
         (a + spanAt notDelimiter url a
          + spanAt notLineTerminator url (a + spanAt notDelimiter url a))
         (setCapture 7 (Some (a, a + spanAt notDelimiter url a)) caps)).
Proof.
  unfold tokenPart. cbn [compile endIndex captures].
  rewrite (star_greedy url false true [CiChar "#"; CiChar "&"; CiChar "?"]).
  2:{ pose proof (spanAt_le
                    (admits false true [CiChar "#"; CiChar "&"; CiChar "?"])
                    url a).
      unfold InputLength. lia. }
  rewrite (spanAt_ext _ notDelimiter) by apply admits_token.
  apply tryDown_top. cbn [endIndex captures].
  rewrite (star_greedy url false false [CiDot]).
  2:{ pose proof (spanAt_le (admits false false [CiDot]) url
                    (a + spanAt notDelimiter url a)).
      unfold InputLength. lia. }
  rewrite (spanAt_ext (admits false false [CiDot]) notLineTerminator)
    by apply admits_dot.
  apply tryDown_top. reflexivity.
Qed.

Lemma compile_optional c r caps i :
  (forall j, compile url false r (mkState j caps) Matched <> failure) ->
  compile url false (RSeq (RQuant (RChar c) 0 (Some 1) true 6 0) r)
    (mkState i caps) Matched
  = compile url false r (mkState (skipChar c url i) caps) Matched.
Proof.
  intros Hr. unfold RChar. cbn [compile endIndex].
  rewrite (optional_greedy url false false [CiChar c]) by lia.
  unfold skipChar, holdsAt.
  destruct (String.get i url) as [ch|]; [|reflexivity].
  rewrite admits_char. destruct (Ascii.eqb c ch); [|reflexivity].
  destruct (compile url false r (mkState (S i) caps) Matched) eqn:E;
    try reflexivity.
  now apply Hr in E.
Qed.

Lemma compile_afterMarker caps q :
  compile url false afterMarker (mkState q caps) Matched
  = Matched
      (mkState (matchEnd url q)
         (setCapture 7 (Some (tokenStart url q, tokenEnd url q)) caps)).
Proof.
  unfold afterMarker.
  rewrite compile_optional.
  2:{ intros j. rewrite compile_optional.
      - rewrite compile_optional; [rewrite compile_tokenPart; discriminate|].
        intros j'. rewrite compile_tokenPart. discriminate.
      - intros j'. rewrite compile_optional;
          [rewrite compile_tokenPart; discriminate|].
        intros j''. rewrite compile_tokenPart. discriminate. }
  rewrite compile_optional.
  2:{ intros j. rewrite compile_optional;
        [rewrite compile_tokenPart; discriminate|].
      intros j'. rewrite compile_tokenPart. discriminate. }
  rewrite compile_optional.
  2:{ intros j. rewrite compile_tokenPart. discriminate. }
  apply compile_tokenPart.
Qed.

Lemma compile_markers caps p :
  match markerAt url p with
  | Some q =>
      exists caps',
        List.length caps' = List.length caps
        /\ compile url false (RSeq (RGroup 1 markers) afterMarker)
             (mkState p caps) Matched
           = Matched
               (mkState (matchEnd url q)
                  (setCapture 7 (Some (tokenStart url q, tokenEnd url q))
                     caps'))
  | None =>
      compile url false (RSeq (RGroup 1 markers) afterMarker)
        (mkState p caps) Matched
      = failure
  end.
Proof.
  unfold markers. cbn [compile endIndex captures].
  rewrite !compile_literal.
  cbn [compile endIndex captures]. rewrite !CharacterSetMatcher_eq.
  cbn [endIndex captures]. rewrite !compile_literal.
  cbn [compile endIndex captures]. rewrite !compile_afterMarker.

  change (String.length "youtu") with 5. change (String.length "be/") with 3.
  change (String.length "v/") with 2. change (String.length "/u/") with 3.
  change (String.length "/") with 1. change (String.length "embed/") with 6.
  change (String.length "watch?") with 6.
  unfold markerAt, holdsAt.
  replace (S (p + 5)) with (p + 6) by lia.
  replace (p + 6 + 3) with (p + 9) by lia.
  replace (S (p + 3)) with (p + 4) by lia.
  replace (p + 4 + 1) with (p + 5) by lia.
  repeat
    (first
       [ match goal with
         | |- context [String.get ?i url] =>
             destruct (String.get i url) as [?ch|]
         end
       | match goal with
         | |- context [occursAt false ?s url ?i] =>
             destruct (occursAt false s url i)
         end
       | match goal with
         | |- context [notLineTerminator ?c] =>
             destruct (notLineTerminator c)
         end
       | match goal with
         | |- context [isWordChar ?c] => destruct (isWordChar c)
         end ];
     rewrite ?admits_dot, ?admits_word; cbn [andb orElse]);
    try reflexivity;
    (eexists; split; [|reflexivity]);
    unfold setCapture; rewrite !length_setNth; reflexivity.
Qed.

Lemma tryDown_lastMarker caps : forall n i,
  match lastMarker url i n with
  | Some q =>
      exists caps',
        List.length caps' = List.length caps
        /\ tryDown
             (fun y =>
                compile url false (RSeq (RGroup 1 markers) afterMarker) y
                  Matched)
             caps i n
           = Matched
               (mkState (matchEnd url q)
                  (setCapture 7 (Some (tokenStart url q, tokenEnd url q))
                     caps'))
  | None =>
      tryDown
        (fun y =>
           compile url false (RSeq (RGroup 1 markers) afterMarker) y Matched)
        caps i n
      = failure
  end.
Proof.
  induction n as [|n IH]; intros i; cbn [lastMarker tryDown].
  - apply compile_markers.
  - specialize (IH (S i)).
    destruct (lastMarker url (S i) n) as [q|].
    + destruct IH as (caps' & Hlen & ->). exists caps'. now split.
    + rewrite IH. cbn [orElse]. apply compile_markers.
Qed.

Lemma compile_regExp caps :
  compile url false (source regExp) (mkState 0 caps) Matched
  = tryDown
      (fun y =>
         compile url false (RSeq (RGroup 1 markers) afterMarker) y Matched)
      caps 0 (spanAt notLineTerminator url 0).
Proof.
  rewrite regExp_source. cbn [source].
  set (rest := RSeq (RGroup 1 markers) afterMarker).
  cbn [compile endIndex Nat.eqb].
  rewrite (star_greedy url false false [CiDot]).
  - now rewrite (spanAt_ext _ notLineTerminator) by apply admits_dot.
  - pose proof (spanAt_le (admits false false [CiDot]) url 0).
    unfold InputLength. lia.
Qed.

Lemma searchFrom_regExp_later : forall tries i,
  fst (searchFrom url false regExp tries (S i)) = failure.
Proof.
  induction tries as [|tries IH]; intros i; [reflexivity|].
  rewrite regExp_source. cbn [searchFrom source compile endIndex Nat.eqb].
  rewrite <- regExp_source. apply IH.
Qed.

(** What [match] returns for the expression of [extractVideoId]. *)
Lemma String_match_regExp :
  match lastMarker url 0 (spanAt notLineTerminator url 0) with
  | Some q =>
      exists m, String_match regExp url = Some m
                /\ nth 7 m None = Some (tokenAfter url q)
  | None => String_match regExp url = None
  end.
Proof.
  unfold String_match.
  replace (ignoreCase regExp) with false by reflexivity.
  cbn [searchFrom].
  replace (nCaptures regExp) with 7 by reflexivity.
  rewrite compile_regExp.
  pose proof (tryDown_lastMarker (repeat None 7)
                (spanAt notLineTerminator url 0) 0) as H.
  destruct (lastMarker url 0 (spanAt notLineTerminator url 0)) as [q|].
  - destruct H as (caps' & Hlen & ->). eexists. split; [reflexivity|].
    do 8 (destruct caps' as [|? caps']; try discriminate Hlen).
    reflexivity.
  - rewrite H.
    pose proof (searchFrom_regExp_later (String.length url) 0) as Hl.
    destruct (searchFrom url false regExp (String.length url) 1)
      as [res idx].
    cbn [fst] in Hl. now subst res.
Qed.
End VideoId.

(** [extractVideoId] is [videoIdOf]. *)
Lemma extractVideoId_videoIdOf w url :
  extractVideoId w url = Ok (videoIdOf url).
Proof.
  unfold extractVideoId, videoIdOf.
  pose proof (String_match_regExp url) as H.
  destruct (lastMarker url 0 (spanAt notLineTerminator url 0)) as [q|].
  - destruct H as (m & -> & ->). reflexivity.
  - now rewrite H.
Qed.

(** X17.  [extractVideoId] never throws, and what it returns can be read
    off the url without regular expressions: on the first line of the
    url, after the last place where one of the markers youtu.be/ (with
    any character for the dot), v/, /u/ with a word character and /,
    embed/ or watch? stands, and after one [?], one [v] and one [=] when
    they are there, the characters up to the first [#], [&] or [?], if
    they are 11. *)
Theorem extractVideoId_scan (w : World) (url : string) :
  extractVideoId w url = Ok (videoIdOf url).
Proof. apply extractVideoId_videoIdOf. Qed.

(** ** Markers in a text made of parts *)

Lemma get_app_cases a b j ch :
  String.get j (a ++ b) = Some ch ->
  (j < String.length a /\ String.get j a = Some ch)
  \/ (String.length a <= j /\ String.get (j - String.length a) b = Some ch).
Proof.
  intros H. destruct (lt_dec j (String.length a)) as [Hlt|Hge].
  - left. split; [exact Hlt|]. now rewrite (append_correct1 a b j Hlt).
  - right. split; [lia|].
    rewrite (append_correct2 a b (j - String.length a)).
    now replace (j - String.length a + String.length a) with j by lia.
Qed.

Lemma get_shift pre s i :
  String.get (String.length pre + i) (pre ++ s) = String.get i s.
Proof. now rewrite (append_correct2 pre s i), Nat.add_comm. Qed.

Lemma get_allChars P : forall s j ch,
  allChars P s = true -> String.get j s = Some ch -> P ch = true.
Proof.
  induction s as [|c s IH]; intros j ch H Hg; simpl in *; [discriminate|].
  apply andb_true_iff in H. destruct H as [Hc H].
  destruct j as [|j]; [now inversion Hg; subst|eauto].
Qed.

Lemma occursAt_get needle : forall s p,
  occursAt false needle s p = true ->
  forall k c, String.get k needle = Some c -> String.get (p + k) s = Some c.
Proof.
  induction needle as [|c0 needle IH]; intros s p H k c Hk; simpl in *;
    [discriminate|].
  destruct (String.get p s) as [ch|] eqn:Hg; [|discriminate].
  apply andb_true_iff in H. destruct H as [Hc H].
  destruct k as [|k].
  - inversion Hk; subst c0. rewrite Nat.add_0_r, Hg. f_equal.
    change (N.eqb (code c) (code ch) = true) in Hc.
    rewrite code_eqb in Hc. symmetry. now apply Ascii.eqb_eq.
  - rewrite Nat.add_succ_r. apply (IH s (S p) H k c Hk).
Qed.

Lemma occursAt_shift icase needle pre s i :
  occursAt icase needle (pre ++ s) (String.length pre + i)
  = occursAt icase needle s i.
Proof.
  rewrite occursAt_drop, drop_add, drop_length_app.
  symmetry. apply occursAt_drop.
Qed.

Lemma holdsAt_shift P pre s i :
  holdsAt P (pre ++ s) (String.length pre + i) = holdsAt P s i.
Proof. unfold holdsAt. now rewrite get_shift. Qed.

Lemma spanAt_shift P pre s i :
  spanAt P (pre ++ s) (String.length pre + i) = spanAt P s i.
Proof. unfold spanAt. now rewrite drop_add, drop_length_app. Qed.

Lemma skipChar_shift c pre s i :
  skipChar c (pre ++ s) (String.length pre + i)
  = String.length pre + skipChar c s i.
Proof.
  unfold skipChar. rewrite holdsAt_shift.
  destruct (holdsAt (Ascii.eqb c) s i); lia.
Qed.

Lemma markerAt_shift pre s p :
  markerAt (pre ++ s) (String.length pre + p)
  = option_map (Nat.add (String.length pre)) (markerAt s p).
Proof.
  unfold markerAt. rewrite <- !Nat.add_assoc.
  rewrite !occursAt_shift, !holdsAt_shift.
  repeat match goal with
         | |- context [if ?b then _ else _] => destruct b
         end; reflexivity.
Qed.

Lemma tokenStart_shift pre s q :
  tokenStart (pre ++ s) (String.length pre + q)
  = String.length pre + tokenStart s q.
Proof. unfold tokenStart. now rewrite !skipChar_shift. Qed.

(** The token is the longest run without delimiter at its start. *)
Lemma tokenAfter_eq url q :
  tokenAfter url q
  = take (span notDelimiter (drop (tokenStart url q) url))
      (drop (tokenStart url q) url).
Proof. unfold tokenAfter, tokenEnd. apply substring_take_drop. Qed.

Lemma tokenAfter_shift pre s q :
  tokenAfter (pre ++ s) (String.length pre + q) = tokenAfter s q.
Proof.
  rewrite !tokenAfter_eq, tokenStart_shift, drop_add, drop_length_app.
  reflexivity.
Qed.

Lemma lastMarker_none url : forall n i,
  (forall p, i <= p <= i + n -> markerAt url p = None) ->
  lastMarker url i n = None.
Proof.
  induction n as [|n IH]; intros i H; cbn [lastMarker]; [apply H; lia|].
  rewrite IH, H; try reflexivity; try lia.
  intros p Hp. apply H. lia.
Qed.

(** The marker found is the last one of the range. *)
Lemma lastMarker_last url q p0 : forall n i,
  i <= p0 <= i + n ->
  markerAt url p0 = Some q ->
  (forall p, p0 < p <= i + n -> markerAt url p = None) ->
  lastMarker url i n = Some q.
Proof.
  induction n as [|n IH]; intros i Hi Hq Hlater; cbn [lastMarker].
  - now replace i with p0 by lia.
  - destruct (Nat.eq_dec i p0) as [->|Hne].
    + rewrite lastMarker_none; [exact Hq|].
      intros p Hp. apply Hlater. lia.
    + rewrite (IH (S i)); auto; try lia.
      intros p Hp. apply Hlater. lia.
Qed.

Lemma lastMarker_None_inv url : forall n i,
  lastMarker url i n = None ->
  forall p, i <= p <= i + n -> markerAt url p = None.
Proof.
  induction n as [|n IH]; intros i H p Hp; cbn [lastMarker] in H.
  - now replace p with i by lia.
  - destruct (lastMarker url (S i) n) eqn:E; [discriminate|].
    destruct (Nat.eq_dec p i) as [->|Hne]; [exact H|].
    apply (IH (S i) E). lia.
Qed.

Lemma lastMarker_Some_inv url q : forall n i,
  lastMarker url i n = Some q ->
  exists p0, i <= p0 <= i + n
             /\ markerAt url p0 = Some q
             /\ forall p, p0 < p <= i + n -> markerAt url p = None.
Proof.
  induction n as [|n IH]; intros i; cbn [lastMarker].
  - intros H. exists i. split; [lia|]. split; [exact H|]. intros p Hp. lia.
  - destruct (lastMarker url (S i) n) as [q'|] eqn:E.
    + intros H. injection H as ->.
      destruct (IH (S i) E) as (p0 & Hp0 & Hm & Hlater).
      exists p0. split; [lia|]. split; [exact Hm|].
      intros p Hp. apply Hlater. lia.
    + intros H. exists i. split; [lia|]. split; [exact H|].
      intros p Hp. apply (lastMarker_None_inv url n (S i) E). lia.
Qed.

Lemma occursAt_needle_app icase n1 n2 : forall s p,
  occursAt icase (n1 ++ n2) s p
  = occursAt icase n1 s p && occursAt icase n2 s (p + String.length n1).
Proof.
  induction n1 as [|c n1 IH]; intros s p; simpl.
  - now rewrite Nat.add_0_r.
  - destruct (String.get p s) as [ch|]; [|reflexivity].
    rewrite IH, Nat.add_succ_r, andb_assoc. reflexivity.
Qed.

(** What a marker needs at its index. *)
Lemma markerAt_Some_inv s p q :
  markerAt s p = Some q ->
  (String.get p s = Some "y"%char /\ String.get (p + 8) s = Some "/"%char)
  \/ (String.get p s = Some "v"%char /\ String.get (p + 1) s = Some "/"%char)
  \/ (String.get p s = Some "/"%char /\ String.get (p + 2) s = Some "/"%char)
  \/ (String.get p s = Some "e"%char /\ String.get (p + 5) s = Some "/"%char)
  \/ (occursAt false "watch" s p = true
      /\ String.get (p + 5) s = Some "?"%char).
Proof.
  unfold markerAt.
  destruct (occursAt false "youtu" s p
            && holdsAt notLineTerminator s (p + 5)
            && occursAt false "be/" s (p + 6)) eqn:E2.
  { intros _. left.
    apply andb_true_iff in E2. destruct E2 as [E2 E2'].
    apply andb_true_iff in E2. destruct E2 as [E2 _]. split.
    - rewrite <- (Nat.add_0_r p). now apply (occursAt_get "youtu" s p E2).
    - replace (p + 8) with (p + 6 + 2) by lia.
      now apply (occursAt_get "be/" s (p + 6) E2'). }
  destruct (occursAt false "v/" s p) eqn:E3.
  { intros _. right. left. split.
    - rewrite <- (Nat.add_0_r p). now apply (occursAt_get "v/" s p E3).
    - now apply (occursAt_get "v/" s p E3). }
  destruct (occursAt false "/u/" s p
            && holdsAt isWordChar s (p + 3)
            && occursAt false "/" s (p + 4)) eqn:E4.
  { intros _. right. right. left.
    apply andb_true_iff in E4. destruct E4 as [E4 _].
    apply andb_true_iff in E4. destruct E4 as [E4 _]. split.
    - rewrite <- (Nat.add_0_r p). now apply (occursAt_get "/u/" s p E4).
    - now apply (occursAt_get "/u/" s p E4). }
  destruct (occursAt false "embed/" s p) eqn:E5.
  { intros _. right. right. right. left. split.
    - rewrite <- (Nat.add_0_r p). now apply (occursAt_get "embed/" s p E5).
    - now apply (occursAt_get "embed/" s p E5). }
  destruct (occursAt false "watch?" s p) eqn:E6; [|discriminate].
  intros _. right. right. right. right. split.
  - change "watch?" with ("watch" ++ "?") in E6.
    rewrite occursAt_needle_app in E6.
    apply andb_true_iff in E6. tauto.
  - now apply (occursAt_get "watch?" s p E6).
Qed.

Lemma span_drop_0 P s : spanAt P s 0 = span P s.
Proof. unfold spanAt. now destruct s. Qed.

Lemma videoIdOf_parts pre s q :
  allChars notLineTerminator pre = true ->
  markerAt s 0 = Some q ->
  (forall p, 1 <= p <= span notLineTerminator s -> markerAt s p = None) ->
  videoIdOf (pre ++ s)
  = if String.length (tokenAfter s q) =? 11 then Some (tokenAfter s q)
    else None.
Proof.
  intros Hpre Hq Hlater. unfold videoIdOf.
  rewrite span_drop_0, span_app by exact Hpre.
  rewrite (lastMarker_last (pre ++ s) (String.length pre + q)
             (String.length pre)).
  - now rewrite tokenAfter_shift.
  - lia.
  - rewrite <- (Nat.add_0_r (String.length pre)) at 1.
    now rewrite markerAt_shift, Hq.
  - intros p Hp.
    replace p with (String.length pre + (p - String.length pre)) by lia.
    rewrite markerAt_shift, Hlater by lia. reflexivity.
Qed.

Lemma idChar_facts ch :
  isIdChar ch = true ->
  notDelimiter ch = true
  /\ Ascii.eqb "/" ch = false
  /\ Ascii.eqb "?" ch = false
  /\ Ascii.eqb "=" ch = false.
Proof.
  destruct ch as [[] [] [] [] [] [] [] []]; intros H;
    try discriminate H; repeat split.
Qed.

Lemma allChars_impl (P Q : ascii -> bool) s :
  (forall ch, P ch = true -> Q ch = true) ->
  allChars P s = true -> allChars Q s = true.
Proof.
  intros HPQ. induction s as [|c s IH]; simpl; [reflexivity|].
  intros H. apply andb_true_iff in H. destruct H as [Hc H].
  now rewrite (HPQ c Hc), IH.
Qed.

Lemma watch_not_at m vid rest :
  String.length vid = 11 ->
  drop 6 vid <> "watch" ->
  occursAt false "watch" (m ++ vid ++ rest) (String.length m + 6) = false.
Proof.
  intros Hlen Hwatch. rewrite occursAt_shift.
  destruct (occursAt false "watch" (vid ++ rest) 6) eqn:E; [|reflexivity].
  exfalso. apply Hwatch.
  pose proof (occursAt_get "watch" _ _ E 0 "w"%char eq_refl) as H0.
  pose proof (occursAt_get "watch" _ _ E 1 "a"%char eq_refl) as H1.
  pose proof (occursAt_get "watch" _ _ E 2 "t"%char eq_refl) as H2.
  pose proof (occursAt_get "watch" _ _ E 3 "c"%char eq_refl) as H3.
  pose proof (occursAt_get "watch" _ _ E 4 "h"%char eq_refl) as H4.
  clear E Hwatch.
  do 11 (destruct vid as [|? vid]; [discriminate Hlen|]).
  destruct vid; [|discriminate Hlen].
  simpl in *. congruence.
Qed.

Section Parts.
Variables vid rest : string.
Hypothesis Hlen : String.length vid = 11.
Hypothesis Hid : allChars isIdChar vid = true.
Hypothesis Hstop : startsWith notDelimiter rest = false.
Hypothesis Hslash : noneIs "/" rest = true.
Hypothesis Hquery : noneIs "?" (drop 1 rest) = true.
Hypothesis Hwatch : drop 6 vid <> "watch".

Lemma slash_in_marker m j :
  String.get j (m ++ vid ++ rest) = Some "/"%char -> j < String.length m.
Proof.
  intros H. apply get_app_cases in H. destruct H as [[Hj _]|[_ H]]; [exact Hj|].
  exfalso. apply get_app_cases in H. destruct H as [[_ H]|[_ H]].
  - apply (get_allChars _ _ _ _ Hid) in H. discriminate H.
  - apply (get_allChars _ _ _ _ Hslash) in H. discriminate H.
Qed.

Lemma query_after_marker m j :
  String.get j (m ++ vid ++ rest) = Some "?"%char ->
  j < String.length m \/ j = String.length m + 11.
Proof.
  intros H. apply get_app_cases in H.
  destruct H as [[Hj _]|[Hj H]]; [now left|]. right.
  apply get_app_cases in H. destruct H as [[_ H]|[Hj' H]].
  - apply (get_allChars _ _ _ _ Hid) in H. discriminate H.
  - rewrite Hlen in *.
    destruct (j - String.length m - 11) as [|k] eqn:Hk; [lia|].
    exfalso. change (S k) with (1 + k) in H. rewrite <- get_drop in H.
    apply (get_allChars _ _ _ _ Hquery) in H. discriminate H.
Qed.


(** After one of the four markers at the start, no marker stands later. *)
Lemma no_later_marker m p :
  In m ["watch?v="; "youtu.be/"; "embed/"; "v/"] ->
  1 <= p -> markerAt (m ++ vid ++ rest) p = None.
Proof.
  intros Hm Hp.
  destruct (markerAt (m ++ vid ++ rest) p) as [q|] eqn:E; [|reflexivity].
  exfalso. apply markerAt_Some_inv in E.
  pose proof (watch_not_at m vid rest Hlen Hwatch) as Hw.
  simpl in Hm.
  destruct Hm as [<-|[<-|[<-|[<-|[]]]]];
    destruct E as [[H1 H]|[[H1 H]|[[H1 H]|[[H1 H]|[H1 H]]]]];
    (first
       [ pose proof (slash_in_marker _ _ H) as Hb
       | destruct (query_after_marker _ _ H) as [Hb|Hb];
         [|match type of Hw with
           | occursAt _ _ _ ?i = false =>
               replace p with i in H1 by (simpl in *; lia)
           end; congruence] ]);
    simpl in Hb;
    do 9 (destruct p as [|p];
          [first [lia | simpl in H1; discriminate H1
                 | simpl in H; discriminate H] |]);
    lia.
Qed.
End Parts.

Lemma tokenAfter_parts s q a vid rest :
  tokenStart s q = a ->
  drop a s = vid ++ rest ->
  allChars isIdChar vid = true ->
  startsWith notDelimiter rest = false ->
  tokenAfter s q = vid.
Proof.
  intros Ha Hdrop Hid Hstop. rewrite tokenAfter_eq, Ha, Hdrop.
  rewrite span_app, (span_stop _ _ Hstop), Nat.add_0_r.
  - apply take_length_app.
  - apply (allChars_impl isIdChar); [|exact Hid].
    intros ch Hch. now apply idChar_facts.
Qed.

(** X18.  The watch form: for an identifier [vid] of 11 letters, digits,
    [_] or [-], a url that has watch?v= and [vid] on its first line, and
    after them nothing or a [#], [&] or [?] followed by characters other
    than [/] and [?], gives [vid]; unless [vid] ends in watch and a [?]
    follows. *)
Theorem extractVideoId_watch (w : World) (pre vid rest : string) :
  allChars notLineTerminator pre = true ->
  String.length vid = 11 ->
  allChars isIdChar vid = true ->
  startsWith notDelimiter rest = false ->
  noneIs "/" rest = true ->
  noneIs "?" (drop 1 rest) = true ->
  drop 6 vid <> "watch" ->
  extractVideoId w (pre ++ "watch?v=" ++ vid ++ rest) = Ok (Some vid).
Proof.
  intros Hpre Hlen Hid Hstop Hslash Hquery Hwatch.
  rewrite extractVideoId_videoIdOf.
  rewrite (videoIdOf_parts pre ("watch?v=" ++ vid ++ rest) 6 Hpre eq_refl).
  - rewrite (tokenAfter_parts ("watch?v=" ++ vid ++ rest) 6 8 vid rest
               eq_refl eq_refl Hid Hstop).
    now rewrite Hlen.
  - intros p [Hp _]. apply no_later_marker; simpl; auto.
Qed.

Lemma extractVideoId_watch_witness :
  allChars isIdChar "dQw4w9WgXcQ" = true
  /\ startsWith notDelimiter "&list=PL1&t=42s" = false
  /\ extractVideoId (replyWorld (Ok []))
       ("https://www.youtube.com/" ++ "watch?v=" ++ "dQw4w9WgXcQ"
        ++ "&list=PL1&t=42s")
     = Ok (Some "dQw4w9WgXcQ").
Proof.
  split; [reflexivity|]. split; [reflexivity|].
  apply (extractVideoId_watch (replyWorld (Ok []))
           "https://www.youtube.com/" "dQw4w9WgXcQ" "&list=PL1&t=42s"
           eq_refl eq_refl eq_refl eq_refl eq_refl eq_refl
           ltac:(discriminate)).
Defined.

(** X19.  The path forms: with youtu.be/, embed/ or v/ in the place of
    watch?v=, the url gives [vid] when [vid] does not start with [v], and
    [null] when it does. *)
Theorem extractVideoId_path (w : World) (pre m vid rest : string) :
  In m ["youtu.be/"; "embed/"; "v/"] ->
  allChars notLineTerminator pre = true ->
  String.length vid = 11 ->
  allChars isIdChar vid = true ->
  startsWith notDelimiter rest = false ->
  noneIs "/" rest = true ->
  noneIs "?" (drop 1 rest) = true ->
  drop 6 vid <> "watch" ->
  extractVideoId w (pre ++ m ++ vid ++ rest)
  = Ok (if startsWith (Ascii.eqb "v") vid then None else Some vid).
Proof.
  intros Hm Hpre Hlen Hid Hstop Hslash Hquery Hwatch.
  rewrite extractVideoId_videoIdOf.
  assert (Hlater : forall p, 1 <= p -> markerAt (m ++ vid ++ rest) p = None).
  { intros p Hp. apply no_later_marker; simpl in *; tauto. }
  destruct vid as [|c1 [|c2 vid]]; try discriminate Hlen.
  pose proof Hid as Hid'. cbn [allChars] in Hid'.
  apply andb_true_iff in Hid'. destruct Hid' as [Hc1 Hid'].
  apply andb_true_iff in Hid'. destruct Hid' as [Hc2 Hid'].
  destruct (idChar_facts c1 Hc1) as (_ & _ & Hq1 & He1).
  destruct (idChar_facts c2 Hc2) as (_ & _ & _ & He2).
  cbn [startsWith].
  assert (Htoken : forall q,
            markerAt (m ++ String c1 (String c2 vid) ++ rest) 0 = Some q ->
            String.length m = q ->
            drop q (m ++ String c1 (String c2 vid) ++ rest)
            = String c1 (String c2 vid) ++ rest ->
            videoIdOf (pre ++ m ++ String c1 (String c2 vid) ++ rest)
            = if Ascii.eqb "v" c1 then None
              else Some (String c1 (String c2 vid))).
  { intros q Hq Hmq Hdrop.
    rewrite (videoIdOf_parts pre _ q Hpre Hq)
      by (intros p [Hp _]; now apply Hlater).
    assert (Hg1 : String.get q (m ++ String c1 (String c2 vid) ++ rest)
                  = Some c1)
      by (rewrite <- (Nat.add_0_r q), <- get_drop, Hdrop; reflexivity).
    assert (Hg2 : String.get (S q) (m ++ String c1 (String c2 vid) ++ rest)
                  = Some c2)
      by (replace (S q) with (q + 1) by lia;
          rewrite <- get_drop, Hdrop; reflexivity).
    destruct (Ascii.eqb "v" c1) eqn:Ev.
    - assert (Hts : tokenStart (m ++ String c1 (String c2 vid) ++ rest) q
                    = S q).
      { unfold tokenStart, skipChar, holdsAt. rewrite Hg1, Hq1, Hg1, Ev.
        now rewrite Hg2, He2. }
      rewrite (tokenAfter_parts _ q (S q) (String c2 vid) rest Hts).
      + simpl in Hlen. injection Hlen as Hlen. simpl. now rewrite Hlen.
      + replace (S q) with (q + 1) by lia. now rewrite drop_add, Hdrop.
      + simpl. now rewrite Hc2.
      + exact Hstop.
    - assert (Hts : tokenStart (m ++ String c1 (String c2 vid) ++ rest) q
                    = q).
      { unfold tokenStart, skipChar, holdsAt.
        now rewrite Hg1, Hq1, Hg1, Ev, Hg1, He1. }
      rewrite (tokenAfter_parts _ q q (String c1 (String c2 vid)) rest
                 Hts Hdrop Hid Hstop).
      now rewrite Hlen. }
  simpl in Hm. destruct Hm as [<-|[<-|[<-|[]]]].
  - f_equal. apply (Htoken 9); reflexivity.
  - f_equal. apply (Htoken 6); reflexivity.
  - f_equal. apply (Htoken 2); reflexivity.
Qed.

Lemma extractVideoId_path_witness :
  In "youtu.be/" ["youtu.be/"; "embed/"; "v/"]
  /\ allChars isIdChar "dQw4w9WgXcQ" = true
  /\ startsWith notDelimiter "?si=abc" = false
  /\ extractVideoId (replyWorld (Ok []))
       ("https://" ++ "youtu.be/" ++ "dQw4w9WgXcQ" ++ "?si=abc")
     = Ok (Some "dQw4w9WgXcQ").
Proof.
  split; [now left|]. split; [reflexivity|]. split; [reflexivity|].
  apply (extractVideoId_path (replyWorld (Ok []))
           "https://" "youtu.be/" "dQw4w9WgXcQ" "?si=abc"
           (or_introl eq_refl)
           eq_refl eq_refl eq_refl eq_refl eq_refl eq_refl
           ltac:(discriminate)).
Defined.

(** X20.  An identifier that [extractVideoId] returns is 11 characters of
    the url that follow each other, none of them [#], [&] or [?]. *)
Theorem extractVideoId_part_of_url (w : World) (url vid : string) :
  extractVideoId w url = Ok (Some vid) ->
  String.length vid = 11
  /\ allChars notDelimiter vid = true
  /\ exists a, vid = substring a (a + 11) url.
Proof.
  rewrite extractVideoId_videoIdOf. unfold videoIdOf.
  destruct (lastMarker url 0 _) as [q|]; [|discriminate].
  destruct (String.length (tokenAfter url q) =? 11) eqn:E; [|discriminate].
  intros H. injection H as <-. apply Nat.eqb_eq in E.
  split; [exact E|]. split.
  - rewrite tokenAfter_eq. apply allChars_take_span.
  - exists (tokenStart url q). rewrite substring_take_drop.
    rewrite tokenAfter_eq in *. rewrite length_take in E by apply span_le.
    now rewrite E.
Qed.

Lemma extractVideoId_part_of_url_witness :
  extractVideoId (replyWorld (Ok []))
    "https://www.youtube.com/watch?v=dQw4w9WgXcQ&t=42s"
  = Ok (Some "dQw4w9WgXcQ")
  /\ String.length "dQw4w9WgXcQ" = 11
  /\ allChars notDelimiter "dQw4w9WgXcQ" = true
  /\ exists a,
       "dQw4w9WgXcQ"
       = substring a (a + 11)
           "https://www.youtube.com/watch?v=dQw4w9WgXcQ&t=42s".
Proof.
  split; [reflexivity|].
  apply (extractVideoId_part_of_url (replyWorld (Ok []))
           "https://www.youtube.com/watch?v=dQw4w9WgXcQ&t=42s"
           "dQw4w9WgXcQ" eq_refl).
Defined.

(** X21.  A text without [/] and without [?] is not a video url: the
    identifier of a video alone is refused. *)
Theorem extractVideoId_needs_marker (w : World) (url : string) :
  noneIs "/" url = true ->
  noneIs "?" url = true ->
  extractVideoId w url = Ok None.
Proof.
  intros Hslash Hquery. rewrite extractVideoId_videoIdOf. unfold videoIdOf.
  rewrite lastMarker_none; [reflexivity|].
  intros p _. destruct (markerAt url p) as [q|] eqn:E; [|reflexivity].
  exfalso. apply markerAt_Some_inv in E.
  destruct E as [[_ H]|[[_ H]|[[_ H]|[[_ H]|[_ H]]]]];
    first [ apply (get_allChars _ _ _ _ Hslash) in H; discriminate H
          | apply (get_allChars _ _ _ _ Hquery) in H; discriminate H ].
Qed.

Lemma extractVideoId_needs_marker_witness :
  noneIs "/" "dQw4w9WgXcQ" = true
  /\ noneIs "?" "dQw4w9WgXcQ" = true
  /\ extractVideoId (replyWorld (Ok [])) "dQw4w9WgXcQ" = Ok None.
Proof.
  split; [reflexivity|]. split; [reflexivity|].
  apply (extractVideoId_needs_marker (replyWorld (Ok [])) "dQw4w9WgXcQ"
           eq_refl eq_refl).
Defined.

(** ** The url that the reply 200 gives back *)

Lemma occursAt_app_l icase needle : forall s1 s2 i,
  occursAt icase needle s1 i = true ->
  occursAt icase needle (s1 ++ s2) i = true.
Proof.
  induction needle as [|c needle IH]; intros s1 s2 i H; simpl in *;
    [reflexivity|].
  destruct (String.get i s1) as [ch|] eqn:Hg; [|discriminate].
  rewrite <- (append_correct1 s1 s2 i (get_Some_lt _ _ _ Hg)), Hg.
  apply andb_true_iff in H. destruct H as [H1 H2].
  rewrite H1. simpl. now apply IH.
Qed.

Lemma holdsAt_app_l P s1 s2 i :
  holdsAt P s1 i = true -> holdsAt P (s1 ++ s2) i = true.
Proof.
  unfold holdsAt. destruct (String.get i s1) as [ch|] eqn:Hg; [|discriminate].
  now rewrite <- (append_correct1 s1 s2 i (get_Some_lt _ _ _ Hg)), Hg.
Qed.

(** A marker of a text is still there when the text goes on. *)
Lemma markerAt_app_l s1 s2 p q :
  markerAt s1 p = Some q -> exists q', markerAt (s1 ++ s2) p = Some q'.
Proof.
  assert (Hdone : forall b x y, exists q' : nat,
            (if b : bool then Some x else Some y) = Some q')
    by (intros [] x y; eexists; reflexivity).
  unfold markerAt.
  destruct (occursAt false "youtu" s1 p
            && holdsAt notLineTerminator s1 (p + 5)
            && occursAt false "be/" s1 (p + 6)) eqn:E2.
  { intros _. apply andb_true_iff in E2. destruct E2 as [E2 E2c].
    apply andb_true_iff in E2. destruct E2 as [E2a E2b].
    rewrite (occursAt_app_l _ _ _ s2 _ E2a), (holdsAt_app_l _ _ s2 _ E2b),
      (occursAt_app_l _ _ _ s2 _ E2c).
    eexists. reflexivity. }
  destruct (occursAt false "v/" s1 p) eqn:E3.
  { intros _. rewrite (occursAt_app_l _ _ _ s2 _ E3). apply Hdone. }
  destruct (occursAt false "/u/" s1 p
            && holdsAt isWordChar s1 (p + 3)
            && occursAt false "/" s1 (p + 4)) eqn:E4.
  { intros _. apply andb_true_iff in E4. destruct E4 as [E4 E4c].
    apply andb_true_iff in E4. destruct E4 as [E4a E4b].
    rewrite (occursAt_app_l _ _ _ s2 _ E4a), (holdsAt_app_l _ _ s2 _ E4b),
      (occursAt_app_l _ _ _ s2 _ E4c).
    destruct (occursAt false "youtu" (s1 ++ s2) p && _ && _);
      [eexists; reflexivity|apply Hdone]. }
  destruct (occursAt false "embed/" s1 p) eqn:E5.
  { intros _. rewrite (occursAt_app_l _ _ _ s2 _ E5).
    destruct (occursAt false "youtu" (s1 ++ s2) p && _ && _);
      [eexists; reflexivity|].
    destruct (occursAt false "v/" (s1 ++ s2) p); [eexists; reflexivity|].
    apply Hdone. }
  destruct (occursAt false "watch?" s1 p) eqn:E6; [|discriminate].
  intros _. rewrite (occursAt_app_l _ _ _ s2 _ E6).
  destruct (occursAt false "youtu" (s1 ++ s2) p && _ && _);
    [eexists; reflexivity|].
  destruct (occursAt false "v/" (s1 ++ s2) p); [eexists; reflexivity|].
  destruct (occursAt false "/u/" (s1 ++ s2) p && _ && _);
    [eexists; reflexivity|].
  apply Hdone.
Qed.

Lemma markerAt_drop url a p :
  markerAt url (a + p) = option_map (Nat.add a) (markerAt (drop a url) p).
Proof.
  assert (Hocc : forall needle i,
            occursAt false needle url (a + i)
            = occursAt false needle (drop a url) i).
  { intros needle i.
    now rewrite occursAt_drop, drop_add, <- occursAt_drop. }
  assert (Hholds : forall P i,
            holdsAt P url (a + i) = holdsAt P (drop a url) i).
  { intros P i. unfold holdsAt. now rewrite get_drop. }
  unfold markerAt. rewrite <- !Nat.add_assoc, !Hocc, !Hholds.
  repeat match goal with
         | |- context [if ?b then _ else _] => destruct b
         end; reflexivity.
Qed.

(** A span reaches as far as the characters satisfy the predicate. *)
Lemma span_extend P s : forall b a,
  a <= span P s ->
  (forall j, a <= j < b -> holdsAt P s j = true) ->
  b <= span P s \/ b <= a.
Proof.
  induction b as [|b IH]; intros a Ha H; [right; lia|].
  destruct (le_lt_dec (S b) a) as [Hle|Hgt]; [now right|]. left.
  destruct (IH a Ha) as [Hb|Hb]; [intros j Hj; apply H; lia| |].
  - destruct (Nat.eq_dec (span P s) b) as [Heq|Hne]; [|lia].
    exfalso. specialize (H b ltac:(lia)). unfold holdsAt in H.
    destruct (String.get b s) as [ch|] eqn:Hg; [|discriminate].
    pose proof (spanAt_stop P s 0 ch) as Hs.
    rewrite span_drop_0, Heq in Hs. simpl in Hs.
    rewrite (Hs Hg) in H. discriminate.
  - assert (a = b) by lia. subst a.
    destruct (Nat.eq_dec (span P s) b) as [Heq|Hne]; [|lia].
    exfalso. specialize (H b ltac:(lia)). unfold holdsAt in H.
    destruct (String.get b s) as [ch|] eqn:Hg; [|discriminate].
    pose proof (spanAt_stop P s 0 ch) as Hs.
    rewrite span_drop_0, Heq in Hs. simpl in Hs.
    rewrite (Hs Hg) in H. discriminate.
Qed.

Lemma span_reaches P s a b :
  a <= span P s ->
  (forall j, a <= j < b -> holdsAt P s j = true) ->
  a <= b -> b <= span P s.
Proof.
  intros Ha H Hab. destruct (span_extend P s b a Ha H); lia.
Qed.

Lemma occursAt_holds P needle s p :
  occursAt false needle s p = true ->
  allChars P needle = true ->
  forall j, p <= j < p + String.length needle -> holdsAt P s j = true.
Proof.
  intros Hocc Hall j Hj.
  destruct (String.get (j - p) needle) as [c|] eqn:Hg.
  - pose proof (occursAt_get needle s p Hocc (j - p) c Hg) as H.
    replace (p + (j - p)) with j in H by lia.
    unfold holdsAt. rewrite H. apply (get_allChars P needle (j - p) c Hall Hg).
  - apply get_None_ge in Hg. lia.
Qed.

Lemma wordChar_notLineTerminator ch :
  isWordChar ch = true -> notLineTerminator ch = true.
Proof.
  destruct ch as [[] [] [] [] [] [] [] []]; intros H;
    try discriminate H; reflexivity.
Qed.

Lemma holdsAt_impl (P Q : ascii -> bool) s i :
  (forall ch, P ch = true -> Q ch = true) ->
  holdsAt P s i = true -> holdsAt Q s i = true.
Proof.
  unfold holdsAt. destruct (String.get i s); [auto|discriminate].
Qed.

(** The characters of a marker are on one line, and a marker is not
    empty. *)
Lemma markerAt_line s p q :
  markerAt s p = Some q ->
  p < q /\ forall j, p <= j < q -> holdsAt notLineTerminator s j = true.
Proof.
  unfold markerAt.
  destruct (occursAt false "youtu" s p
            && holdsAt notLineTerminator s (p + 5)
            && occursAt false "be/" s (p + 6)) eqn:E2.
  { intros H. injection H as <-. split; [lia|]. intros j Hj.
    apply andb_true_iff in E2. destruct E2 as [E2 E2c].
    apply andb_true_iff in E2. destruct E2 as [E2a E2b].
    destruct (le_lt_dec (p + 5) j) as [H5|H5].
    - destruct (Nat.eq_dec j (p + 5)) as [->|Hne]; [exact E2b|].
      apply (occursAt_holds notLineTerminator "be/" s (p + 6) E2c eq_refl). simpl. lia.
    - apply (occursAt_holds notLineTerminator "youtu" s p E2a eq_refl). simpl. lia. }
  destruct (occursAt false "v/" s p) eqn:E3.
  { intros H. injection H as <-. split; [lia|]. intros j Hj.
    apply (occursAt_holds notLineTerminator "v/" s p E3 eq_refl). simpl. lia. }
  destruct (occursAt false "/u/" s p
            && holdsAt isWordChar s (p + 3)
            && occursAt false "/" s (p + 4)) eqn:E4.
  { intros H. injection H as <-. split; [lia|]. intros j Hj.
    apply andb_true_iff in E4. destruct E4 as [E4 E4c].
    apply andb_true_iff in E4. destruct E4 as [E4a E4b].
    destruct (le_lt_dec (p + 3) j) as [H5|H5].
    - destruct (Nat.eq_dec j (p + 3)) as [->|Hne].
      + apply (holdsAt_impl isWordChar); [|exact E4b].
        apply wordChar_notLineTerminator.
      + apply (occursAt_holds notLineTerminator "/" s (p + 4) E4c eq_refl). simpl. lia.
    - apply (occursAt_holds notLineTerminator "/u/" s p E4a eq_refl). simpl. lia. }
  destruct (occursAt false "embed/" s p) eqn:E5.
  { intros H. injection H as <-. split; [lia|]. intros j Hj.
    apply (occursAt_holds notLineTerminator "embed/" s p E5 eq_refl). simpl. lia. }
  destruct (occursAt false "watch?" s p) eqn:E6; [|discriminate].
  intros H. injection H as <-. split; [lia|]. intros j Hj.
  apply (occursAt_holds notLineTerminator "watch?" s p E6 eq_refl). simpl. lia.
Qed.

Lemma skipChar_line c url i :
  notLineTerminator c = true ->
  i <= span notLineTerminator url ->
  i <= skipChar c url i <= span notLineTerminator url.
Proof.
  intros Hc Hi. unfold skipChar.
  destruct (holdsAt (Ascii.eqb c) url i) eqn:E; [|lia].
  split; [lia|].
  apply (span_reaches notLineTerminator url i (S i) Hi); [|lia].
  intros j Hj. replace j with i by lia.
  apply (holdsAt_impl (Ascii.eqb c)); [|exact E].
  intros ch Hch. apply Ascii.eqb_eq in Hch. now subst.
Qed.

Lemma tokenStart_line url q :
  q <= span notLineTerminator url ->
  q <= tokenStart url q <= span notLineTerminator url.
Proof.
  intros Hq. unfold tokenStart.
  pose proof (skipChar_line "?" url q eq_refl Hq) as H1.
  pose proof (skipChar_line "v" url _ eq_refl (proj2 H1)) as H2.
  pose proof (skipChar_line "=" url _ eq_refl (proj2 H2)) as H3.
  lia.
Qed.

Lemma span_allChars P : forall s, allChars P s = true -> span P s = String.length s.
Proof.
  induction s as [|c s IH]; simpl; [reflexivity|]. intros H.
  apply andb_true_iff in H. destruct H as [Hc H]. now rewrite Hc, IH.
Qed.

Lemma take_all : forall s, take (String.length s) s = s.
Proof. induction s as [|c s IH]; simpl; [reflexivity|now rewrite IH]. Qed.

(** No marker stands on the first line of an identifier that
    [extractVideoId] returns: the marker before it was the last one. *)
Lemma videoIdOf_no_marker url vid :
  videoIdOf url = Some vid ->
  forall p, p <= span notLineTerminator vid -> markerAt vid p = None.
Proof.
  unfold videoIdOf. rewrite span_drop_0.
  destruct (lastMarker url 0 (span notLineTerminator url)) as [q|] eqn:EL;
    [|discriminate].
  destruct (String.length (tokenAfter url q) =? 11); [|discriminate].
  intros H. injection H as Hvid. intros p Hp.
  destruct (lastMarker_Some_inv url q _ _ EL) as (p0 & Hp0 & Hm & Hlater).
  destruct (markerAt_line url p0 q Hm) as [Hlt Hline].
  assert (Hq : q <= span notLineTerminator url).
  { apply (span_reaches notLineTerminator url p0 q); [lia|exact Hline|lia]. }
  pose proof (tokenStart_line url q Hq) as Hts.
  set (ts := tokenStart url q) in *.
  rewrite tokenAfter_eq in Hvid. fold ts in Hvid.
  assert (Hdrop : drop ts url
                  = vid ++ drop (span notDelimiter (drop ts url))
                             (drop ts url))
    by (rewrite <- Hvid; symmetry; apply take_drop).
  destruct (markerAt vid p) as [x|] eqn:E; [|reflexivity]. exfalso.
  destruct (markerAt_app_l vid
              (drop (span notDelimiter (drop ts url)) (drop ts url)) p x E)
    as [x' Hx'].
  rewrite <- Hdrop in Hx'.
  assert (Hurl : markerAt url (ts + p) = Some (ts + x'))
    by now rewrite markerAt_drop, Hx'.
  rewrite Hlater in Hurl; [discriminate|]. split; [lia|].
  apply (span_reaches notLineTerminator url ts (ts + p)); [lia| |lia].
  intros j Hj.
  destruct (spanAt_inside notLineTerminator vid (j - ts) 0) as (ch & Hg & Hch).
  { rewrite span_drop_0. lia. }
  simpl in Hg. unfold holdsAt.
  replace j with (ts + (j - ts)) by lia.
  rewrite <- get_drop, Hdrop.
  rewrite <- (append_correct1 vid _ (j - ts) (get_Some_lt _ _ _ Hg)).
  now rewrite Hg.
Qed.

(** X22.  The url that the reply 200 gives back for a video, the address
    of its watch page, is a url that [extractVideoId] accepts, with the
    same identifier. *)
Theorem extractVideoId_canonical_url (w : World) (url vid : string) :
  extractVideoId w url = Ok (Some vid) ->
  extractVideoId w ("https://www.youtube.com/watch?v=" ++ vid)
  = Ok (Some vid).
Proof.
  rewrite !extractVideoId_videoIdOf. intros H. injection H as H. f_equal.
  pose proof (videoIdOf_no_marker url vid H) as Hnone.
  assert (Hlen : String.length vid = 11
                 /\ allChars notDelimiter vid = true).
  { unfold videoIdOf in H.
    destruct (lastMarker url 0 _) as [q|]; [|discriminate].
    destruct (String.length (tokenAfter url q) =? 11) eqn:E; [|discriminate].
    injection H as <-. apply Nat.eqb_eq in E. split; [exact E|].
    rewrite tokenAfter_eq. apply allChars_take_span. }
  destruct Hlen as [Hlen Hall].
  change ("https://www.youtube.com/watch?v=" ++ vid)
    with ("https://www.youtube.com/" ++ "watch?v=" ++ vid).
  rewrite (videoIdOf_parts "https://www.youtube.com/" ("watch?v=" ++ vid) 6
             eq_refl eq_refl).
  - assert (Htoken : tokenAfter ("watch?v=" ++ vid) 6 = vid).
    { rewrite tokenAfter_eq.
      change (tokenStart ("watch?v=" ++ vid) 6) with 8.
      change (drop 8 ("watch?v=" ++ vid)) with vid.
      rewrite (span_allChars _ _ Hall). apply take_all. }
    now rewrite Htoken, Hlen.
  - intros p Hp. rewrite (span_app notLineTerminator "watch?v=" vid eq_refl)
      in Hp.
    do 8 (destruct p as [|p]; [first [lia | reflexivity]|]).
    change (S (S (S (S (S (S (S (S p))))))))
      with (String.length "watch?v=" + p).
    rewrite markerAt_shift, Hnone; [reflexivity|]. simpl in Hp. lia.
Qed.

Lemma extractVideoId_canonical_url_witness :
  extractVideoId (replyWorld (Ok [])) "https://youtu.be/dQw4w9WgXcQ?t=42"
  = Ok (Some "dQw4w9WgXcQ")
  /\ extractVideoId (replyWorld (Ok []))
       ("https://www.youtube.com/watch?v=" ++ "dQw4w9WgXcQ")
     = Ok (Some "dQw4w9WgXcQ").
Proof.
  split; [reflexivity|].
  apply (extractVideoId_canonical_url (replyWorld (Ok []))
           "https://youtu.be/dQw4w9WgXcQ?t=42" "dQw4w9WgXcQ" eq_refl).
Defined.

(** ** The reply 200 *)





(** ** The environment *)

(** X24.  The server reads three variables of the environment,
    GORQ_API_KEY (spelled so on line 15), YOUTUBE_API_KEY and PORT, and no
    other: two environments that agree on them give the same replies,
    the same requests and the same lines at start-up.  A variable
    GROQ_API_KEY is never read. *)
Theorem environment_read (w : World) (e : string -> option string) :
  e "GORQ_API_KEY" = env w "GORQ_API_KEY" ->
  e "YOUTUBE_API_KEY" = env w "YOUTUBE_API_KEY" ->
  e "PORT" = env w "PORT" ->
  (forall req tr, analyzeRoute (withEnv w e) req tr = analyzeRoute w req tr)
  /\ healthRoute (withEnv w e) = healthRoute w
  /\ startupLog (withEnv w e) = startupLog w.
Proof.
  intros Hg Hy Hp. destruct w as [env0 va ta ca em sm tm].
  unfold withEnv. cbn [env videosApi transcriptApi completionApi engineMatch
                         syntaxErrorMessage typeErrorMessage] in *.
  split; [|split].
  - intros req tr.
    unfold analyzeRoute, analyzeVideo, getTranscript, getYouTubeVideoData,
      analyzeCoverage, callGroq, groqHeaders, GROQ_API_KEY, YOUTUBE_API_KEY,
      parseSubtopic, matchPattern, extractVideoId.
    cbn [env videosApi transcriptApi completionApi engineMatch
           syntaxErrorMessage typeErrorMessage].
    rewrite Hg, Hy. reflexivity.
  - unfold healthRoute, GROQ_API_KEY, YOUTUBE_API_KEY. cbn [env].
    now rewrite Hg, Hy.
  - unfold startupLog, PORT, GROQ_API_KEY, YOUTUBE_API_KEY. cbn [env].
    now rewrite Hg, Hy, Hp.
Qed.

Lemma environment_read_witness :
  (forall req tr,
     analyzeRoute
       (withEnv (scriptedWorld None (Some "yt-live") (Ok []))
          (fun name =>
             if String.eqb name "GROQ_API_KEY" then Some "gsk-live"
             else if String.eqb name "YOUTUBE_API_KEY" then Some "yt-live"
             else None))
       req tr
     = analyzeRoute (scriptedWorld None (Some "yt-live") (Ok [])) req tr)
  /\ healthRoute
       (withEnv (scriptedWorld None (Some "yt-live") (Ok []))
          (fun name =>
             if String.eqb name "GROQ_API_KEY" then Some "gsk-live"
             else if String.eqb name "YOUTUBE_API_KEY" then Some "yt-live"
             else None))
     = mkResponse 200
         (JObject [("status", JString "OK");
                   ("message", JString "Server running");
                   ("hasGroqKey", JBool false);
                   ("hasYouTubeKey", JBool true)]).
Proof.
  pose proof (environment_read
                (scriptedWorld None (Some "yt-live") (Ok []))
                (fun name =>
                   if String.eqb name "GROQ_API_KEY" then Some "gsk-live"
                   else if String.eqb name "YOUTUBE_API_KEY"
                        then Some "yt-live"
                        else None)
                eq_refl eq_refl eq_refl) as (Hroute & Hhealth & _).
  split; [exact Hroute|exact Hhealth].
Defined.

(** ** The replies 500 and the transcript of the reply 200 *)

(** X25.  A video that the video service does not know (no items in its
    answer) makes POST /api/analyze reply 500 with the error
    "Video not found", after the one request to the video service and one
    line on the console; nothing is asked of the other services. *)
Theorem analyzeRoute_video_not_found
        (w : World) (url tp : string) (subs : list string)
        (videoId : string) (tr : Trace) :
  url <> "" -> tp <> "" -> subs <> [] ->
  extractVideoId w url = Ok (Some videoId) ->
  videosApi w tr (videosUrl w videoId) = Ok None
  \/ videosApi w tr (videosUrl w videoId) = Ok (Some []) ->
  analyzeRoute w (mkRequest (Some url) (Some tp) (Some subs)) tr
  = (Ok (mkResponse 500 (errorBody "Video not found")),
     (tr ++ [HttpGet (videosUrl w videoId);
             ConsoleError "Analysis error:" "Video not found"])%list).
Proof.
  intros Hurl Htp Hsubs Hid Hitems.
  rewrite analyzeRoute_unfold. simpl.
  destruct url as [|c1 u]; [congruence|].
  destruct tp as [|c2 t]; [congruence|].
  destruct subs as [|sub subs]; [congruence|].
  rewrite analyzeVideo_unfold, Hid, getYouTubeVideoData_unfold.
  destruct Hitems as [-> | ->]; simpl; now rewrite <- app_assoc.
Qed.

Lemma analyzeRoute_video_not_found_witness :
  extractVideoId
    (mkWorld (fun _ => None) (fun _ _ => Ok (Some []))
       (fun _ _ => Ok None) (fun _ _ _ _ => Ok []) (fun _ _ => Ok None)
       (fun _ => "SyntaxError") "TypeError")
    "https://youtu.be/dQw4w9WgXcQ"
  = Ok (Some "dQw4w9WgXcQ")
  /\ analyzeRoute
       (mkWorld (fun _ => None) (fun _ _ => Ok (Some []))
          (fun _ _ => Ok None) (fun _ _ _ _ => Ok []) (fun _ _ => Ok None)
          (fun _ => "SyntaxError") "TypeError")
       (mkRequest (Some "https://youtu.be/dQw4w9WgXcQ") (Some "Sorting")
          (Some ["Quicksort"])) []
     = (Ok (mkResponse 500 (errorBody "Video not found")),
        [HttpGet
           ("https://www.googleapis.com/youtube/v3/videos?part=snippet&id="
            ++ "dQw4w9WgXcQ" ++ "&key=" ++ "undefined");
         ConsoleError "Analysis error:" "Video not found"]).
Proof.
  split; [reflexivity|].
  apply (analyzeRoute_video_not_found
           (mkWorld (fun _ => None) (fun _ _ => Ok (Some []))
              (fun _ _ => Ok None) (fun _ _ _ _ => Ok [])
              (fun _ _ => Ok None) (fun _ => "SyntaxError") "TypeError")
           "https://youtu.be/dQw4w9WgXcQ" "Sorting" ["Quicksort"]
           "dQw4w9WgXcQ" []
           ltac:(discriminate) ltac:(discriminate) ltac:(discriminate)
           eq_refl (or_intror eq_refl)).
Defined.

Lemma take_short : forall n s, String.length s <= n -> take n s = s.
Proof.
  induction n as [|n IH]; intros [|c s] H; simpl in *; try reflexivity;
    try lia.
  rewrite IH; [reflexivity|lia].
Qed.

(** X26.  The transcript in a reply 200 is the whole transcript when it
    has at most 500 characters, and otherwise its first 500 characters
    followed by three dots: it never has more than 503 characters. *)
Theorem transcriptPreview_cases (transcript : string) :
  transcriptPreview transcript
  = (if 500 <? String.length transcript
     then take 500 transcript ++ "..."
     else transcript)
  /\ String.length (transcriptPreview transcript) <= 503.
Proof.
  unfold transcriptPreview. rewrite substring_from_0.
  destruct (500 <? String.length transcript) eqn:E.
  - split; [reflexivity|]. rewrite length_append.
    pose proof (length_take_le 500 transcript).
    change (String.length "...") with 3. lia.
  - apply Nat.ltb_ge in E. rewrite take_short by exact E.
    assert (Hnil : forall s, s ++ "" = s)
      by (induction s as [|c s IH]; simpl; [reflexivity|now rewrite IH]).
    rewrite Hnil. split; [reflexivity|lia].
Qed.
